(** * Digital signage: local inventory scan and S3 reconciliation

    A shallow embedding of [scanMedia], [syncFromS3] and [downloadFromS3]
    of [main.go], together with the parts of the Go runtime they call
    ([sort.Slice], [filepath.Walk], [filepath.Join], the [os] file
    operations and the two S3 requests), and the properties of the
    synchronisation engine stated over them.  With them come
    [syncLoop], the configuration that [main] reads with [getEnv] and
    [getEnvInt], [handleMediaAPI] with the JSON it writes, and the
    player of the index page. *)

From Stdlib Require Import String Ascii List Arith NArith ZArith Lia Bool.
From Stdlib Require Import Sorting.Sorted Sorting.Permutation OrderedTypeEx.
From stdpp Require Import base list strings.
Import ListNotations.
Local Open Scope string_scope.
Local Open Scope nat_scope.
Local Open Scope list_scope.

(* ===================================================================== *)
(** * [sort.Slice]

    [sort.Slice(x, less)] runs the pattern-defeating quicksort of the Go
    standard library (sort/zsortfunc.go) on the index interface
    [Less(i, j)], [Swap(i, j)].  The slice is a list updated by index. *)
(* ===================================================================== *)

Module sort.

Inductive sortedHint := unknownHint | increasingHint | decreasingHint.

Definition sortedHint_eqb (x y : sortedHint) : bool :=
  match x, y with
  | unknownHint, unknownHint => true
  | increasingHint, increasingHint => true
  | decreasingHint, decreasingHint => true
  | _, _ => false
  end.

(** [bits.Len(uint(n))]: the number of bits needed to write [n]. *)
Definition bits_Len (n : nat) : nat :=
  match n with
  | 0 => 0
  | _ => S (Nat.log2 n)
  end.

(** The [xorshift] generator of sort.go, on 64-bit words. *)
Definition u64 (x : N) : N := N.modulo x (2 ^ 64).

Definition xorshift_Next (r : N) : N :=
  let r := N.lxor r (u64 (N.shiftl r 13)) in
  let r := N.lxor r (N.shiftr r 7) in
  let r := N.lxor r (u64 (N.shiftl r 17)) in
  r.

Definition nextPowerOfTwo (length : nat) : N :=
  N.shiftl 1 (N.of_nat (bits_Len length)).

Section Pdqsort.

Context {A : Type}.
Variable less : A -> A -> bool.

(** [data.Less(i, j)] and [data.Swap(i, j)]; an index out of range, which
    panics in Go, leaves the slice as it is here. *)
Definition Less (data : list A) (i j : nat) : bool :=
  match data !! i, data !! j with
  | Some x, Some y => less x y
  | _, _ => false
  end.

Definition Swap (data : list A) (i j : nat) : list A :=
  match data !! i, data !! j with
  | Some x, Some y => <[i := y]> (<[j := x]> data)
  | _, _ => data
  end.

(** ** insertionSort_func *)

(** [for j := i; j > a && data.Less(j, j-1); j-- { data.Swap(j, j-1) }] *)
Fixpoint insertionSort_inner (data : list A) (a j : nat) : list A :=
  match j with
  | 0 => data
  | S j' =>
      if (a <? j) && Less data j j'
      then insertionSort_inner (Swap data j j') a j'
      else data
  end.

Definition insertionSort_func (data : list A) (a b : nat) : list A :=
  fold_left (fun d i => insertionSort_inner d a i) (seq (a + 1) (b - (a + 1))) data.

(** ** heapSort_func *)

Fixpoint siftDown_loop (fuel : nat) (data : list A) (root hi first : nat) : list A :=
  match fuel with
  | 0 => data
  | S fuel' =>
      let child := 2 * root + 1 in
      if hi <=? child then data
      else
        let child :=
          if (child + 1 <? hi) && Less data (first + child) (first + child + 1)
          then child + 1 else child in
        if negb (Less data (first + root) (first + child)) then data
        else siftDown_loop fuel' (Swap data (first + root) (first + child)) child hi first
  end.

Definition siftDown_func (data : list A) (lo hi first : nat) : list A :=
  siftDown_loop hi data lo hi first.

Definition heapSort_func (data : list A) (a b : nat) : list A :=
  let first := a in
  let lo := 0 in
  let hi := b - a in
  (* for i := (hi - 1) / 2; i >= 0; i-- *)
  let data :=
    fold_left (fun d i => siftDown_func d i hi first)
              (rev (seq 0 (S ((hi - 1) / 2)))) data in
  (* for i := hi - 1; i >= 0; i-- *)
  fold_left (fun d i => siftDown_func (Swap d first (first + i)) lo i first)
            (rev (seq 0 hi)) data.

(** ** partition_func and partitionEqual_func *)

(** [for i <= j && p(i) { i++ }] and [for i <= j && p(j) { j-- }] *)
Fixpoint scanUp (fuel : nat) (p : nat -> bool) (i j : nat) : nat :=
  match fuel with
  | 0 => i
  | S fuel' => if (i <=? j) && p i then scanUp fuel' p (S i) j else i
  end.

Fixpoint scanDown (fuel : nat) (p : nat -> bool) (i j : nat) : nat :=
  match fuel with
  | 0 => j
  | S fuel' => if (i <=? j) && p j then scanDown fuel' p i (j - 1) else j
  end.

Fixpoint partition_loop (fuel : nat) (data : list A) (a i j : nat) : list A * nat :=
  match fuel with
  | 0 => (data, j)
  | S fuel' =>
      let i := scanUp (S j - i) (fun i => Less data i a) i j in
      let j := scanDown (S j - i) (fun j => negb (Less data j a)) i j in
      if j <? i then (data, j)
      else partition_loop fuel' (Swap data i j) a (i + 1) (j - 1)
  end.

Definition partition_func (data : list A) (a b pivot : nat) : list A * nat * bool :=
  let data := Swap data a pivot in
  let i := a + 1 in
  let j := b - 1 in
  let i := scanUp (S j - i) (fun i => Less data i a) i j in
  let j := scanDown (S j - i) (fun j => negb (Less data j a)) i j in
  if j <? i then (Swap data j a, j, true)
  else
    let data := Swap data i j in
    let '(data, j) := partition_loop (b - a) data a (i + 1) (j - 1) in
    (Swap data j a, j, false).

Fixpoint partitionEqual_loop (fuel : nat) (data : list A) (a i j : nat) : list A * nat :=
  match fuel with
  | 0 => (data, i)
  | S fuel' =>
      let i := scanUp (S j - i) (fun i => negb (Less data a i)) i j in
      let j := scanDown (S j - i) (fun j => Less data a j) i j in
      if j <? i then (data, i)
      else partitionEqual_loop fuel' (Swap data i j) a (i + 1) (j - 1)
  end.

Definition partitionEqual_func (data : list A) (a b pivot : nat) : list A * nat :=
  let data := Swap data a pivot in
  partitionEqual_loop (b - a) data a (a + 1) (b - 1).

(** ** partialInsertionSort_func *)

Definition maxSteps : nat := 5.
Definition shortestShifting : nat := 50.

(** [for j := i - 1; j >= 1; j-- { if !Less(j, j-1) { break }; Swap(j, j-1) }] *)
Fixpoint shiftLeft (data : list A) (j : nat) : list A :=
  match j with
  | 0 => data
  | S j' => if Less data j j' then shiftLeft (Swap data j j') j' else data
  end.

(** [for j := i + 1; j < b; j++ { if !Less(j, j-1) { break }; Swap(j, j-1) }] *)
Fixpoint shiftRight (fuel : nat) (data : list A) (j b : nat) : list A :=
  match fuel with
  | 0 => data
  | S fuel' =>
      if (j <? b) && Less data j (j - 1)
      then shiftRight fuel' (Swap data j (j - 1)) (S j) b
      else data
  end.

(** [for i < b && !Less(i, i-1) { i++ }] *)
Fixpoint skipOrdered (fuel : nat) (data : list A) (i b : nat) : nat :=
  match fuel with
  | 0 => i
  | S fuel' =>
      if (i <? b) && negb (Less data i (i - 1))
      then skipOrdered fuel' data (S i) b else i
  end.

Fixpoint partialInsertionSort_loop (steps : nat) (data : list A) (a b i : nat)
  : list A * bool :=
  match steps with
  | 0 => (data, false)
  | S steps' =>
      let i := skipOrdered (b - i) data i b in
      if i =? b then (data, true)
      else if b - a <? shortestShifting then (data, false)
      else
        let data := Swap data i (i - 1) in
        let data := if 2 <=? i - a then shiftLeft data (i - 1) else data in
        let data := if 2 <=? b - i then shiftRight (b - i) data (i + 1) b else data in
        partialInsertionSort_loop steps' data a b i
  end.

Definition partialInsertionSort_func (data : list A) (a b : nat) : list A * bool :=
  partialInsertionSort_loop maxSteps data a b (a + 1).

(** ** breakPatterns_func *)

Definition breakPatterns_func (data : list A) (a b : nat) : list A :=
  let length := b - a in
  if 8 <=? length then
    let modulus := nextPowerOfTwo length in
    let idx := a + (length / 4) * 2 - 1 in
    let step (st : list A * N) (i : nat) : list A * N :=
      let '(d, random) := st in
      let random := xorshift_Next random in
      let other := N.to_nat (N.land random (modulus - 1)) in
      let other := if length <=? other then other - length else other in
      (Swap d (idx - 1 + i) (a + other), random) in
    fst (fold_left step (seq 0 3) (data, N.of_nat length))
  else data.

(** ** choosePivot_func *)

Definition shortestNinther : nat := 50.
Definition maxSwaps : nat := 4 * 3.

Definition order2_func (data : list A) (a b swaps : nat) : nat * nat * nat :=
  if Less data b a then (b, a, S swaps) else (a, b, swaps).

Definition median_func (data : list A) (a b c swaps : nat) : nat * nat :=
  let '(a, b, swaps) := order2_func data a b swaps in
  let '(b, c, swaps) := order2_func data b c swaps in
  let '(a, b, swaps) := order2_func data a b swaps in
  (b, swaps).

Definition medianAdjacent_func (data : list A) (a swaps : nat) : nat * nat :=
  median_func data (a - 1) a (a + 1) swaps.

Definition choosePivot_func (data : list A) (a b : nat) : nat * sortedHint :=
  let l := b - a in
  let swaps := 0 in
  let i := a + l / 4 * 1 in
  let j := a + l / 4 * 2 in
  let k := a + l / 4 * 3 in
  let '(j, swaps) :=
    if 8 <=? l then
      let '(i, j, k, swaps) :=
        if shortestNinther <=? l then
          let '(i, swaps) := medianAdjacent_func data i swaps in
          let '(j, swaps) := medianAdjacent_func data j swaps in
          let '(k, swaps) := medianAdjacent_func data k swaps in
          (i, j, k, swaps)
        else (i, j, k, swaps) in
      median_func data i j k swaps
    else (j, swaps) in
  if swaps =? 0 then (j, increasingHint)
  else if swaps =? maxSwaps then (j, decreasingHint)
  else (j, unknownHint).

(** ** reverseRange_func *)

Fixpoint reverseRange_loop (fuel : nat) (data : list A) (i j : nat) : list A :=
  match fuel with
  | 0 => data
  | S fuel' =>
      if i <? j then reverseRange_loop fuel' (Swap data i j) (S i) (j - 1)
      else data
  end.

Definition reverseRange_func (data : list A) (a b : nat) : list A :=
  reverseRange_loop (b - a) data a (b - 1).

(** ** pdqsort_func *)

Definition maxInsertion : nat := 12.

(** One call of [pdqsort_func] is its [for] loop; [fuel] bounds the
    number of iterations plus the depth of the recursive calls, and
    [b - a + 1] is always enough (lemma [pdqsort_loop_sorts]). *)
Fixpoint pdqsort_loop (fuel : nat) (data : list A) (a b limit : nat)
         (wasBalanced wasPartitioned : bool) : list A :=
  match fuel with
  | 0 => data
  | S fuel' =>
      let length := b - a in
      if length <=? maxInsertion then insertionSort_func data a b
      else if limit =? 0 then heapSort_func data a b
      else
        let '(data, limit) :=
          if negb wasBalanced then (breakPatterns_func data a b, limit - 1)
          else (data, limit) in
        let '(pivot, hint) := choosePivot_func data a b in
        let '(data, pivot, hint) :=
          if sortedHint_eqb hint decreasingHint
          then (reverseRange_func data a b, (b - 1) - (pivot - a), increasingHint)
          else (data, pivot, hint) in
        let '(data, done) :=
          if wasBalanced && wasPartitioned && sortedHint_eqb hint increasingHint
          then partialInsertionSort_func data a b
          else (data, false) in
        if done then data
        else if (0 <? a) && negb (Less data (a - 1) pivot) then
          let '(data, mid) := partitionEqual_func data a b pivot in
          pdqsort_loop fuel' data mid b limit wasBalanced wasPartitioned
        else
          let '(data, mid, alreadyPartitioned) := partition_func data a b pivot in
          let leftLen := mid - a in
          let rightLen := b - mid in
          let balanceThreshold := length / 8 in
          if leftLen <? rightLen then
            let wasBalanced := balanceThreshold <=? leftLen in
            let data := pdqsort_loop fuel' data a mid limit true true in
            pdqsort_loop fuel' data (mid + 1) b limit wasBalanced alreadyPartitioned
          else
            let wasBalanced := balanceThreshold <=? rightLen in
            let data := pdqsort_loop fuel' data (mid + 1) b limit true true in
            pdqsort_loop fuel' data a mid limit wasBalanced alreadyPartitioned
  end.

Definition pdqsort_func (data : list A) (a b limit : nat) : list A :=
  pdqsort_loop (S (b - a)) data a b limit true true.

(** [sort.Slice(x, less)] *)
Definition Slice (x : list A) : list A :=
  let length := length x in
  let limit := bits_Len length in
  pdqsort_func x 0 length limit.

End Pdqsort.

End sort.


(* ===================================================================== *)
(** * Paths: [path/filepath] and [strings] *)
(* ===================================================================== *)

Definition isSlash (c : ascii) : bool := Ascii.eqb c "/".

Fixpoint hasSlash (s : string) : bool :=
  match s with
  | EmptyString => false
  | String c r => isSlash c || hasSlash r
  end.

Definition rooted (path : string) : bool :=
  match path with
  | String c _ => isSlash c
  | EmptyString => false
  end.

(** The elements of a path between its separators. *)
Fixpoint splitSlash (s : string) : list string :=
  match s with
  | EmptyString => [EmptyString]
  | String c r =>
      if isSlash c then EmptyString :: splitSlash r
      else match splitSlash r with
           | [] => [String c EmptyString]
           | x :: xs => String c x :: xs
           end
  end.

(** The lexical processing of [filepath.Clean] on the elements of a
    path: empty and [.] elements are dropped, [..] removes the element
    before it, and a [..] that has nothing to remove is dropped for a
    rooted path and kept otherwise.  [out] is the output so far, last
    element first. *)
Fixpoint cleanElems (isRooted : bool) (out elems : list string) : list string :=
  match elems with
  | [] => out
  | e :: es =>
      if String.eqb e "" || String.eqb e "." then cleanElems isRooted out es
      else if String.eqb e ".." then
        match out with
        | top :: out' =>
            if String.eqb top ".." then cleanElems isRooted (e :: out) es
            else cleanElems isRooted out' es
        | [] =>
            if isRooted then cleanElems isRooted [] es
            else cleanElems isRooted [e] es
        end
      else cleanElems isRooted (e :: out) es
  end.

(** [filepath.Clean] *)
Definition Clean (path : string) : string :=
  let out := rev (cleanElems (rooted path) [] (splitSlash path)) in
  if rooted path then ("/" ++ String.concat "/" out)%string
  else match out with
       | [] => "."
       | _ => String.concat "/" out
       end.

(** [filepath.Join(dir, elem)]: empty elements are ignored and the result
    is cleaned; the join of empty elements is the empty string. *)
Definition Join (dir elem : string) : string :=
  if String.eqb dir "" then
    if String.eqb elem "" then "" else Clean elem
  else Clean (dir ++ "/" ++ elem)%string.

(** The part of a path up to and including its last separator. *)
Fixpoint dirPart (path : string) : string :=
  match path with
  | EmptyString => EmptyString
  | String c r => if hasSlash path then String c (dirPart r) else EmptyString
  end.

(** [filepath.Dir] *)
Definition Dir (path : string) : string := Clean (dirPart path).

(** [filepath.Base]: the last element, trailing separators removed. *)
Definition Base (path : string) : string :=
  match path with
  | EmptyString => "."
  | _ =>
      match List.filter (fun e => negb (String.eqb e "")) (splitSlash path) with
      | [] => "/"
      | e :: es => List.last es e
      end
  end.

(** [filepath.Ext]: the suffix that starts at the last dot of the last
    element of the path, empty when that element has no dot. *)
Fixpoint Ext (path : string) : string :=
  match path with
  | EmptyString => EmptyString
  | String c r =>
      match Ext r with
      | EmptyString =>
          if Ascii.eqb c "." && negb (hasSlash r) then path else EmptyString
      | e => e
      end
  end.

(** [filepath.Rel(basepath, targpath)], for its first result: both paths
    are cleaned, their common leading elements are dropped, and every
    element left of the base becomes a [..]; the empty string stands for
    the error case, whose error [scanMedia] discards. *)
Fixpoint dropCommon (base targ : list string) : list string * list string :=
  match base, targ with
  | b :: bs, t :: ts => if String.eqb b t then dropCommon bs ts else (base, targ)
  | _, _ => (base, targ)
  end.

Definition Rel (basepath targpath : string) : string :=
  let base := Clean basepath in
  let targ := Clean targpath in
  if String.eqb targ base then "."
  else
    let base := if String.eqb base "." then "" else base in
    if negb (Bool.eqb (rooted base) (rooted targ)) then ""
    else
      let elems (s : string) :=
        List.filter (fun e => negb (String.eqb e "")) (splitSlash s) in
      let '(b, t) := dropCommon (elems base) (elems targ) in
      match b with
      | [] => String.concat "/" t
      | b0 :: _ =>
          if String.eqb b0 ".." then ""
          else String.concat "/" (map (fun _ => "..") b ++ t)
      end.

(** [filepath.ToSlash] is the identity where the separator is a slash. *)
Definition ToSlash (path : string) : string := path.

(** [strings.ToLower].  ASCII letters are lowered.  Of the other runes,
    the two whose lower case is an ASCII letter are lowered, U+0130 (bytes
    C4 B0) to [i] and U+212A (bytes E2 84 AA) to [k]; the rest keep their
    bytes, which, like their lower case in Go, are not ASCII. *)
Definition lowerAscii (c : ascii) : ascii :=
  let n := nat_of_ascii c in
  if (65 <=? n) && (n <=? 90) then ascii_of_nat (n + 32) else c.

Fixpoint ToLower (s : string) : string :=
  match s with
  | EmptyString => EmptyString
  | String c r =>
      let n := nat_of_ascii c in
      match r with
      | String c1 r1 =>
          if (n =? 196) && (nat_of_ascii c1 =? 176) then String "i" (ToLower r1)
          else
            match r1 with
            | String c2 r2 =>
                if (n =? 226) && (nat_of_ascii c1 =? 132) && (nat_of_ascii c2 =? 170)
                then String "k" (ToLower r2)
                else String (lowerAscii c) (ToLower r)
            | EmptyString => String (lowerAscii c) (ToLower r)
            end
      | EmptyString => String (lowerAscii c) EmptyString
      end
  end.


(* ===================================================================== *)
(** * The local file system and the [os] calls *)
(* ===================================================================== *)

(** Go's [error] values that occur; [nil] is [None] of [option error]. *)
Inductive error : Type :=
| PathError (op path : string)
| RequestError (op : string)
| ReadError
| SkipDir
| SkipAll.

Inductive result (T : Type) : Type :=
| Ok (x : T)
| Err (e : error).
Arguments Ok {T} x.
Arguments Err {T} e.

(** A file-system tree.  [DirNode readable ents] is a directory whose
    entries [ents] are in the order in which [readDirNames] returns them
    (sorted by name) and whose listing fails when [readable] is [false];
    [BadNode] is an entry on which [lstat] fails.  The tree has no
    symbolic link, FIFO, socket or device: an entry that [lstat] accepts
    and that is no directory is a regular file. *)
#[warnings="-register-all"]
Inductive node : Type :=
| FileNode (body : list Byte.byte)
| DirNode (readable : bool) (ents : list (string * node))
| BadNode.

(** [fs.FileInfo], as far as the program looks at it. *)
Module fs.

Record FileInfo := { Name : string; IsDir : bool }.

End fs.

Fixpoint getEntry (name : string) (ents : list (string * node)) : option node :=
  match ents with
  | [] => None
  | (k, v) :: r => if String.eqb name k then Some v else getEntry name r
  end.

Fixpoint putEntry (name : string) (n : node) (ents : list (string * node))
  : list (string * node) :=
  match ents with
  | [] => [(name, n)]
  | (k, v) :: r =>
      if String.eqb name k then (name, n) :: r
      else if String.ltb name k then (name, n) :: ents
      else (k, v) :: putEntry name n r
  end.

Fixpoint delEntry (name : string) (ents : list (string * node))
  : list (string * node) :=
  match ents with
  | [] => []
  | (k, v) :: r =>
      if String.eqb name k then delEntry name r else (k, v) :: delEntry name r
  end.

Fixpoint lookup (p : list string) (n : node) : option node :=
  match p with
  | [] => Some n
  | c :: p' =>
      match n with
      | DirNode _ ents =>
          match getEntry c ents with
          | Some child => lookup p' child
          | None => None
          end
      | _ => None
      end
  end.

(** Change the entry at [p]: [f] gets the entry there, if any, and
    answers [None] for a failed call, [Some None] to unlink the entry and
    [Some (Some x)] to put [x] there.  Every directory above [p] must
    exist. *)
Fixpoint updateAt (f : option node -> option (option node))
         (p : list string) (n : node) : option node :=
  match p, n with
  | [], _ => None
  | [c], DirNode r ents =>
      match f (getEntry c ents) with
      | Some (Some x) => Some (DirNode r (putEntry c x ents))
      | Some None => Some (DirNode r (delEntry c ents))
      | None => None
      end
  | c :: p', DirNode r ents =>
      match getEntry c ents with
      | Some child =>
          match updateAt f p' child with
          | Some child' => Some (DirNode r (putEntry c child' ents))
          | None => None
          end
      | None => None
      end
  | _, _ => None
  end.

(** Make every missing directory along [p]; fails, with nothing made,
    when something on the way is not a directory. *)
Fixpoint mkdirAll (p : list string) (n : node) : option node :=
  match n with
  | DirNode r ents =>
      match p with
      | [] => Some n
      | c :: p' =>
          let child :=
            match getEntry c ents with
            | Some x => x
            | None => DirNode true []
            end in
          match mkdirAll p' child with
          | Some child' => Some (DirNode r (putEntry c child' ents))
          | None => None
          end
      end
  | _ => None
  end.

(** The file system of the process: its working directory (the names
    from the root down) and the tree below the root. *)
Record FS := { cwd : list string; tree : node }.

Module os.

(** The place a path names: relative paths start from the working
    directory, [..] at the root stays at the root; the empty path names
    nothing.  (Every path the program passes down is either the
    configured media directory or came out of [filepath.Join].) *)
Definition resolve (fs : FS) (name : string) : option (list string) :=
  if String.eqb name "" then None
  else Some (rev (cleanElems true (if rooted name then [] else rev (cwd fs))
                             (splitSlash name))).

Definition infoOf (name : string) (n : node) : option fs.FileInfo :=
  match n with
  | FileNode _ => Some {| fs.Name := Base name; fs.IsDir := false |}
  | DirNode _ _ => Some {| fs.Name := Base name; fs.IsDir := true |}
  | BadNode => None
  end.

(** [os.Stat] (and [os.Lstat]: there are no symbolic links here). *)
Definition Stat (fs : FS) (name : string) : result fs.FileInfo :=
  match resolve fs name with
  | Some p =>
      match lookup p (tree fs) with
      | Some n =>
          match infoOf name n with
          | Some info => Ok info
          | None => Err (PathError "stat" name)
          end
      | None => Err (PathError "stat" name)
      end
  | None => Err (PathError "stat" name)
  end.

(** [os.MkdirAll(path, 0755)] *)
Definition MkdirAll (fs : FS) (path : string) : FS * option error :=
  match resolve fs path with
  | Some p =>
      match mkdirAll p (tree fs) with
      | Some t => ({| cwd := cwd fs; tree := t |}, None)
      | None => (fs, Some (PathError "mkdir" path))
      end
  | None => (fs, Some (PathError "mkdir" path))
  end.

(** Writing [body] as the whole content of the file at [name]: a new
    entry or an existing regular file, never a directory. *)
Definition writeFile (body : list Byte.byte) : option node -> option (option node) :=
  fun o =>
    match o with
    | None | Some (FileNode _) => Some (Some (FileNode body))
    | Some _ => None
    end.

(** [os.Create(name)]: the file is created, or truncated when it is
    there. *)
Definition Create (fs : FS) (name : string) : FS * option error :=
  match resolve fs name with
  | Some p =>
      match updateAt (writeFile []) p (tree fs) with
      | Some t => ({| cwd := cwd fs; tree := t |}, None)
      | None => (fs, Some (PathError "open" name))
      end
  | None => (fs, Some (PathError "open" name))
  end.

(** The writes of [io.Copy] to the file opened at [name]. *)
Definition write (fs : FS) (name : string) (body : list Byte.byte) : FS :=
  match resolve fs name with
  | Some p =>
      match updateAt (writeFile body) p (tree fs) with
      | Some t => {| cwd := cwd fs; tree := t |}
      | None => fs
      end
  | None => fs
  end.

(** [os.Remove(name)]: a file or an empty directory.  Permissions are
    not modelled: on a file or an empty directory the call does not
    fail. *)
Definition unlink : option node -> option (option node) :=
  fun o =>
    match o with
    | Some (FileNode _) | Some (DirNode _ []) => Some None
    | _ => None
    end.

Definition Remove (fs : FS) (name : string) : FS * option error :=
  match resolve fs name with
  | Some p =>
      match updateAt unlink p (tree fs) with
      | Some t => ({| cwd := cwd fs; tree := t |}, None)
      | None => (fs, Some (PathError "remove" name))
      end
  | None => (fs, Some (PathError "remove" name))
  end.

End os.

(* ===================================================================== *)
(** * [filepath.Walk] *)
(* ===================================================================== *)

Section Walk.

(** The walk function is a closure; [S] is what it captures and
    changes. *)
Context {S : Type}.
Variable fn : string -> option fs.FileInfo -> option error -> S -> S * option error.

Definition isSkipDir (e : error) : bool :=
  match e with SkipDir => true | _ => false end.

Definition isDirNode (n : node) : bool :=
  match n with DirNode _ _ => true | _ => false end.

(** The loop of [walk] over the entries of the directory [path];
    [walkChild] is [walk] itself. *)
Definition walkEach (walkChild : string -> string -> node -> S -> S * option error)
           (path : string) : list (string * node) -> S -> S * option error :=
  fix each (es : list (string * node)) (s : S) {struct es} : S * option error :=
    match es with
    | [] => (s, None)
    | (nm, child) :: es' =>
        let filename := Join path nm in
        match child with
        | BadNode =>
            (* lstat failed *)
            let '(s, e) := fn filename None (Some (PathError "lstat" filename)) s in
            match e with
            | Some e' => if isSkipDir e' then each es' s else (s, Some e')
            | None => each es' s
            end
        | _ =>
            let '(s, e) := walkChild filename nm child s in
            match e with
            | Some e' =>
                if negb (isDirNode child) || negb (isSkipDir e')
                then (s, Some e')
                else each es' s
            | None => each es' s
            end
        end
    end.

(** [walk(path, info, walkFn)] on the node [n] that [path] names; [name]
    is the name [info] reports. *)
Fixpoint walk (path name : string) (n : node) (s : S) {struct n} : S * option error :=
  match n with
  | DirNode readable ents =>
      let info := Some {| fs.Name := name; fs.IsDir := true |} in
      (* names, err := readDirNames(path); err1 := walkFn(path, info, err) *)
      let err := if readable then None else Some (PathError "open" path) in
      let '(s, err1) := fn path info err s in
      match err, err1 with
      | None, None => walkEach walk path ents s
      | _, _ => (s, err1)
      end
  | _ => fn path (Some {| fs.Name := name; fs.IsDir := false |}) None s
  end.

(** [filepath.Walk(root, fn)] *)
Definition Walk (fs : FS) (root : string) (s : S) : S * option error :=
  let '(s, err) :=
    match os.resolve fs root with
    | Some p =>
        match lookup p (tree fs) with
        | Some BadNode | None => fn root None (Some (PathError "lstat" root)) s
        | Some n => walk root (Base root) n s
        end
    | None => fn root None (Some (PathError "lstat" root)) s
    end in
  match err with
  | Some SkipDir | Some SkipAll => (s, None)
  | _ => (s, err)
  end.

End Walk.

(* ===================================================================== *)
(** * The remote store: the two S3 requests *)
(* ===================================================================== *)

Module s3.

(** The client handle made by [s3.NewFromConfig]. *)
Record Client := { Region : string }.

(** [types.Object]; [Key] is a [*string]. *)
Record Object := { Key : option string }.

Record ListObjectsV2Input :=
  { Bucket : string; ContinuationToken : option string }.

Record ListObjectsV2Output :=
  { Contents : list Object;
    IsTruncated : bool;
    NextContinuationToken : option string }.

Record GetObjectInput := { GetBucket : string; GetKey : string }.

(** The body of a [GetObjectOutput] is a reader: the bytes it delivers
    and then either the end of the stream or a read error. *)
Record GetObjectOutput :=
  { delivered : list Byte.byte; readError : option error }.

(** What the remote end answers to the two requests. *)
Record Service :=
  { ListObjectsV2 : ListObjectsV2Input -> result ListObjectsV2Output;
    GetObject : GetObjectInput -> result GetObjectOutput }.

(** A bucket [name] that holds [objs], in key order.  A listing request
    answers with at most [maxKeys] keys, those after the continuation
    token, and tells whether more are left. *)
Definition maxKeys : nat := 1000.

Fixpoint after (token : string) (objs : list (string * list Byte.byte))
  : list (string * list Byte.byte) :=
  match objs with
  | [] => []
  | (k, v) :: r => if String.leb k token then after token r else objs
  end.

Fixpoint getBody (key : string) (objs : list (string * list Byte.byte))
  : option (list Byte.byte) :=
  match objs with
  | [] => None
  | (k, v) :: r => if String.eqb key k then Some v else getBody key r
  end.

Definition bucket (name : string) (objs : list (string * list Byte.byte)) : Service :=
  {| ListObjectsV2 := fun input =>
       if String.eqb (Bucket input) name then
         let rest :=
           match ContinuationToken input with
           | Some token => after token objs
           | None => objs
           end in
         let page := take maxKeys rest in
         Ok {| Contents := map (fun kv => {| Key := Some (fst kv) |}) page;
               IsTruncated := maxKeys <? length rest;
               NextContinuationToken :=
                 if maxKeys <? length rest
                 then option_map fst (List.last (map Some page) None)
                 else None |}
       else Err (RequestError "ListObjectsV2");
     GetObject := fun input =>
       if String.eqb (GetBucket input) name then
         match getBody (GetKey input) objs with
         | Some body => Ok {| delivered := body; readError := None |}
         | None => Err (RequestError "GetObject")
         end
       else Err (RequestError "GetObject") |}.

End s3.

(* ===================================================================== *)
(** * The server: [scanMedia], [syncFromS3], [downloadFromS3] *)
(* ===================================================================== *)

Record AppConfig :=
  { MediaDir : string;
    S3Bucket : string;
    S3Region : string;
    SyncInterval : nat;
    Port : string }.

Record MediaFile := { Name : string; Path : string; URL : string }.

Record Server :=
  { config : AppConfig;
    s3Client : option s3.Client;
    mediaList : list MediaFile }.

(** What the program does to its surroundings, in the order it does it. *)
Inductive event : Type :=
| ListEv (err : option error)
| StatEv (key path : string) (found : bool)
| DownloadEv (key path : string) (err : option error)
| RemoveEv (path : string) (err : option error)
| ScanEv (found : nat).

(** The surroundings: the local disk, the remote store, and the events
    so far. *)
Record World :=
  { disk : FS;
    remote : s3.Service;
    trace : list event }.

Definition setDisk (w : World) (d : FS) : World :=
  {| disk := d; remote := remote w; trace := trace w |}.

Definition emit (w : World) (e : event) : World :=
  {| disk := disk w; remote := remote w; trace := trace w ++ [e] |}.

Definition setMediaList (s : Server) (l : list MediaFile) : Server :=
  {| config := config s; s3Client := s3Client s; mediaList := l |}.

Definition supportedExts (ext : string) : bool :=
  existsb (String.eqb ext)
          [".mp4"; ".avi"; ".mov"; ".mkv"; ".webm"; ".m4v"; ".3gp"].

(** The function literal that [scanMedia] hands to [filepath.Walk]; it
    captures [mediaFiles]. *)
Definition scanMedia_fn (cfg : AppConfig)
           (path : string) (info : option fs.FileInfo) (err : option error)
           (mediaFiles : list MediaFile) : list MediaFile * option error :=
  match err with
  | Some e => (mediaFiles, Some e)
  | None =>
      match info with
      | Some info =>
          if negb (fs.IsDir info) then
            let ext := ToLower (Ext path) in
            if supportedExts ext then
              let relPath := Rel (MediaDir cfg) path in
              let mediaFile :=
                {| Name := fs.Name info;
                   Path := path;
                   URL := ("/media/" ++ ToSlash relPath)%string |} in
              (mediaFiles ++ [mediaFile], None)
            else (mediaFiles, None)
          else (mediaFiles, None)
      | None => (mediaFiles, None)
      end
  end.

(** [mediaFiles[i].Name < mediaFiles[j].Name] *)
Definition byName (x y : MediaFile) : bool := String.ltb (Name x) (Name y).

(** The list [scanMedia] builds from the disk: the walk, whose error is
    only logged, then the sort. *)
Definition scanned (cfg : AppConfig) (d : FS) : list MediaFile :=
  let '(mediaFiles, err) := Walk (scanMedia_fn cfg) d (MediaDir cfg) [] in
  sort.Slice byName mediaFiles.

Definition scanMedia (s : Server) (w : World) : Server * World :=
  let mediaFiles := scanned (config s) (disk w) in
  (setMediaList s mediaFiles, emit w (ScanEv (length mediaFiles))).

Module slices.

(** [slices.Index]: [None] stands for -1. *)
Fixpoint Index (s : list string) (v : string) : option nat :=
  match s with
  | [] => None
  | x :: r => if String.eqb v x then Some 0 else option_map S (Index r v)
  end.

(** [slices.Delete(s, i, j)] *)
Definition Delete (s : list string) (i j : nat) : list string :=
  take i s ++ drop j s.

End slices.

Definition downloadFromS3 (s : Server) (w : World) (key localPath : string)
  : World * option error :=
  (* Create directory if needed *)
  match os.MkdirAll (disk w) (Dir localPath) with
  | (_, Some err) => (w, Some err)
  | (d, None) =>
      let w := setDisk w d in
      (* Download from S3 *)
      match s3.GetObject (remote w)
              {| s3.GetBucket := S3Bucket (config s); s3.GetKey := key |} with
      | Err err => (w, Some err)
      | Ok resp =>
          (* Create local file *)
          match os.Create (disk w) localPath with
          | (_, Some err) => (w, Some err)
          | (d, None) =>
              (* Copy data *)
              let d := os.write d localPath (s3.delivered resp) in
              (setDisk w d, s3.readError resp)
          end
      end
  end.

(** The locals of [syncFromS3] that its first loop changes, with the
    world. *)
Record SyncState :=
  { world : World;
    localFilesToRemove : list string;
    syncCount : nat }.

(** One turn of [for _, obj := range resp.Contents]. *)
Definition syncObject (s : Server) (st : SyncState) (obj : s3.Object) : SyncState :=
  match s3.Key obj with
  | None => st
  | Some fileName =>
      let localPath := Join (MediaDir (config s)) fileName in
      (* Check if file exists *)
      match os.Stat (disk (world st)) localPath with
      | Ok _ =>
          let w := emit (world st) (StatEv fileName localPath true) in
          (* Delete from known localfiles *)
          match slices.Index (localFilesToRemove st) localPath with
          | Some index =>
              {| world := w;
                 localFilesToRemove :=
                   slices.Delete (localFilesToRemove st) index (index + 1);
                 syncCount := syncCount st |}
          | None =>
              {| world := w;
                 localFilesToRemove := localFilesToRemove st;
                 syncCount := syncCount st |}
          end
      | Err _ =>
          let w := emit (world st) (StatEv fileName localPath false) in
          (* Download file *)
          match downloadFromS3 s w fileName localPath with
          | (w, Some err) =>
              {| world := emit w (DownloadEv fileName localPath (Some err));
                 localFilesToRemove := localFilesToRemove st;
                 syncCount := syncCount st |}
          | (w, None) =>
              {| world := emit w (DownloadEv fileName localPath None);
                 localFilesToRemove := localFilesToRemove st;
                 syncCount := syncCount st + 1 |}
          end
      end
  end.

(** One turn of [for _, localF := range localFilesToRemove]; the error
    of [os.Remove] is dropped. *)
Definition removeLocal (w : World) (localF : string) : World :=
  let '(d, err) := os.Remove (disk w) localF in
  emit (setDisk w d) (RemoveEv localF err).

Definition syncFromS3 (s : Server) (w : World) : Server * World :=
  match s3Client s with
  | None => (s, w)
  | Some _ =>
      (* List objects in S3 bucket *)
      match s3.ListObjectsV2 (remote w)
              {| s3.Bucket := S3Bucket (config s);
                 s3.ContinuationToken := None |} with
      | Err err => (s, emit w (ListEv (Some err)))
      | Ok resp =>
          let w := emit w (ListEv None) in
          let st :=
            fold_left (syncObject s) (s3.Contents resp)
                      {| world := w;
                         localFilesToRemove := map Path (mediaList s);
                         syncCount := 0 |} in
          let w :=
            if 0 <? length (localFilesToRemove st)
            then fold_left removeLocal (localFilesToRemove st) (world st)
            else world st in
          if 0 <? syncCount st then
            scanMedia s w (* Refresh media list *)
          else (s, w)
      end
  end.

(** ** Reading a cycle off the trace *)

(** The events one call of [syncFromS3] adds. *)
Definition cycleEvents (s : Server) (w : World) : list event :=
  drop (length (trace w)) (trace (snd (syncFromS3 s w))).

Definition isDownload (e : event) : bool :=
  match e with DownloadEv _ _ _ => true | _ => false end.

(** A download that returned [nil], the ones [syncCount] counts. *)
Definition isFetched (e : event) : bool :=
  match e with DownloadEv _ _ None => true | _ => false end.

Definition isStat (e : event) : bool :=
  match e with StatEv _ _ _ => true | _ => false end.

Definition isRemove (e : event) : bool :=
  match e with RemoveEv _ _ => true | _ => false end.

(** A removal that took a file away. *)
Definition isRemoved (e : event) : bool :=
  match e with RemoveEv _ None => true | _ => false end.

Definition isScan (e : event) : bool :=
  match e with ScanEv _ => true | _ => false end.

(** The keys the first loop went through, in order. *)
Definition keysOf (evs : list event) : list string :=
  omap (fun e => match e with StatEv key _ _ => Some key | _ => None end) evs.

(** The events of the first loop, and the number of downloads in them
    that returned [nil]. *)
Definition isFirstLoop (e : event) : bool := isStat e || isDownload e.

Definition fetchedCount (evs : list event) : nat :=
  length (List.filter isFetched evs).

(** [holds d q body]: the disk has a regular file with content [body] at
    the place [q]. *)
Definition holds (d : FS) (q : list string) (body : list Byte.byte) : Prop :=
  lookup q (tree d) = Some (FileNode body).

(** What the listing request of [syncFromS3] is answered. *)
Definition listing (s : Server) (w : World) : result s3.ListObjectsV2Output :=
  s3.ListObjectsV2 (remote w)
    {| s3.Bucket := S3Bucket (config s); s3.ContinuationToken := None |}.

(** ** A small installation, for the examples *)

Definition exConfig : AppConfig :=
  {| MediaDir := "./media"; S3Bucket := "signage"; S3Region := "sa-east-1";
     SyncInterval := 15; Port := "8080" |}.

Definition exServer (l : list MediaFile) : Server :=
  {| config := exConfig;
     s3Client := Some {| s3.Region := "sa-east-1" |};
     mediaList := l |}.

(** A disk whose media directory, [/srv/media], has the entries [ents];
    the process runs in [/srv]. *)
Definition exDisk (ents : list (string * node)) : FS :=
  {| cwd := ["srv"];
     tree := DirNode true [("srv", DirNode true [("media", DirNode true ents)])] |}.

Definition exFile (content : string) : node :=
  FileNode (list_byte_of_string content).

Definition exWorld (ents : list (string * node)) (rem : s3.Service) : World :=
  {| disk := exDisk ents; remote := rem; trace := [] |}.

(** A store that answers every request with an error. *)
Definition s3Down : s3.Service :=
  {| s3.ListObjectsV2 := fun _ => Err (RequestError "ListObjectsV2");
     s3.GetObject := fun _ => Err (RequestError "GetObject") |}.

Definition exMedia (name : string) : MediaFile :=
  {| Name := name;
     Path := ("media/" ++ name)%string;
     URL := ("/media/" ++ name)%string |}.

(** A store that holds [new.mp4] only, and an empty one. *)
Definition exStore : s3.Service :=
  s3.bucket "signage" [("new.mp4", list_byte_of_string "N")].

Definition exEmptyStore : s3.Service := s3.bucket "signage" [].

(** The inventory lists [old.mp4]; the disk has it too, next to two
    files no inventory has listed. *)
Definition exOldServer : Server := exServer [exMedia "old.mp4"].

Definition exOldEntries : list (string * node) :=
  [("local.mov", exFile "L"); ("notes.txt", exFile "n"); ("old.mp4", exFile "O")].

(** A store whose object [a.mp4] is four bytes long and whose transfer
    breaks after two of them. *)
Definition s3Flaky : s3.Service :=
  {| s3.ListObjectsV2 := fun _ =>
       Ok {| s3.Contents := [{| s3.Key := Some "a.mp4" |}];
             s3.IsTruncated := false;
             s3.NextContinuationToken := None |};
     s3.GetObject := fun _ =>
       Ok {| s3.delivered := list_byte_of_string "AB";
             s3.readError := Some ReadError |} |}.

(** A bucket of 1001 objects, [v0000.mp4] to [v1000.mp4], one more than
    a listing request returns. *)
Definition exDigit (n : nat) : string :=
  String (ascii_of_nat (48 + n mod 10)) EmptyString.

Definition exKey (i : nat) : string :=
  ("v" ++ exDigit (i / 1000) ++ exDigit (i / 100) ++ exDigit (i / 10)
       ++ exDigit i ++ ".mp4")%string.

Definition exManyObjects : list (string * list Byte.byte) :=
  map (fun i => (exKey i, [])) (seq 0 1001).

Definition exLargeStore : s3.Service := s3.bucket "signage" exManyObjects.

(** ** The calls of the walk function *)

(** One call of the walk function: the path, the file information and
    the error it is given. *)
Record visit :=
  { visitPath : string; visitInfo : option fs.FileInfo; visitErr : option error }.

(** A walk function that notes each call and returns [nil]: nothing stops
    the walk. *)
Definition noteVisit (path : string) (info : option fs.FileInfo) (err : option error)
           (vs : list visit) : list visit * option error :=
  (vs ++ [{| visitPath := path; visitInfo := info; visitErr := err |}], None).

(** All the calls [filepath.Walk] makes on [root] when nothing stops it,
    in the order of the walk. *)
Definition walkVisits (d : FS) (root : string) : list visit :=
  fst (Walk noteVisit d root []).

(** The calls before the first one that reports an error, the first
    error, and the calls that report none. *)
Fixpoint beforeError (vs : list visit) : list visit :=
  match vs with
  | [] => []
  | v :: r =>
      match visitErr v with
      | None => v :: beforeError r
      | Some _ => []
      end
  end.

Fixpoint firstError (vs : list visit) : option error :=
  match vs with
  | [] => None
  | v :: r =>
      match visitErr v with
      | None => firstError r
      | Some e => Some e
      end
  end.

Definition withoutErrors (vs : list visit) : list visit :=
  List.filter (fun v => match visitErr v with None => true | Some _ => false end) vs.

(** What the function of [scanMedia] appends to [mediaFiles] on calls
    that report no error. *)
Definition accepted (cfg : AppConfig) (vs : list visit) : list MediaFile :=
  flat_map (fun v => fst (scanMedia_fn cfg (visitPath v) (visitInfo v) None [])) vs.

(** The scan that skips the entries with an error and goes on with
    the rest of the walk. *)
Definition scannedSkippingErrors (cfg : AppConfig) (d : FS) : list MediaFile :=
  sort.Slice byName (accepted cfg (withoutErrors (walkVisits d (MediaDir cfg)))).

(** A media directory with an entry on which [lstat] fails between two
    videos. *)
Definition exBrokenEntries : list (string * node) :=
  [("a.mp4", exFile "A"); ("broken", BadNode); ("z.mp4", exFile "Z")].

(** The inventory still lists [a.mp4], which is no longer on the disk
    (the cycle before removed it and, having downloaded nothing, did not
    scan); the bucket holds [a.mp4] again. *)
Definition exStaleServer : Server := exServer [exMedia "a.mp4"].

Definition exStaleWorld : World :=
  exWorld [] (s3.bucket "signage" [("a.mp4", list_byte_of_string "A")]).

(** ** The order of the inventory *)

(** The media files the walk of [scanMedia] collects, in the order of the
    walk, before they are sorted. *)
Definition collected (cfg : AppConfig) (d : FS) : list MediaFile :=
  fst (Walk (scanMedia_fn cfg) d (MediaDir cfg) []).

(** [x] has a name that is not after the name of [y]. *)
Definition nameNotAfter (x y : MediaFile) : Prop :=
  String.leb (Name x) (Name y) = true.

Definition namedAs (name : string) (m : MediaFile) : bool :=
  String.eqb (Name m) name.

(** Two files named [clip.mp4], in the directories [a] and [c]. *)
Definition exTwinEntries : list (string * node) :=
  [("a", DirNode true [("clip.mp4", exFile "1")]);
   ("b", DirNode true [("a.mp4", exFile "2")]);
   ("c", DirNode true [("clip.mp4", exFile "3")])].

(** Thirteen files: [b.mp4] in each of [d00] to [d11], and [z/a.mp4]. *)
Definition exTiesEntries : list (string * node) :=
  map (fun i => (("d" ++ exDigit (i / 10) ++ exDigit i)%string,
                 DirNode true [("b.mp4", exFile "B")])) (seq 0 12)
  ++ [("z", DirNode true [("a.mp4", exFile "A")])].

(** ** What the proofs speak of *)

(** What one turn of the first loop does. *)
Definition turn (s : Server) (st st' : SyncState) (keys : list string) : Prop :=
  exists evs,
    trace (world st') = trace (world st) ++ evs /\
    Forall (fun e => isFirstLoop e = true) evs /\
    syncCount st' = syncCount st + fetchedCount evs /\
    keysOf evs = keys /\
    localFilesToRemove st' ⊆ localFilesToRemove st /\
    cwd (disk (world st')) = cwd (disk (world st)) /\
    remote (world st') = remote (world st) /\
    forall q body, holds (disk (world st)) q body -> holds (disk (world st')) q body.

(** The events of the turn of the first loop for [key]: the check, and
    the download when the check found nothing. *)
Definition turnOf (s : Server) (key : string) (evs : list event) : Prop :=
  let localPath := Join (MediaDir (config s)) key in
  evs = [StatEv key localPath true] \/
  exists err, evs = [StatEv key localPath false; DownloadEv key localPath err].

Definition isPathError (e : error) : Prop :=
  match e with PathError _ _ => True | _ => False end.

(** The errors a walk reports are path errors, never [SkipDir]. *)
Definition pathErrors (vs : list visit) : Prop :=
  Forall (fun v => forall e, visitErr v = Some e -> isPathError e) vs.

(** What a walk with the function of [scanMedia] gives, told by the calls
    of the walk that nothing stops: the media files accepted before the
    first error, and that error. *)
Definition stopsAtError (cfg : AppConfig) (vs : list visit)
           (acc : list MediaFile) (r : list MediaFile * option error) : Prop :=
  r = (acc ++ accepted cfg (beforeError vs), firstError vs).

(** ** The order [sort.Slice] works for

    The predicates in which the properties of [sort.Slice] are stated:
    [less] is the function handed to it, the slice is a list, a range is
    the indices from [a] up to, not including, [b]. *)

Section SortOrder.

Context {A : Type}.
Variable less : A -> A -> bool.

(** [x] is not after [y]. *)
Definition notAfter (x y : A) : Prop := less y x = false.

(** The exchange of the indices [i] and [j]. *)
Definition exch (i j k : nat) : nat :=
  if decide (k = i) then j else if decide (k = j) then i else k.

(** [swaps a b l l']: [l'] comes from [l] by exchanges of indices in
    [a, b).  Every step of the sort is one. *)
Inductive swaps (a b : nat) : list A -> list A -> Prop :=
| swaps_refl l : swaps a b l l
| swaps_step l i j l' :
    a <= i < b -> a <= j < b -> swaps a b (sort.Swap l i j) l' -> swaps a b l l'.

(** Every element of the range satisfies [P]. *)
Definition allOn (l : list A) (a b : nat) (P : A -> Prop) : Prop :=
  forall k x, a <= k < b -> l !! k = Some x -> P x.

(** Every element of [a, b) relates by [R] to every element of
    [c, d). *)
Definition relOn (l : list A) (a b c d : nat) (R : A -> A -> Prop) : Prop :=
  forall p q x y,
    a <= p < b -> c <= q < d -> l !! p = Some x -> l !! q = Some y -> R x y.

(** The range [a, b) is in order. *)
Definition sortedOn (l : list A) (a b : nat) : Prop :=
  forall p q x y,
    a <= p -> p < q -> q < b -> l !! p = Some x -> l !! q = Some y -> notAfter x y.

(** The state of a partition around the element [pv], kept at [a]: the
    elements of [a + 1, i) are before [pv], those of (j, b) are not. *)
Definition parted (pv : A) (d : list A) (a b i j : nat) : Prop :=
  b <= length d /\ d !! a = Some pv /\
  a + 1 <= i /\ i <= j + 1 /\ j < b /\
  allOn d (a + 1) i (fun x => less x pv = true) /\
  allOn d (j + 1) b (fun x => less x pv = false).

(** What [partition_func] gives: the pivot element at [mid], before it
    the elements that are before the pivot, after it those that are
    not. *)
Definition partitioned (pv : A) (d : list A) (a mid b : nat) : Prop :=
  a <= mid < b /\ d !! mid = Some pv /\
  allOn d a mid (fun x => less x pv = true) /\
  allOn d (mid + 1) b (fun x => less x pv = false).

(** The state of the partition of a range without an element before
    [pv]: the elements of [a + 1, i) are not after [pv], those of (j, b)
    are. *)
Definition partedEqual (pv : A) (d : list A) (a b i j : nat) : Prop :=
  b <= length d /\ d !! a = Some pv /\
  a + 1 <= i /\ i <= j + 1 /\ j < b /\
  allOn d (a + 1) i (fun x => less pv x = false) /\
  allOn d (j + 1) b (fun x => less pv x = true).

(** The element before the range, when there is one, is not after any
    element of the range: every range the sort works on is to the right
    of a pivot put in place earlier. *)
Definition lowerBound (d : list A) (a b : nat) : Prop :=
  a = 0 \/ 0 < a /\ exists z, d !! (a - 1) = Some z /\ allOn d a b (notAfter z).

(** In the heap laid out from [first] on, no child of [k] below [hi] is
    after [k]. *)
Definition heapAt (d : list A) (first hi k : nat) : Prop :=
  forall c x y,
    c = 2 * k + 1 \/ c = 2 * k + 2 -> c < hi ->
    d !! (first + k) = Some x -> d !! (first + c) = Some y -> notAfter y x.

(** The heap while [root] sinks: every node from [lo] on but [root] is
    not before its children, and the children of [root] are not after
    the parent of [root]. *)
Definition sifting (d : list A) (first lo hi root : nat) : Prop :=
  (forall k, lo <= k -> k <> root -> heapAt d first hi k) /\
  (forall p c x y,
      lo <= p -> root = 2 * p + 1 \/ root = 2 * p + 2 ->
      c = 2 * root + 1 \/ c = 2 * root + 2 -> c < hi ->
      d !! (first + p) = Some x -> d !! (first + c) = Some y -> notAfter y x).

End SortOrder.

(** ** Clean paths *)

(** The name of a directory entry: not empty, not [.] or [..], and
    without a separator. *)
Definition isName (nm : string) : bool :=
  negb (String.eqb nm "") && negb (String.eqb nm ".") &&
  negb (String.eqb nm "..") && negb (hasSlash nm).

(** The elements [filepath.Clean] keeps of a path, first one first, and
    the path it writes for them. *)
Definition elemsOf (path : string) : list string :=
  rev (cleanElems (rooted path) [] (splitSlash path)).

Definition render (isRooted : bool) (elems : list string) : string :=
  if isRooted then ("/" ++ String.concat "/" elems)%string
  else match elems with
       | [] => "."
       | _ => String.concat "/" elems
       end.

(** The elements of a cleaned path: [..] elements, none for a rooted
    path, then names. *)
Definition cleanList (isRooted : bool) (elems : list string) : Prop :=
  exists k names,
    elems = repeat ".." k ++ names /\
    Forall (fun nm => isName nm = true) names /\
    (isRooted = true -> k = 0).

(** ** The entries a walk calls its function for *)

(** The names of the entries of a directory are names, and no two
    entries of one directory have the same name, all the way down. *)
Fixpoint uniqueNames (l : list string) : bool :=
  match l with
  | [] => true
  | x :: r => negb (existsb (String.eqb x) r) && uniqueNames r
  end.

Fixpoint wellNamed (n : node) : bool :=
  match n with
  | DirNode _ ents =>
      forallb (fun e => isName (fst e)) ents &&
      uniqueNames (map fst ents) &&
      forallb (fun e => wellNamed (snd e)) ents
  | _ => true
  end.

(** The entries an uninterrupted walk of [n] calls its function for, in
    the order of the walk, each with the names that lead to it from [n]:
    [n] itself, and for a directory that can be listed what is below its
    entries. *)
Fixpoint walked (n : node) : list (list string * node) :=
  match n with
  | DirNode true ents =>
      ([], n) :: flat_map (fun e => map (fun x => (fst e :: fst x, snd x))
                                        (walked (snd e))) ents
  | _ => [([], n)]
  end.

(** The call for the entry [n] at [path], reported under [name]. *)
Definition visitOf (path name : string) (n : node) : visit :=
  match n with
  | FileNode _ =>
      {| visitPath := path;
         visitInfo := Some {| fs.Name := name; fs.IsDir := false |};
         visitErr := None |}
  | DirNode readable _ =>
      {| visitPath := path;
         visitInfo := Some {| fs.Name := name; fs.IsDir := true |};
         visitErr := if readable then None else Some (PathError "open" path) |}
  | BadNode =>
      {| visitPath := path;
         visitInfo := None;
         visitErr := Some (PathError "lstat" path) |}
  end.

Definition visitBelow (path name : string) (x : list string * node) : visit :=
  visitOf (fold_left Join (fst x) path) (List.last (fst x) name) (snd x).

(** The error [scanMedia] logs. *)
Definition scanError (cfg : AppConfig) (d : FS) : option error :=
  snd (Walk (scanMedia_fn cfg) d (MediaDir cfg) []).

(** [os.Lstat], which the walk calls for the root and for every entry:
    in a tree without symbolic links it is [os.Stat]. *)
Definition Lstat (d : FS) (name : string) : result fs.FileInfo := os.Stat d name.

(** ** The first loop of a cycle *)

(** What a turn of the first loop does to [localFilesToRemove] when
    [os.Stat] finds the local path: the first occurrence of the path, if
    there is one, is taken out. *)
Definition strike (l : list string) (v : string) : list string :=
  match slices.Index l v with
  | Some index => slices.Delete l index (index + 1)
  | None => l
  end.

(** The locals of [syncFromS3] after its first loop. *)
Definition firstLoop (s : Server) (w : World) (resp : s3.ListObjectsV2Output)
  : SyncState :=
  fold_left (syncObject s) (s3.Contents resp)
            {| world := emit w (ListEv None);
               localFilesToRemove := map Path (mediaList s);
               syncCount := 0 |}.

(** The keys of a listing, and the local path of a key. *)
Definition keysIn (resp : s3.ListObjectsV2Output) : list string :=
  omap s3.Key (s3.Contents resp).

Definition localPathOf (s : Server) (key : string) : string :=
  Join (MediaDir (config s)) key.

(** A store that holds [old.mp4] only. *)
Definition exOldStore : s3.Service :=
  s3.bucket "signage" [("old.mp4", list_byte_of_string "O")].

(* ===================================================================== *)
(** * The environment: [getEnv], [getEnvInt] and [strconv.Atoi] *)
(* ===================================================================== *)

(** The environment of the process, as [os.LookupEnv] reads it. *)
Definition Environ : Type := string -> option string.

(** [os.Getenv]: the empty string for a variable that is not set. *)
Definition Getenv (env : Environ) (key : string) : string :=
  match env key with
  | Some value => value
  | None => ""
  end.

Module strconv.

(** The two errors of a [*NumError]. *)
Inductive NumError := ErrSyntax | ErrRange.

(** [intSize] is the size of an [int], 32 or 64 bits with the target
    of the build; [int] and [int64] values are integers of [Z], and the
    conversion to [w] bits is written out. *)
Definition wrap (w : nat) (z : Z) : Z :=
  ((z + 2 ^ (Z.of_nat w - 1)) mod 2 ^ Z.of_nat w - 2 ^ (Z.of_nat w - 1))%Z.

Definition maxUint64 : Z := (2 ^ 64 - 1)%Z.

(** The loop of [ParseUint(s, 10, 0)] over the bytes of [s]; [n] is a
    [uint64].  In base 10 every byte that is not a digit is a syntax
    error. *)
Fixpoint ParseUint_loop (intSize : nat) (s : string) (n : Z) : Z * option NumError :=
  let cutoff := (maxUint64 / 10 + 1)%Z in
  let maxVal := (2 ^ Z.of_nat intSize - 1)%Z in
  match s with
  | EmptyString => (n, None)
  | String c r =>
      let ch := Z.of_nat (nat_of_ascii c) in
      if ((48 <=? ch) && (ch <=? 57))%Z then
        let d := (ch - 48)%Z in
        if (cutoff <=? n)%Z then (maxVal, Some ErrRange)
        else
          let n := (n * 10)%Z in
          let n1 := ((n + d) mod 2 ^ 64)%Z in
          if ((n1 <? n) || (maxVal <? n1))%Z then (maxVal, Some ErrRange)
          else ParseUint_loop intSize r n1
      else (0%Z, Some ErrSyntax)
  end.

Definition ParseUint (intSize : nat) (s : string) : Z * option NumError :=
  if String.eqb s "" then (0%Z, Some ErrSyntax)
  else ParseUint_loop intSize s 0.

(** [ParseInt(s, 10, 0)] *)
Definition ParseInt (intSize : nat) (s : string) : Z * option NumError :=
  match s with
  | EmptyString => (0%Z, Some ErrSyntax)
  | String c r =>
      (* Pick off leading sign. *)
      let neg := Ascii.eqb c "-" in
      let s := if Ascii.eqb c "+" || Ascii.eqb c "-" then r else s in
      (* Convert unsigned and check range. *)
      let '(un, err) := ParseUint intSize s in
      match err with
      | Some ErrSyntax => (0%Z, Some ErrSyntax)
      | _ =>
          let cutoff := (2 ^ (Z.of_nat intSize - 1))%Z in
          if negb neg && (cutoff <=? un)%Z then ((cutoff - 1)%Z, Some ErrRange)
          else if neg && (cutoff <? un)%Z then ((- cutoff)%Z, Some ErrRange)
          else
            let n := wrap 64 un in
            ((if neg then wrap 64 (- n) else n), None)
      end
  end.

(** The loop of the fast path of [Atoi]: [ch -= '0'] is on a byte. *)
Fixpoint Atoi_loop (s : string) (n : Z) : option Z :=
  match s with
  | EmptyString => Some n
  | String c r =>
      let ch := ((Z.of_nat (nat_of_ascii c) - 48) mod 256)%Z in
      if (9 <? ch)%Z then None
      else Atoi_loop r (n * 10 + ch)%Z
  end.

(** [strconv.Atoi] *)
Definition Atoi (intSize : nat) (s : string) : Z * option NumError :=
  let sLen := String.length s in
  if (intSize =? 32) && ((0 <? sLen) && (sLen <? 10)) ||
     (intSize =? 64) && ((0 <? sLen) && (sLen <? 19))
  then
    (* Fast path for small integers that fit int type. *)
    match s with
    | EmptyString => (0%Z, Some ErrSyntax)
    | String c r =>
        let signed := Ascii.eqb c "-" || Ascii.eqb c "+" in
        if signed && String.eqb r "" then (0%Z, Some ErrSyntax)
        else
          match Atoi_loop (if signed then r else s) 0 with
          | None => (0%Z, Some ErrSyntax)
          | Some n => ((if Ascii.eqb c "-" then (- n)%Z else n), None)
          end
    end
  else
    (* Slow path for invalid, big, or underscored integers. *)
    let '(i64, err) := ParseInt intSize s in
    (wrap intSize i64, err).

End strconv.

Definition getEnv (env : Environ) (key defaultValue : string) : string :=
  let value := Getenv env key in
  if negb (String.eqb value "") then value else defaultValue.

Definition getEnvInt (intSize : nat) (env : Environ) (key : string) (defaultValue : Z)
  : Z :=
  let value := Getenv env key in
  if negb (String.eqb value "") then
    match strconv.Atoi intSize value with
    | (intValue, None) => intValue
    | (_, Some _) => defaultValue
    end
  else defaultValue.

(** [time.Minute], in nanoseconds, and the [SyncInterval] that [main]
    computes: a [time.Duration] is an [int64]. *)
Definition Minute : Z := (60 * 1000000000)%Z.

Definition syncIntervalOf (intSize : nat) (env : Environ) : Z :=
  strconv.wrap 64 (getEnvInt intSize env "SYNC_INTERVAL_MINUTES" 15 * Minute)%Z.

(** ** Decimal numerals *)

(** The number a string of decimal digits writes, after [acc]. *)
Fixpoint digitsValue (s : string) (acc : Z) : option Z :=
  match s with
  | EmptyString => Some acc
  | String c r =>
      let ch := Z.of_nat (nat_of_ascii c) in
      if ((48 <=? ch) && (ch <=? 57))%Z
      then digitsValue r (acc * 10 + (ch - 48))%Z
      else None
  end.

(** The integer a decimal numeral writes: an optional sign, then one
    digit or more. *)
Definition decimal (s : string) : option Z :=
  match s with
  | EmptyString => None
  | String c r =>
      if Ascii.eqb c "-" then
        if String.eqb r "" then None else option_map Z.opp (digitsValue r 0)
      else if Ascii.eqb c "+" then
        if String.eqb r "" then None else digitsValue r 0
      else digitsValue s 0
  end.

(** The values of an [int]. *)
Definition fitsInt (intSize : nat) (n : Z) : bool :=
  ((- 2 ^ (Z.of_nat intSize - 1) <=? n) && (n <? 2 ^ (Z.of_nat intSize - 1)))%Z.

(** An environment with one variable. *)
Definition exEnv (key value : string) : Environ :=
  fun k => if String.eqb k key then Some value else None.

(* ===================================================================== *)
(** * The media API: [handleMediaAPI] and [encoding/json] *)
(* ===================================================================== *)

Module utf8.

Definition RuneError : N := 65533%N.

(** The table [first] with [acceptRanges], for a first byte that is not
    ASCII: the length of the encoding and the range of the second byte,
    [None] for a byte that starts no encoding. *)
Definition first (b : N) : option (nat * N * N) :=
  if (b <? 194)%N then None
  else if (b <=? 223)%N then Some (2, 128%N, 191%N)
  else if (b =? 224)%N then Some (3, 160%N, 191%N)
  else if (b <=? 236)%N then Some (3, 128%N, 191%N)
  else if (b =? 237)%N then Some (3, 128%N, 159%N)
  else if (b <=? 239)%N then Some (3, 128%N, 191%N)
  else if (b =? 240)%N then Some (4, 144%N, 191%N)
  else if (b <=? 243)%N then Some (4, 128%N, 191%N)
  else if (b =? 244)%N then Some (4, 128%N, 143%N)
  else None.

(** A byte from [locb] to [hicb]. *)
Definition continues (b : N) : bool := ((128 <=? b) && (b <=? 191))%N.

(** [utf8.DecodeRuneInString] on a string that starts with a byte that
    is not ASCII: the rune and the number of bytes it takes;
    [(RuneError, 1)] for an encoding that is not valid. *)
Definition DecodeRuneInString (s : string) : N * nat :=
  match map N_of_ascii (list_ascii_of_string s) with
  | [] => (RuneError, 0)
  | s0 :: rest =>
      match first s0 with
      | None => (RuneError, 1)
      | Some (sz, lo, hi) =>
          if length (s0 :: rest) <? sz then (RuneError, 1)
          else
            match rest with
            | [] => (RuneError, 1)
            | s1 :: rest =>
                if ((s1 <? lo) || (hi <? s1))%N then (RuneError, 1)
                else if sz <=? 2 then (((s0 mod 32) * 64 + s1 mod 64)%N, 2)
                else
                  match rest with
                  | [] => (RuneError, 1)
                  | s2 :: rest =>
                      if negb (continues s2) then (RuneError, 1)
                      else if sz <=? 3
                      then (((s0 mod 16) * 4096 + (s1 mod 64) * 64 + s2 mod 64)%N, 3)
                      else
                        match rest with
                        | [] => (RuneError, 1)
                        | s3 :: _ =>
                            if negb (continues s3) then (RuneError, 1)
                            else (((s0 mod 8) * 262144 + (s1 mod 64) * 4096
                                   + (s2 mod 64) * 64 + s3 mod 64)%N, 4)
                        end
                  end
            end
      end
  end.

End utf8.

Module json.

Definition backslash : ascii := ascii_of_nat 92.
Definition quote : ascii := ascii_of_nat 34.

Definition hex (n : N) : ascii :=
  match String.get (N.to_nat n) "0123456789abcdef" with
  | Some c => c
  | None => "0"%char
  end.

(** [htmlSafeSet], for an ASCII byte: the byte goes into a JSON string
    as it is. *)
Definition htmlSafe (b : N) : bool :=
  ((32 <=? b) &&
   negb ((b =? 34) || (b =? 92) || (b =? 60) || (b =? 62) || (b =? 38)))%N.

(** What [appendString] writes for an ASCII byte that is not safe. *)
Definition escape (b : N) : string :=
  if ((b =? 92) || (b =? 34))%N then String backslash (String (ascii_of_N b) "")
  else if (b =? 8)%N then String backslash "b"
  else if (b =? 12)%N then String backslash "f"
  else if (b =? 10)%N then String backslash "n"
  else if (b =? 13)%N then String backslash "r"
  else if (b =? 9)%N then String backslash "t"
  else String backslash (String "u" (String "0" (String "0"
         (String (hex (b / 16)) (String (hex (b mod 16)) ""))))).

Definition takeString (n : nat) (s : string) : string :=
  string_of_list_ascii (take n (list_ascii_of_string s)).

Definition dropString (n : nat) (s : string) : string :=
  string_of_list_ascii (drop n (list_ascii_of_string s)).

(** The loop of [appendString(dst, src, escapeHTML = true)]: one turn
    for each ASCII byte and for each rune; the fuel is the number of
    turns left. *)
Fixpoint appendString_loop (fuel : nat) (src : string) : string :=
  match fuel, src with
  | S fuel, String c rest =>
      let b := N_of_ascii c in
      if (b <? 128)%N then
        ((if htmlSafe b then String c "" else escape b)
           ++ appendString_loop fuel rest)%string
      else
        let '(r, size) := utf8.DecodeRuneInString (takeString 4 src) in
        if (r =? utf8.RuneError)%N && (size =? 1) then
          (String backslash "ufffd" ++ appendString_loop fuel rest)%string
        else if ((r =? 8232) || (r =? 8233))%N then
          (String backslash (String "u" (String "2" (String "0" (String "2"
             (String (hex (r mod 16)) "")))))
             ++ appendString_loop fuel (dropString size src))%string
        else
          (takeString size src ++ appendString_loop fuel (dropString size src))%string
  | _, _ => EmptyString
  end.

Definition appendString (src : string) : string :=
  (String quote (appendString_loop (String.length src) src) ++ String quote "")%string.

(** A number of [int], not negative, in decimal. *)
Fixpoint formatDigits (fuel n : nat) (acc : string) : string :=
  match fuel with
  | 0 => acc
  | S fuel =>
      let acc := String (ascii_of_nat (48 + n mod 10)) acc in
      if n / 10 =? 0 then acc else formatDigits fuel (n / 10) acc
  end.

Definition formatInt (n : nat) : string := formatDigits (S n) n "".

(** The encoding of a [MediaFile], with the names of its tags. *)
Definition encodeMediaFile (m : MediaFile) : string :=
  ("{" ++ appendString "name" ++ ":" ++ appendString (Name m) ++
   "," ++ appendString "path" ++ ":" ++ appendString (Path m) ++
   "," ++ appendString "url" ++ ":" ++ appendString (URL m) ++ "}")%string.

(** The encoding of a [[]MediaFile]: [null] for the nil slice.  In this
    program a [mediaList] without elements is the nil slice:
    [var mediaFiles []MediaFile] is nil until the first [append], and the
    [Server] starts with none. *)
Definition encodeMediaList (l : list MediaFile) : string :=
  match l with
  | [] => "null"
  | _ => ("[" ++ String.concat "," (map encodeMediaFile l) ++ "]")%string
  end.

(** [Encode] of the map of [handleMediaAPI]: the keys in order, and a
    newline at the end. *)
Definition encodeResponse (media : list MediaFile) (count : nat) : string :=
  ("{" ++ appendString "count" ++ ":" ++ formatInt count ++
   "," ++ appendString "media" ++ ":" ++ encodeMediaList media ++ "}" ++
   String (ascii_of_nat 10) "")%string.

End json.

(** An [http.ResponseWriter]: the header and what was written. *)
Record ResponseWriter :=
  { header : list (string * string);
    written : string }.

Definition Header_Set (rw : ResponseWriter) (key value : string) : ResponseWriter :=
  {| header := (key, value)
               :: List.filter (fun kv => negb (String.eqb (fst kv) key)) (header rw);
     written := written rw |}.

Definition Write (rw : ResponseWriter) (data : string) : ResponseWriter :=
  {| header := header rw; written := (written rw ++ data)%string |}.

Definition handleMediaAPI (s : Server) (w : World) (rw : ResponseWriter)
  : Server * World * ResponseWriter :=
  let '(s, w) := scanMedia s w in
  let media := mediaList s in
  let count := length (mediaList s) in
  let rw := Header_Set rw "Content-Type" "application/json" in
  (s, w, Write rw (json.encodeResponse media count)).

(** A response that nothing was written to yet. *)
Definition exResponse : ResponseWriter := {| header := []; written := "" |}.

(* ===================================================================== *)
(** * The player of the index page: the class [DigitalSignage] *)
(* ===================================================================== *)

Module DigitalSignage.

(** The object, as far as its methods change it: its two fields, the
    text of the status and of the loading element, and the sources that
    were assigned to [video.src], the last one last. *)
Record player :=
  { mediaList : list MediaFile;
    currentIndex : nat;
    status : string;
    loading : string;
    sources : list string }.

(** What is in [data.media] of an answer of the media API: an array, or
    [null]. *)
Definition media := option (list MediaFile).

Definition updateStatus (p : player) (message : string) : player :=
  {| mediaList := mediaList p; currentIndex := currentIndex p;
     status := message; loading := loading p; sources := sources p |}.

Definition showError (p : player) (message : string) : player :=
  updateStatus
    {| mediaList := mediaList p; currentIndex := currentIndex p;
       status := status p; loading := message; sources := sources p |}
    message.

(** [this.mediaList = data.media || []] *)
Definition loadMediaList (p : player) (data : media) : player :=
  let l := match data with Some l => l | None => [] end in
  updateStatus
    {| mediaList := l; currentIndex := currentIndex p;
       status := status p; loading := loading p; sources := sources p |}
    (json.formatInt (length l) ++ " media files loaded")%string.

(** [this.mediaList[this.currentIndex] || null] *)
Definition getCurrentMedia (p : player) : option MediaFile :=
  nth_error (mediaList p) (currentIndex p).

Definition playCurrentMedia (p : player) : player :=
  match getCurrentMedia p with
  | None => p
  | Some m =>
      {| mediaList := mediaList p; currentIndex := currentIndex p;
         status := status p; loading := loading p;
         sources := sources p ++ [URL m] |}
  end.

Definition startPlayback (p : player) : player :=
  if length (mediaList p) =? 0 then showError p "No media files found"
  else playCurrentMedia p.

Definition playNext (p : player) : player :=
  if length (mediaList p) =? 0 then p
  else
    playCurrentMedia
      {| mediaList := mediaList p;
         currentIndex := (currentIndex p + 1) mod length (mediaList p);
         status := status p; loading := loading p; sources := sources p |}.

(** The constructor and [init], with the answer to the first request
    for the list, [None] when the request fails. *)
Definition new : player :=
  {| mediaList := []; currentIndex := 0;
     status := "Initializing..."; loading := "Loading media...";
     sources := [] |}.

Definition init (answer : option media) : player :=
  match answer with
  | Some data => startPlayback (loadMediaList new data)
  | None => showError new "Failed to load media"
  end.

(** The function of [startMediaRefresh], run every five minutes, has
    two parts.  When the timer fires it reads [oldCount] and sends its
    request; [refreshAnswer] is what it does when the request is
    answered, [None] standing for a request that fails.  Between the two
    the page handles other events, also other runs of the function. *)
Definition refreshAnswer (p : player) (oldCount : nat) (answer : option media)
  : player :=
  match answer with
  | Some data =>
      let p := loadMediaList p data in
      if negb (length (mediaList p) =? oldCount) then
        (* Reset to beginning if current index is out of bounds *)
        if length (mediaList p) <=? currentIndex p then
          playCurrentMedia
            {| mediaList := mediaList p; currentIndex := 0;
               status := status p; loading := loading p; sources := sources p |}
        else p
      else p
  | None => p
  end.

(** The page after [init]: the object, and the runs of the refresh
    function that wait for their answer, oldest first, each with the
    [oldCount] it read. *)
Record page :=
  { object : player;
    waiting : list nat }.

(** What happens to the page after [init]: the events of the video
    element that have a listener, the timer set after a [play] that
    failed, the timer of the refresh, and the answer to the request of
    the [i]-th run that waits. *)
Inductive playerEvent : Type :=
| Ended
| VideoError
| LoadStart
| CanPlay
| PlayFailed
| Refresh
| RefreshAnswer (i : nat) (answer : option media).

Definition handle (st : page) (e : playerEvent) : page :=
  let p := object st in
  match e with
  | Ended | VideoError | PlayFailed =>
      {| object := playNext p; waiting := waiting st |}
  | LoadStart =>
      {| object := updateStatus p "Loading video..."; waiting := waiting st |}
  | CanPlay =>
      match getCurrentMedia p with
      | Some m =>
          {| object := updateStatus p ("Playing: " ++ Name m)%string;
             waiting := waiting st |}
      | None => st   (* the listener throws a TypeError *)
      end
  | Refresh =>
      let oldCount := length (mediaList p) in
      {| object := p; waiting := waiting st ++ [oldCount] |}
  | RefreshAnswer i answer =>
      match nth_error (waiting st) i with
      | Some oldCount =>
          {| object := refreshAnswer p oldCount answer;
             waiting := firstn i (waiting st) ++ skipn (S i) (waiting st) |}
      | None => st
      end
  end.

(** The object after [init] and then the events [es].  (After an
    [init] that failed there is no listener and no timer, and [es] is
    empty.) *)
Definition run (answer : option media) (es : list playerEvent) : player :=
  object (fold_left handle es {| object := init answer; waiting := [] |}).

Definition isRefresh (e : playerEvent) : bool :=
  match e with Refresh | RefreshAnswer _ _ => true | _ => false end.

(** No run of the refresh function starts while another waits for its
    answer; [n] is the number of runs that wait. *)
Fixpoint oneAtATime (n : nat) (es : list playerEvent) : bool :=
  match es with
  | [] => true
  | Refresh :: es => (n =? 0) && oneAtATime 1 es
  | RefreshAnswer i _ :: es => oneAtATime (if i <? n then n - 1 else n) es
  | _ :: es => oneAtATime n es
  end.

(** The index is in the list, or the list is empty and the index 0. *)
Definition inRange (p : player) : Prop :=
  currentIndex p < length (mediaList p) \/
  (mediaList p = [] /\ currentIndex p = 0).

End DigitalSignage.

(** ** What [os.Stat] finds *)

(** The disk has an entry at the place [q] on which [lstat] works: a
    regular file or a directory. *)
Definition present (d : FS) (q : list string) : Prop :=
  exists n, lookup q (tree d) = Some n /\ n <> BadNode.

(** [os.Stat] returns no error for the path [name]. *)
Definition statOk (d : FS) (name : string) : Prop :=
  exists info, os.Stat d name = Ok info.



(** ** A disk kept in order *)




(** ** [syncLoop] *)

(** The periodic part of [syncLoop]: one cycle for each tick received
    from the ticker. *)
Fixpoint periodicSync (ticks : nat) (s : Server) (w : World) : Server * World :=
  match ticks with
  | 0 => (s, w)
  | S ticks => let '(s, w) := syncFromS3 s w in periodicSync ticks s w
  end.

(** [syncLoop], for a process that lives to receive [ticks] ticks: the
    initial sync, then the periodic ones. *)
Definition syncLoop (ticks : nat) (s : Server) (w : World) : Server * World :=
  let '(s, w) := syncFromS3 s w in periodicSync ticks s w.


(* ===================================================================== *)
(** * Properties *)
(* ===================================================================== *)

(** ** Directory entries *)

Lemma getEntry_putEntry_eq c x ents : getEntry c (putEntry c x ents) = Some x.
Proof.
  induction ents as [|[k v] r IH]; simpl.
  - by rewrite String.eqb_refl.
  - destruct (String.eqb c k) eqn:E; simpl.
    + by rewrite String.eqb_refl.
    + destruct (String.ltb c k); simpl.
      * by rewrite String.eqb_refl.
      * by rewrite E.
Qed.

Lemma getEntry_putEntry_ne c c' x ents :
  c <> c' -> getEntry c' (putEntry c x ents) = getEntry c' ents.
Proof.
  intros Hne. apply not_eq_sym, String.eqb_neq in Hne.
  induction ents as [|[k v] r IH]; simpl.
  - by rewrite Hne.
  - destruct (String.eqb c k) eqn:E; simpl.
    + apply String.eqb_eq in E. subst k. by rewrite Hne.
    + destruct (String.ltb c k); simpl.
      * by rewrite Hne.
      * destruct (String.eqb c' k); [done | apply IH].
Qed.

Lemma getEntry_delEntry_ne c c' ents :
  c <> c' -> getEntry c' (delEntry c ents) = getEntry c' ents.
Proof.
  intros Hne. apply not_eq_sym, String.eqb_neq in Hne.
  induction ents as [|[k v] r IH]; simpl; [done|].
  destruct (String.eqb c k) eqn:E; simpl.
  - apply String.eqb_eq in E. subst k. by rewrite Hne.
  - destruct (String.eqb c' k); [done | apply IH].
Qed.

Lemma getEntry_delEntry_eq c ents : getEntry c (delEntry c ents) = None.
Proof.
  induction ents as [|[k v] r IH]; simpl; [done|].
  destruct (String.eqb c k) eqn:E; simpl; [done|]. by rewrite E.
Qed.

(** ** What the file operations leave alone *)

Lemma updateAt_last f c r ents :
  updateAt f [c] (DirNode r ents) =
  match f (getEntry c ents) with
  | Some (Some x) => Some (DirNode r (putEntry c x ents))
  | Some None => Some (DirNode r (delEntry c ents))
  | None => None
  end.
Proof. reflexivity. Qed.

Lemma updateAt_cons f c c2 p r ents :
  updateAt f (c :: c2 :: p) (DirNode r ents) =
  match getEntry c ents with
  | Some child =>
      match updateAt f (c2 :: p) child with
      | Some child' => Some (DirNode r (putEntry c child' ents))
      | None => None
      end
  | None => None
  end.
Proof. reflexivity. Qed.

Lemma updateAt_not_dir f p n :
  isDirNode n = false -> updateAt f p n = None.
Proof. destruct n, p as [|c [|c2 p]]; simpl; congruence. Qed.

(** A change at [p] that refuses directories with entries keeps every
    regular file that is not at [p] itself. *)
Lemma updateAt_keeps_file f p :
  (forall r e ents, f (Some (DirNode r (e :: ents))) = None) ->
  forall n n' q body,
    updateAt f p n = Some n' ->
    lookup q n = Some (FileNode body) ->
    p <> q ->
    lookup q n' = Some (FileNode body).
Proof.
  intros Hf. induction p as [|c p IH]; intros n n' q body Hup Hq Hne; [done|].
  destruct n as [|r ents|]; try (rewrite updateAt_not_dir in Hup; done).
  destruct q as [|c' q]; [discriminate|].
  simpl in Hq.
  destruct (decide (c = c')) as [<-|Hc].
  - destruct (getEntry c ents) as [child|] eqn:Hg; [|discriminate].
    destruct p as [|c2 p].
    + (* the change is at this entry, the file is below it *)
      destruct q as [|c3 q]; [done|].
      destruct child as [|r' ents'|]; try discriminate.
      destruct ents' as [|e ents']; [discriminate|].
      rewrite updateAt_last, Hg, Hf in Hup. discriminate.
    + rewrite updateAt_cons, Hg in Hup.
      destruct (updateAt f (c2 :: p) child) as [child'|] eqn:Hu; [|discriminate].
      inversion Hup; subst n'. simpl. rewrite getEntry_putEntry_eq.
      eapply IH; eauto. congruence.
  - assert (Hkeep : forall x, getEntry c' (putEntry c x ents) = getEntry c' ents)
      by (intros; by apply getEntry_putEntry_ne).
    destruct p as [|c2 p].
    + rewrite updateAt_last in Hup.
      destruct (f (getEntry c ents)) as [[x|]|]; inversion Hup; subst n'; simpl.
      * by rewrite Hkeep.
      * by rewrite getEntry_delEntry_ne.
    + rewrite updateAt_cons in Hup.
      destruct (getEntry c ents) as [child|]; [|discriminate].
      destruct (updateAt f (c2 :: p) child) as [child'|]; inversion Hup; subst n'.
      simpl. by rewrite Hkeep.
Qed.

Lemma mkdirAll_keeps_file p :
  forall n n' q body,
    mkdirAll p n = Some n' ->
    lookup q n = Some (FileNode body) ->
    lookup q n' = Some (FileNode body).
Proof.
  induction p as [|c p IH]; intros n n' q body Hmk Hq.
  - destruct n; simpl in Hmk; congruence.
  - destruct n as [|r ents|]; try discriminate.
    simpl in Hmk.
    destruct (mkdirAll p _) as [child'|] eqn:Hm; [|discriminate].
    inversion Hmk; subst n'.
    destruct q as [|c' q]; [discriminate|]. simpl in Hq |- *.
    destruct (decide (c = c')) as [<-|Hc].
    + rewrite getEntry_putEntry_eq.
      destruct (getEntry c ents) as [child|]; [|discriminate].
      eapply IH; eauto.
    + by rewrite getEntry_putEntry_ne.
Qed.

Lemma resolve_cwd d d' name : cwd d = cwd d' -> os.resolve d name = os.resolve d' name.
Proof. unfold os.resolve. by intros ->. Qed.

Lemma Stat_holds d name q body :
  os.resolve d name = Some q -> holds d q body -> exists info, os.Stat d name = Ok info.
Proof. unfold os.Stat, holds. intros -> ->. simpl. eauto. Qed.

Lemma MkdirAll_spec d path :
  cwd (fst (os.MkdirAll d path)) = cwd d /\
  forall q body, holds d q body -> holds (fst (os.MkdirAll d path)) q body.
Proof.
  unfold os.MkdirAll, holds.
  destruct (os.resolve d path) as [p|]; [|done].
  destruct (mkdirAll p (tree d)) as [t|] eqn:Hm; [|done].
  simpl. split; [done|]. intros q body. by apply mkdirAll_keeps_file with (p := p).
Qed.

Lemma writeFile_refuses body r e ents :
  os.writeFile body (Some (DirNode r (e :: ents))) = None.
Proof. reflexivity. Qed.

Lemma unlink_refuses r e ents : os.unlink (Some (DirNode r (e :: ents))) = None.
Proof. reflexivity. Qed.

Lemma Create_spec d name :
  cwd (fst (os.Create d name)) = cwd d /\
  forall q body,
    os.resolve d name <> Some q -> holds d q body -> holds (fst (os.Create d name)) q body.
Proof.
  unfold os.Create, holds.
  destruct (os.resolve d name) as [p|]; [|done].
  destruct (updateAt _ p (tree d)) as [t|] eqn:Hu; [|done].
  simpl. split; [done|]. intros q body Hne Hq.
  eapply updateAt_keeps_file; eauto using writeFile_refuses. congruence.
Qed.

Lemma write_spec d name data :
  cwd (os.write d name data) = cwd d /\
  forall q body,
    os.resolve d name <> Some q -> holds d q body -> holds (os.write d name data) q body.
Proof.
  unfold os.write, holds.
  destruct (os.resolve d name) as [p|]; [|done].
  destruct (updateAt _ p (tree d)) as [t|] eqn:Hu; [|done].
  simpl. split; [done|]. intros q body Hne Hq.
  eapply updateAt_keeps_file; eauto using writeFile_refuses. congruence.
Qed.

Lemma Remove_spec d name :
  cwd (fst (os.Remove d name)) = cwd d /\
  forall q body,
    os.resolve d name <> Some q -> holds d q body -> holds (fst (os.Remove d name)) q body.
Proof.
  unfold os.Remove, holds.
  destruct (os.resolve d name) as [p|]; [|done].
  destruct (updateAt _ p (tree d)) as [t|] eqn:Hu; [|done].
  simpl. split; [done|]. intros q body Hne Hq.
  eapply updateAt_keeps_file; eauto using unlink_refuses. congruence.
Qed.

(** ** [downloadFromS3] *)

(** A download to a path where [os.Stat] found nothing changes neither
    the trace nor the remote store and keeps every regular file. *)
Lemma downloadFromS3_spec s w key localPath e :
  os.Stat (disk w) localPath = Err e ->
  let w' := fst (downloadFromS3 s w key localPath) in
  trace w' = trace w /\ remote w' = remote w /\ cwd (disk w') = cwd (disk w) /\
  forall q body, holds (disk w) q body -> holds (disk w') q body.
Proof.
  intros Hstat. unfold downloadFromS3.
  pose proof (MkdirAll_spec (disk w) (Dir localPath)) as [Hc1 Hk1].
  destruct (os.MkdirAll (disk w) (Dir localPath)) as [d1 [err|]]; [done|].
  simpl in Hc1, Hk1.
  assert (Hne : forall q body,
             holds (disk w) q body -> os.resolve (disk w) localPath <> Some q).
  { intros q body Hq Hr. destruct (Stat_holds _ _ _ _ Hr Hq) as [i Hi]. congruence. }
  destruct (s3.GetObject _ _) as [resp|err]; simpl; [|done].
  pose proof (Create_spec d1 localPath) as [Hc2 Hk2].
  destruct (os.Create d1 localPath) as [d2 [err|]]; simpl in *; [done|].
  pose proof (write_spec d2 localPath (s3.delivered resp)) as [Hc3 Hk3].
  repeat split; try congruence.
  intros q body Hq. apply Hk3.
  - rewrite (resolve_cwd d2 (disk w)) by congruence. eapply Hne; eauto.
  - apply Hk2; eauto. rewrite (resolve_cwd d1 (disk w)) by congruence. eapply Hne; eauto.
Qed.

(** ** The first loop of [syncFromS3] *)

Lemma Delete_subseteq l i j : slices.Delete l i j ⊆ l.
Proof.
  unfold slices.Delete. intros x [H|H]%elem_of_app.
  - by eapply subseteq_take.
  - by eapply subseteq_drop.
Qed.

Lemma fetchedCount_app evs1 evs2 :
  fetchedCount (evs1 ++ evs2) = fetchedCount evs1 + fetchedCount evs2.
Proof. unfold fetchedCount. by rewrite List.filter_app, length_app. Qed.

Lemma keysOf_app evs1 evs2 : keysOf (evs1 ++ evs2) = keysOf evs1 ++ keysOf evs2.
Proof. apply omap_app. Qed.

Lemma syncObject_spec s st obj :
  turn s st (syncObject s st obj)
       (match s3.Key obj with Some k => [k] | None => [] end).
Proof.
  unfold syncObject, turn.
  destruct (s3.Key obj) as [fileName|].
  2:{ exists []. rewrite app_nil_r. repeat split; auto; unfold fetchedCount; simpl; lia. }
  set (localPath := Join _ _).
  destruct (os.Stat _ localPath) as [info|e] eqn:Hstat.
  - exists [StatEv fileName localPath true].
    destruct (slices.Index _ _); simpl;
      repeat split; auto using Delete_subseteq; try lia;
      by repeat constructor.
  - pose proof (downloadFromS3_spec s
                  (emit (world st) (StatEv fileName localPath false))
                  fileName localPath e Hstat) as (Ht & Hr & Hc & Hk).
    destruct (downloadFromS3 _ _ _ _) as [w' [err|]]; simpl in *.
    + exists [StatEv fileName localPath false; DownloadEv fileName localPath (Some err)].
      rewrite Ht, <- app_assoc. repeat split; auto; try lia; by repeat constructor.
    + exists [StatEv fileName localPath false; DownloadEv fileName localPath None].
      rewrite Ht, <- app_assoc. repeat split; auto; by repeat constructor.
Qed.

Lemma syncObjects_spec s objs : forall st,
  turn s st (fold_left (syncObject s) objs st) (omap s3.Key objs).
Proof.
  induction objs as [|obj objs IH]; intros st; simpl.
  - exists []. rewrite app_nil_r. repeat split; auto; unfold fetchedCount; simpl; lia.
  - destruct (syncObject_spec s st obj) as (e1 & T1 & F1 & N1 & K1 & L1 & C1 & R1 & H1).
    destruct (IH (syncObject s st obj)) as (e2 & T2 & F2 & N2 & K2 & L2 & C2 & R2 & H2).
    exists (e1 ++ e2). rewrite T2, T1, app_assoc, fetchedCount_app, keysOf_app, K1, K2.
    repeat split; try congruence.
    + by apply Forall_app.
    + lia.
    + by destruct (s3.Key obj).
    + etrans; eauto.
    + auto.
Qed.

(** ** The second loop of [syncFromS3] *)

Lemma removeLocals_spec l : forall w,
  let w' := fold_left removeLocal l w in
  exists evs,
    trace w' = trace w ++ evs /\
    Forall2 (fun e p => exists err, e = RemoveEv p err) evs l /\
    cwd (disk w') = cwd (disk w) /\
    remote w' = remote w /\
    forall q body,
      (forall p, p ∈ l -> os.resolve (disk w) p <> Some q) ->
      holds (disk w) q body -> holds (disk w') q body.
Proof.
  induction l as [|p l IH]; intros w; simpl.
  - exists []. rewrite app_nil_r. repeat split; auto.
  - destruct (IH (removeLocal w p)) as (evs & T & F & C & R & H).
    unfold removeLocal in *.
    pose proof (Remove_spec (disk w) p) as [Hc Hk].
    destruct (os.Remove (disk w) p) as [d err]; simpl in *.
    exists (RemoveEv p err :: evs). rewrite T, <- app_assoc. simpl.
    repeat split; try congruence.
    + constructor; eauto.
    + intros q body Hne Hq. apply H.
      * intros p' Hp'. rewrite (resolve_cwd d (disk w)) by done.
        apply Hne. by right.
      * apply Hk; [|done]. apply Hne. by left.
Qed.

(** ** One cycle of [syncFromS3] *)

Lemma drop_old_events (t t' evs : list event) :
  t' = t ++ evs -> drop (length t) t' = evs.
Proof. intros ->. apply drop_app_length. Qed.

Lemma syncFromS3_unfold s w client resp :
  s3Client s = Some client ->
  listing s w = Ok resp ->
  syncFromS3 s w =
  let st := fold_left (syncObject s) (s3.Contents resp)
              {| world := emit w (ListEv None);
                 localFilesToRemove := map Path (mediaList s);
                 syncCount := 0 |} in
  let w := fold_left removeLocal (localFilesToRemove st) (world st) in
  if 0 <? syncCount st then scanMedia s w else (s, w).
Proof.
  unfold syncFromS3, listing. intros -> ->. simpl.
  destruct (fold_left _ _ _) as [w1 [|p l] n]; reflexivity.
Qed.

(** The shape of a cycle that got its listing: the turns of the first
    loop, then the removals, each of a path of the inventory the cycle
    started with, then a scan exactly when a download succeeded. *)
Lemma syncFromS3_spec s w client resp :
  s3Client s = Some client ->
  listing s w = Ok resp ->
  exists E1 E2 E3 rm,
    cycleEvents s w = ListEv None :: E1 ++ E2 ++ E3 /\
    Forall (fun e => isFirstLoop e = true) E1 /\
    keysOf E1 = omap s3.Key (s3.Contents resp) /\
    Forall2 (fun e p => exists err, e = RemoveEv p err) E2 rm /\
    rm ⊆ map Path (mediaList s) /\
    (fetchedCount E1 = 0 /\ E3 = [] /\ fst (syncFromS3 s w) = s \/
     0 < fetchedCount E1 /\ exists l,
       E3 = [ScanEv (length l)] /\ fst (syncFromS3 s w) = setMediaList s l) /\
    forall q body,
      (forall m, m ∈ mediaList s -> os.resolve (disk w) (Path m) <> Some q) ->
      holds (disk w) q body -> holds (disk (snd (syncFromS3 s w))) q body.
Proof.
  intros Hc Hl. unfold cycleEvents.
  rewrite (syncFromS3_unfold s w client resp Hc Hl). cbv zeta.
  set (st0 := {| world := emit w (ListEv None) |}).
  destruct (syncObjects_spec s (s3.Contents resp) st0)
    as (E1 & T1 & F1 & N1 & K1 & L1 & C1 & R1 & H1).
  set (st := fold_left (syncObject s) (s3.Contents resp) st0) in *.
  destruct (removeLocals_spec (localFilesToRemove st) (world st))
    as (E2 & T2 & F2 & C2 & R2 & H2).
  set (w2 := fold_left removeLocal (localFilesToRemove st) (world st)) in *.
  simpl in T1, N1, L1, C1, H1.
  assert (Hkeep : forall q body,
             (forall m, m ∈ mediaList s -> os.resolve (disk w) (Path m) <> Some q) ->
             holds (disk w) q body -> holds (disk w2) q body).
  { intros q body Hne Hq. apply H2; [|by apply H1].
    intros p Hp. apply L1, list_elem_of_fmap in Hp as (m & -> & Hm).
    rewrite (resolve_cwd _ (disk w)) by done. by apply Hne. }
  destruct (0 <? syncCount st) eqn:Hn.
  - exists E1, E2, [ScanEv (length (scanned (config s) (disk w2)))],
           (localFilesToRemove st).
    repeat split; auto.
    + apply drop_old_events. simpl. rewrite T2, T1. simpl.
      by rewrite <- !app_assoc.
    + right. apply Nat.ltb_lt in Hn. split; [lia|]. eauto.
  - exists E1, E2, [], (localFilesToRemove st).
    repeat split; auto.
    + apply drop_old_events. simpl. rewrite T2, T1. simpl.
      by rewrite <- !app_assoc, app_nil_r.
    + left. apply Nat.ltb_ge in Hn. repeat split; auto. lia.
Qed.

(** A cycle without a client or without a listing. *)
Lemma syncFromS3_idle s w :
  s3Client s = None \/ (exists e, listing s w = Err e) ->
  fst (syncFromS3 s w) = s /\
  disk (snd (syncFromS3 s w)) = disk w /\
  Forall (fun e => exists err, e = ListEv err) (cycleEvents s w).
Proof.
  unfold cycleEvents, syncFromS3, listing.
  destruct (s3Client s) as [client|].
  - intros [|[e ->]]; [done|]. simpl. rewrite drop_app_length.
    repeat split; auto. repeat constructor. eauto.
  - intros _. simpl. rewrite drop_all. by repeat split.
Qed.

Lemma removals_are_removals E2 rm :
  Forall2 (fun e p => exists err, e = RemoveEv p err) E2 rm ->
  Forall (fun e => exists p err, e = RemoveEv p err /\ p ∈ rm) E2.
Proof.
  induction 1 as [|e p E2 rm [err ->] _ IH]; constructor.
  - exists p, err. split; [done | by left].
  - eapply Forall_impl; [exact IH|]. intros e (p' & err' & -> & Hp).
    exists p', err'. split; [done | by right].
Qed.

(** The events of any cycle, with or without a listing: at most one
    listing event, the first loop, the removals, at most one scan. *)
Lemma cycle_shape s w :
  exists E0 E1 E2 E3,
    cycleEvents s w = E0 ++ E1 ++ E2 ++ E3 /\
    Forall (fun e => exists err, e = ListEv err) E0 /\
    Forall (fun e => isFirstLoop e = true) E1 /\
    Forall (fun e => exists p err,
                e = RemoveEv p err /\ p ∈ map Path (mediaList s)) E2 /\
    Forall (fun e => isScan e = true) E3 /\
    (fetchedCount E1 = 0 -> E3 = [] /\ fst (syncFromS3 s w) = s).
Proof.
  destruct (s3Client s) as [client|] eqn:Hc.
  - destruct (listing s w) as [resp|e] eqn:Hl.
    + destruct (syncFromS3_spec s w client resp Hc Hl)
        as (E1 & E2 & E3 & rm & Hev & F1 & _ & F2 & Hrm & Hscan & _).
      exists [ListEv None], E1, E2, E3. repeat split; auto.
      * repeat constructor. eauto.
      * eapply Forall_impl; [by apply removals_are_removals|].
        intros e (p & err & -> & Hp). eauto.
      * destruct Hscan as [(_ & -> & _)|(_ & l & -> & _)]; by repeat constructor.
      * destruct Hscan as [(_ & ? & _)|(? & _)]; [done | lia].
      * destruct Hscan as [(_ & _ & ?)|(? & _)]; [done | lia].
    + destruct (syncFromS3_idle s w) as (Hs & _ & Hev); [eauto|].
      exists (cycleEvents s w), [], [], []. rewrite !app_nil_r.
      repeat split; auto.
  - destruct (syncFromS3_idle s w) as (Hs & _ & Hev); [eauto|].
    exists (cycleEvents s w), [], [], []. rewrite !app_nil_r.
    repeat split; auto.
Qed.

Lemma fetchedCount_none evs :
  Forall (fun e => isFetched e = false) evs -> fetchedCount evs = 0.
Proof.
  unfold fetchedCount. induction 1 as [|e evs He _ IH]; simpl; [done|].
  by rewrite He.
Qed.

(** C1. When the listing request fails, the cycle changes nothing: the
    server, and with it the published inventory, and the disk are as
    before, and no download, removal or scan is among its events. *)
Theorem listing_failure_changes_nothing s w e :
  listing s w = Err e ->
  fst (syncFromS3 s w) = s /\
  mediaList (fst (syncFromS3 s w)) = mediaList s /\
  disk (snd (syncFromS3 s w)) = disk w /\
  forall ev, ev ∈ cycleEvents s w ->
             isDownload ev = false /\ isRemove ev = false /\ isScan ev = false.
Proof.
  intros Hl. destruct (syncFromS3_idle s w) as (Hs & Hd & Hev); [eauto|].
  rewrite Hs. repeat split; auto;
    rewrite Forall_forall in Hev; destruct (Hev _ H) as [err ->]; done.
Qed.

Lemma listing_failure_changes_nothing_witness :
  let s := exServer [exMedia "a.mp4"] in
  let w := exWorld [("a.mp4", exFile "A")] s3Down in
  fst (syncFromS3 s w) = s /\
  mediaList (fst (syncFromS3 s w)) = mediaList s /\
  disk (snd (syncFromS3 s w)) = disk w /\
  forall ev, ev ∈ cycleEvents s w ->
             isDownload ev = false /\ isRemove ev = false /\ isScan ev = false.
Proof.
  apply (listing_failure_changes_nothing _ _ (RequestError "ListObjectsV2")).
  reflexivity.
Defined.

(** ** The turns of the first loop *)

Lemma syncObject_turn s st obj :
  exists evs,
    trace (world (syncObject s st obj)) = trace (world st) ++ evs /\
    match s3.Key obj with
    | Some key => turnOf s key evs
    | None => evs = []
    end.
Proof.
  unfold syncObject, turnOf.
  destruct (s3.Key obj) as [fileName|]; [|exists []; by rewrite app_nil_r].
  set (localPath := Join _ _).
  destruct (os.Stat _ localPath) as [info|e] eqn:Hstat.
  - exists [StatEv fileName localPath true].
    split; [by destruct (slices.Index _ _)|by left].
  - pose proof (downloadFromS3_spec s
                  (emit (world st) (StatEv fileName localPath false))
                  fileName localPath e Hstat) as (Ht & _).
    destruct (downloadFromS3 _ _ _ _) as [w' [err|]]; simpl in *.
    + exists [StatEv fileName localPath false; DownloadEv fileName localPath (Some err)].
      rewrite Ht, <- app_assoc. split; [done|]. right. eauto.
    + exists [StatEv fileName localPath false; DownloadEv fileName localPath None].
      rewrite Ht, <- app_assoc. split; [done|]. right. eauto.
Qed.

Lemma syncObjects_turns s objs : forall st,
  exists turns,
    trace (world (fold_left (syncObject s) objs st)) = trace (world st) ++ concat turns /\
    Forall2 (turnOf s) (omap s3.Key objs) turns.
Proof.
  induction objs as [|obj objs IH]; intros st; cbn [fold_left].
  - exists []. simpl. rewrite app_nil_r. split; [done|constructor].
  - destruct (syncObject_turn s st obj) as (evs & T1 & Hturn).
    destruct (IH (syncObject s st obj)) as (turns & T2 & F2).
    change (omap s3.Key (obj :: objs))
      with (match s3.Key obj with
            | Some k => k :: omap s3.Key objs
            | None => omap s3.Key objs
            end).
    destruct (s3.Key obj) as [key|].
    + exists (evs :: turns). rewrite T2, T1. cbn [concat].
      rewrite <- app_assoc. split; [done|by constructor].
    + subst evs. exists turns. rewrite T2, T1, app_nil_r. done.
Qed.

Lemma turnOf_firstLoop s key evs :
  turnOf s key evs -> Forall (fun e => isFirstLoop e = true) evs.
Proof. intros [->|[err ->]]; by repeat constructor. Qed.

(** The events of a cycle that got its listing: the listing, the turn
    of every key of the listing in order, the removals, at most one
    scan. *)
Lemma cycle_turns s w client resp :
  s3Client s = Some client ->
  listing s w = Ok resp ->
  exists turns E2 E3,
    cycleEvents s w = ListEv None :: concat turns ++ E2 ++ E3 /\
    Forall2 (turnOf s) (omap s3.Key (s3.Contents resp)) turns /\
    Forall (fun e => isRemove e = true) E2 /\
    Forall (fun e => isScan e = true) E3.
Proof.
  intros Hc Hl. unfold cycleEvents.
  rewrite (syncFromS3_unfold s w client resp Hc Hl). cbv zeta.
  set (st0 := {| world := emit w (ListEv None) |}).
  destruct (syncObjects_turns s (s3.Contents resp) st0) as (turns & T1 & F1).
  set (st := fold_left (syncObject s) (s3.Contents resp) st0) in *.
  destruct (removeLocals_spec (localFilesToRemove st) (world st))
    as (E2 & T2 & F2 & _).
  cbv zeta in T2.
  set (w2 := fold_left removeLocal (localFilesToRemove st) (world st)) in *.
  simpl in T1.
  assert (R2 : Forall (fun e => isRemove e = true) E2).
  { apply removals_are_removals in F2. eapply Forall_impl; [exact F2|].
    by intros e (p & err & -> & _). }
  destruct (0 <? syncCount st).
  - exists turns, E2, [ScanEv (length (scanned (config s) (disk w2)))].
    split; [|by repeat constructor].
    apply drop_old_events. simpl. rewrite T2, T1. by rewrite <- !app_assoc.
  - exists turns, E2, []. split; [|by repeat constructor].
    apply drop_old_events. simpl. rewrite T2, T1.
    by rewrite <- !app_assoc, app_nil_r.
Qed.

Lemma first_loop_before_removals s w i j ei ej :
  cycleEvents s w !! i = Some ei ->
  cycleEvents s w !! j = Some ej ->
  isRemove ei = true ->
  isFirstLoop ej = true ->
  j < i.
Proof.
  destruct (cycle_shape s w) as (E0 & E1 & E2 & E3 & -> & F0 & F1 & F2 & F3 & _).
  rewrite Forall_forall in F0, F1, F2, F3.
  intros Hi Hj Ri Dj.
  (* the removal is not before the removals *)
  apply lookup_app_Some in Hi as [Hi|[Li Hi]].
  { apply list_elem_of_lookup_2, F0 in Hi as [err ->]. done. }
  apply lookup_app_Some in Hi as [Hi|[Li' Hi]].
  { apply list_elem_of_lookup_2, F1 in Hi. destruct ei; done. }
  (* the turn of the first loop is before them *)
  apply lookup_app_Some in Hj as [Hj|[Lj Hj]].
  { apply lookup_lt_Some in Hj. lia. }
  apply lookup_app_Some in Hj as [Hj|[Lj' Hj]].
  { apply lookup_lt_Some in Hj. lia. }
  apply lookup_app_Some in Hj as [Hj|[_ Hj]].
  - apply list_elem_of_lookup_2, F2 in Hj as (p & err & -> & _). done.
  - apply list_elem_of_lookup_2, F3 in Hj. destruct ej; done.
Qed.

Lemma removal_after_every_turn s w i ei :
  cycleEvents s w !! i = Some ei ->
  isRemove ei = true ->
  exists client resp turns removals,
    s3Client s = Some client /\
    listing s w = Ok resp /\
    Forall2 (turnOf s) (omap s3.Key (s3.Contents resp)) turns /\
    Forall (fun e => isRemove e = true) removals /\
    take i (cycleEvents s w) = ListEv None :: concat turns ++ removals.
Proof.
  intros Hi Ri.
  destruct (s3Client s) as [client|] eqn:Hc; cycle 1.
  { destruct (syncFromS3_idle s w) as (_ & _ & Hev); [by left|].
    rewrite Forall_forall in Hev.
    apply list_elem_of_lookup_2, Hev in Hi as [err ->]. done. }
  destruct (listing s w) as [resp|e] eqn:Hl; cycle 1.
  { destruct (syncFromS3_idle s w) as (_ & _ & Hev); [right; eauto|].
    rewrite Forall_forall in Hev.
    apply list_elem_of_lookup_2, Hev in Hi as [err ->]. done. }
  destruct (cycle_turns s w client resp Hc Hl) as (turns & E2 & E3 & He & Ft & F2 & F3).
  exists client, resp, turns, (take (i - S (length (concat turns))) E2).
  split; [done|]. split; [done|]. split; [done|].
  split; [by apply Forall_take|].
  assert (F1 : Forall (fun e => isFirstLoop e = true) (concat turns)).
  { clear -Ft. induction Ft as [|k evs ks turns Hk _ IH]; [constructor|].
    cbn [concat]. apply Forall_app. split; [by eapply turnOf_firstLoop|done]. }
  rewrite Forall_forall in F1, F3.
  rewrite He in Hi |- *.
  destruct i as [|i]; [by injection Hi as <-|].
  cbn [lookup list_lookup] in Hi. cbn [take]. f_equal.
  apply lookup_app_Some in Hi as [Hi|[Li Hi]].
  { apply list_elem_of_lookup_2, F1 in Hi. destruct ei; done. }
  apply lookup_app_Some in Hi as [Hi|[_ Hi]].
  - apply lookup_lt_Some in Hi.
    rewrite take_app_ge by done. f_equal.
    change (S i - S (length (concat turns))) with (i - length (concat turns)).
    by rewrite take_app_le by lia.
  - apply list_elem_of_lookup_2, F3 in Hi. destruct ei; done.
Qed.

(** C6. In the events of one cycle every turn of the first loop, the
    checks and the downloads, comes before every removal.  A removal
    comes only when the first loop has gone through every key of the
    listing: what precedes it is the listing, then for each key of the
    listing, in its order, the turn of the key (the check, and the
    download when the check found nothing), then removals.  And a cycle
    that got its listing does go through every key: its events are the
    listing, the turn of each key, the removals and at most one scan. *)
Theorem downloads_precede_removals s w :
  (forall i j ei ej,
      cycleEvents s w !! i = Some ei ->
      cycleEvents s w !! j = Some ej ->
      isRemove ei = true ->
      isFirstLoop ej = true ->
      j < i) /\
  (forall i ei,
      cycleEvents s w !! i = Some ei ->
      isRemove ei = true ->
      exists client resp turns removals,
        s3Client s = Some client /\
        listing s w = Ok resp /\
        Forall2 (turnOf s) (omap s3.Key (s3.Contents resp)) turns /\
        Forall (fun e => isRemove e = true) removals /\
        take i (cycleEvents s w) = ListEv None :: concat turns ++ removals) /\
  (forall client resp,
      s3Client s = Some client ->
      listing s w = Ok resp ->
      exists turns removals scans,
        cycleEvents s w = ListEv None :: concat turns ++ removals ++ scans /\
        Forall2 (turnOf s) (omap s3.Key (s3.Contents resp)) turns /\
        Forall (fun e => isRemove e = true) removals /\
        Forall (fun e => isScan e = true) scans).
Proof.
  split; [|split].
  - apply first_loop_before_removals.
  - apply removal_after_every_turn.
  - apply cycle_turns.
Qed.

Lemma downloads_precede_removals_witness :
  let s := exOldServer in
  let w := exWorld exOldEntries exStore in
  let evs := cycleEvents s w in
  evs !! 3 = Some (RemoveEv "media/old.mp4" None) /\
  evs !! 2 = Some (DownloadEv "new.mp4" "media/new.mp4" None) /\
  2 < 3 /\
  exists turns removals,
    Forall2 (turnOf s) ["new.mp4"] turns /\
    Forall (fun e => isRemove e = true) removals /\
    take 3 evs = ListEv None :: concat turns ++ removals.
Proof.
  destruct (downloads_precede_removals exOldServer (exWorld exOldEntries exStore))
    as (Horder & Hprefix & _).
  split; [vm_compute; reflexivity|]. split; [vm_compute; reflexivity|]. split.
  - apply (Horder 3 2 (RemoveEv "media/old.mp4" None)
             (DownloadEv "new.mp4" "media/new.mp4" None)); vm_compute; reflexivity.
  - destruct (Hprefix 3 (RemoveEv "media/old.mp4" None))
      as (client & resp & turns & removals & _ & Hl & Ht & Hr & He);
      [vm_compute; reflexivity|reflexivity|].
    exists turns, removals. split; [|done].
    assert (Hresp : Ok resp =
              Ok {| s3.Contents := [{| s3.Key := Some "new.mp4" |}];
                    s3.IsTruncated := false;
                    s3.NextContinuationToken := None |}) by (by rewrite <- Hl).
    injection Hresp as ->. exact Ht.
Defined.

(** C10. A cycle in which no download succeeded does not scan: the
    published inventory is the one it started with, and every path the
    cycle removed from the disk is still listed in it. *)
Theorem inventory_republished_only_after_a_download s w :
  fetchedCount (cycleEvents s w) = 0 ->
  mediaList (fst (syncFromS3 s w)) = mediaList s /\
  (forall ev, ev ∈ cycleEvents s w -> isScan ev = false) /\
  (forall p, RemoveEv p None ∈ cycleEvents s w ->
             p ∈ map Path (mediaList (fst (syncFromS3 s w)))).
Proof.
  destruct (cycle_shape s w) as (E0 & E1 & E2 & E3 & -> & F0 & F1 & F2 & F3 & Hno).
  rewrite !fetchedCount_app. intros Hz.
  destruct Hno as [-> ->]; [lia|]. rewrite app_nil_r.
  rewrite Forall_forall in F0, F1, F2.
  repeat split; auto.
  - intros ev [H|[H|H]%elem_of_app]%elem_of_app.
    + apply F0 in H as [err ->]. done.
    + apply F1 in H. by destruct ev.
    + apply F2 in H as (p & err & -> & _). done.
  - intros p [H|[H|H]%elem_of_app]%elem_of_app.
    + apply F0 in H as [err H]. done.
    + apply F1 in H. done.
    + apply F2 in H as (p' & err & [= <- <-] & Hp). done.
Qed.

Lemma inventory_republished_only_after_a_download_witness :
  let s := exOldServer in
  let w := exWorld exOldEntries exEmptyStore in
  RemoveEv "media/old.mp4" None ∈ cycleEvents s w /\
  lookup ["srv"; "media"; "old.mp4"] (tree (disk (snd (syncFromS3 s w)))) = None /\
  mediaList (fst (syncFromS3 s w)) = mediaList s /\
  (forall ev, ev ∈ cycleEvents s w -> isScan ev = false) /\
  (forall p, RemoveEv p None ∈ cycleEvents s w ->
             p ∈ map Path (mediaList (fst (syncFromS3 s w)))).
Proof.
  split; [vm_compute; apply list_elem_of_In; simpl; tauto|].
  split; [vm_compute; reflexivity|].
  apply (inventory_republished_only_after_a_download
           exOldServer (exWorld exOldEntries exEmptyStore)).
  vm_compute; reflexivity.
Defined.

(** C3. Every path a cycle hands to [os.Remove] is a path of the
    inventory the cycle started with, and a regular file at a place that
    no path of that inventory names is on the disk, with its content,
    after the cycle, whatever the remote listing says. *)
Theorem removals_within_published_inventory s w :
  (forall p err, RemoveEv p err ∈ cycleEvents s w -> p ∈ map Path (mediaList s)) /\
  (forall q body,
      holds (disk w) q body ->
      (forall m, m ∈ mediaList s -> os.resolve (disk w) (Path m) <> Some q) ->
      holds (disk (snd (syncFromS3 s w))) q body).
Proof.
  split.
  - destruct (cycle_shape s w) as (E0 & E1 & E2 & E3 & -> & F0 & F1 & F2 & F3 & _).
    rewrite Forall_forall in F0, F1, F2, F3.
    intros p err [H|[H|[H|H]%elem_of_app]%elem_of_app]%elem_of_app.
    + apply F0 in H as [? H]. done.
    + apply F1 in H. done.
    + apply F2 in H as (p' & err' & [= <- <-] & Hp). done.
    + apply F3 in H. done.
  - intros q body Hq Hne.
    destruct (s3Client s) as [client|] eqn:Hc.
    + destruct (listing s w) as [resp|e] eqn:Hl.
      * destruct (syncFromS3_spec s w client resp Hc Hl)
          as (_ & _ & _ & _ & _ & _ & _ & _ & _ & _ & Hk). auto.
      * destruct (syncFromS3_idle s w) as (_ & -> & _); eauto.
    + destruct (syncFromS3_idle s w) as (_ & -> & _); eauto.
Qed.

Lemma removals_within_published_inventory_witness :
  let s := exOldServer in
  let w := exWorld exOldEntries exEmptyStore in
  holds (disk w) ["srv"; "media"; "local.mov"] (list_byte_of_string "L") /\
  holds (disk (snd (syncFromS3 s w))) ["srv"; "media"; "local.mov"]
        (list_byte_of_string "L") /\
  lookup ["srv"; "media"; "old.mp4"] (tree (disk (snd (syncFromS3 s w)))) = None.
Proof.
  split; [reflexivity|]. split; [|vm_compute; reflexivity].
  apply (proj2 (removals_within_published_inventory
                  exOldServer (exWorld exOldEntries exEmptyStore))).
  - reflexivity.
  - intros m Hm. apply list_elem_of_In in Hm. simpl in Hm.
    destruct Hm as [<-|[]]. vm_compute. discriminate.
Defined.

(** ** [downloadFromS3] writes at the final path *)

Lemma updateAt_writeFile_lookup body p : forall n n',
  updateAt (os.writeFile body) p n = Some n' ->
  lookup p n' = Some (FileNode body).
Proof.
  induction p as [|c p IH]; intros n n' Hup; [done|].
  destruct n as [|r ents|]; try (rewrite updateAt_not_dir in Hup; done).
  destruct p as [|c2 p].
  - rewrite updateAt_last in Hup.
    destruct (getEntry c ents) as [[| |]|]; simpl in Hup; inversion Hup;
      simpl; by rewrite getEntry_putEntry_eq.
  - rewrite updateAt_cons in Hup.
    destruct (getEntry c ents) as [child|]; [|done].
    destruct (updateAt _ (c2 :: p) child) as [child'|] eqn:Hu; inversion Hup.
    change (lookup (c :: c2 :: p) (DirNode r (putEntry c child' ents)))
      with (match getEntry c (putEntry c child' ents) with
            | Some ch => lookup (c2 :: p) ch
            | None => None
            end).
    rewrite getEntry_putEntry_eq. eauto.
Qed.

(** A file that was written can be written again. *)
Lemma updateAt_writeFile_again body body' p : forall n n',
  updateAt (os.writeFile body) p n = Some n' ->
  exists n'', updateAt (os.writeFile body') p n' = Some n''.
Proof.
  induction p as [|c p IH]; intros n n' Hup; [done|].
  destruct n as [|r ents|]; try (rewrite updateAt_not_dir in Hup; done).
  destruct p as [|c2 p].
  - rewrite updateAt_last in Hup.
    destruct (getEntry c ents) as [[| |]|]; simpl in Hup; inversion Hup;
      rewrite updateAt_last, getEntry_putEntry_eq; simpl; eauto.
  - rewrite updateAt_cons in Hup.
    destruct (getEntry c ents) as [child|]; [|done].
    destruct (updateAt _ (c2 :: p) child) as [child'|] eqn:Hu; inversion Hup.
    rewrite updateAt_cons, getEntry_putEntry_eq.
    destruct (IH _ _ Hu) as [n'' ->]. eauto.
Qed.

(** Writing makes one regular file and no other. *)
Lemma updateAt_writeFile_inv body p : forall n n' q b,
  updateAt (os.writeFile body) p n = Some n' ->
  lookup q n' = Some (FileNode b) ->
  q = p \/ lookup q n = Some (FileNode b).
Proof.
  induction p as [|c p IH]; intros n n' q b Hup Hq; [done|].
  destruct n as [|r ents|]; try (rewrite updateAt_not_dir in Hup; done).
  destruct q as [|c' q].
  { destruct p; [rewrite updateAt_last in Hup|rewrite updateAt_cons in Hup];
      repeat case_match; simplify_eq. }
  destruct (decide (c = c')) as [<-|Hc].
  - destruct p as [|c2 p].
    + rewrite updateAt_last in Hup.
      destruct (getEntry c ents) as [[| |]|] eqn:Hg; simpl in Hup; inversion Hup;
        subst n'; simpl in Hq; rewrite getEntry_putEntry_eq in Hq;
        destruct q; simplify_eq; auto.
    + rewrite updateAt_cons in Hup.
      destruct (getEntry c ents) as [child|] eqn:Hg; [|done].
      destruct (updateAt _ (c2 :: p) child) as [child'|] eqn:Hu; inversion Hup.
      subst n'. simpl in Hq. rewrite getEntry_putEntry_eq in Hq.
      destruct (IH _ _ _ _ Hu Hq) as [->|H]; [by left|right].
      simpl. by rewrite Hg.
  - right. simpl.
    destruct p as [|c2 p].
    + rewrite updateAt_last in Hup.
      destruct (getEntry c ents) as [[| |]|]; simpl in Hup; inversion Hup;
        subst n'; simpl in Hq; by rewrite getEntry_putEntry_ne in Hq.
    + rewrite updateAt_cons in Hup.
      destruct (getEntry c ents) as [child|]; [|done].
      destruct (updateAt _ (c2 :: p) child) as [child'|]; inversion Hup.
      subst n'. simpl in Hq. by rewrite getEntry_putEntry_ne in Hq.
Qed.

Lemma mkdirAll_file_inv p : forall n n' q b,
  mkdirAll p n = Some n' ->
  lookup q n' = Some (FileNode b) ->
  lookup q n = Some (FileNode b).
Proof.
  induction p as [|c p IH]; intros n n' q b Hmk Hq.
  - destruct n; simpl in Hmk; congruence.
  - destruct n as [|r ents|]; try discriminate.
    simpl in Hmk.
    destruct (mkdirAll p _) as [child'|] eqn:Hm; [|discriminate].
    inversion Hmk; subst n'.
    destruct q as [|c' q]; [discriminate|]. simpl in Hq |- *.
    destruct (decide (c = c')) as [<-|Hc].
    + rewrite getEntry_putEntry_eq in Hq.
      destruct (getEntry c ents) as [child|].
      * eapply IH; eauto.
      * apply (IH _ _ _ _ Hm) in Hq. by destruct q.
    + by rewrite getEntry_putEntry_ne in Hq.
Qed.

(** C7, as the code has it.  There is no temporary path and no rename:
    once the directory is made, the request answered and the file created
    at the final path, the bytes the body delivered are the content of the
    file at the final path, whether the transfer ended well or in an
    error, which is what the call returns; and the download makes no
    other regular file. *)
Theorem download_writes_at_final_path s w key localPath q resp d1 :
  os.resolve (disk w) localPath = Some q ->
  os.MkdirAll (disk w) (Dir localPath) = (d1, None) ->
  s3.GetObject (remote w)
    {| s3.GetBucket := S3Bucket (config s); s3.GetKey := key |} = Ok resp ->
  snd (os.Create d1 localPath) = None ->
  snd (downloadFromS3 s w key localPath) = s3.readError resp /\
  holds (disk (fst (downloadFromS3 s w key localPath))) q (s3.delivered resp) /\
  forall q' b,
    holds (disk (fst (downloadFromS3 s w key localPath))) q' b ->
    q' = q \/ holds (disk w) q' b.
Proof.
  intros Hq Hmk Hget Hcr. unfold downloadFromS3. rewrite Hmk. simpl. rewrite Hget.
  assert (Hc1 : cwd d1 = cwd (disk w)).
  { pose proof (MkdirAll_spec (disk w) (Dir localPath)) as [H _].
    by rewrite Hmk in H. }
  assert (Hinv1 : forall q' b, holds d1 q' b -> holds (disk w) q' b).
  { unfold os.MkdirAll, holds in *. intros q' b.
    destruct (os.resolve (disk w) (Dir localPath)) as [p|]; [|by simplify_eq].
    destruct (mkdirAll p (tree (disk w))) as [t|] eqn:Hm; simplify_eq.
    simpl. by apply mkdirAll_file_inv with (p := p). }
  rewrite <- (resolve_cwd d1 (disk w)) in Hq by done.
  unfold os.Create, os.write, holds in *. rewrite Hq in *.
  destruct (updateAt (os.writeFile []) q (tree d1)) as [t2|] eqn:Hu2; [|done].
  simpl. unfold os.resolve in *. simpl. rewrite Hq.
  destruct (updateAt_writeFile_again [] (s3.delivered resp) q _ _ Hu2) as [t3 Hu3].
  rewrite Hu3. simpl. repeat split.
  - by eapply updateAt_writeFile_lookup.
  - intros q' b Hb.
    destruct (updateAt_writeFile_inv _ _ _ _ _ _ Hu3 Hb) as [->|Hb2]; [by left|].
    destruct (updateAt_writeFile_inv _ _ _ _ _ _ Hu2 Hb2) as [->|Hb1]; [by left|].
    right. by apply Hinv1.
Qed.

Lemma download_writes_at_final_path_witness :
  let s := exServer [] in
  let w := exWorld [] s3Flaky in
  snd (downloadFromS3 s w "a.mp4" "media/a.mp4") = Some ReadError /\
  holds (disk (fst (downloadFromS3 s w "a.mp4" "media/a.mp4")))
        ["srv"; "media"; "a.mp4"] (list_byte_of_string "AB") /\
  forall q' b,
    holds (disk (fst (downloadFromS3 s w "a.mp4" "media/a.mp4"))) q' b ->
    q' = ["srv"; "media"; "a.mp4"] \/ holds (disk w) q' b.
Proof.
  apply (download_writes_at_final_path (exServer []) (exWorld [] s3Flaky)
           "a.mp4" "media/a.mp4" ["srv"; "media"; "a.mp4"]
           {| s3.delivered := list_byte_of_string "AB";
              s3.readError := Some ReadError |}
           (exDisk []));
    reflexivity.
Defined.

(** C7, the counterexample.  The transfer of [a.mp4] breaks after two
    bytes: [downloadFromS3] returns the error, and the final path, where
    there was nothing, now has the two-byte file. *)
Lemma failed_download_leaves_truncated_file :
  let s := exServer [] in
  let w := exWorld [] s3Flaky in
  snd (downloadFromS3 s w "a.mp4" "media/a.mp4") = Some ReadError /\
  lookup ["srv"; "media"; "a.mp4"] (tree (disk w)) = None /\
  lookup ["srv"; "media"; "a.mp4"]
         (tree (disk (fst (downloadFromS3 s w "a.mp4" "media/a.mp4"))))
  = Some (FileNode (list_byte_of_string "AB")).
Proof.
  split; [vm_compute; reflexivity|]. split; vm_compute; reflexivity.
Qed.

(** ** The keys a cycle works on *)

Lemma keysOf_no_stat evs :
  Forall (fun e => isStat e = false) evs -> keysOf evs = [].
Proof.
  induction 1 as [|e evs He _ IH]; [done|]. unfold keysOf in *. simpl.
  destruct e; done.
Qed.

(** The keys of a cycle are the keys of [resp.Contents], in order. *)
Lemma cycle_keys s w client resp :
  s3Client s = Some client ->
  listing s w = Ok resp ->
  keysOf (cycleEvents s w) = omap s3.Key (s3.Contents resp).
Proof.
  intros Hc Hl.
  destruct (syncFromS3_spec s w client resp Hc Hl)
    as (E1 & E2 & E3 & rm & -> & _ & K1 & F2 & _ & Hscan & _).
  change (ListEv None :: E1 ++ E2 ++ E3) with ([ListEv None] ++ E1 ++ E2 ++ E3).
  rewrite !keysOf_app, K1.
  rewrite (keysOf_no_stat E2), (keysOf_no_stat E3), app_nil_r; [done| |].
  - destruct Hscan as [(_ & -> & _)|(_ & l & -> & _)]; by repeat constructor.
  - apply removals_are_removals in F2. eapply Forall_impl; [exact F2|].
    by intros e (p & err & -> & _).
Qed.

Lemma bucket_listing s w name objs :
  S3Bucket (config s) = name ->
  remote w = s3.bucket name objs ->
  exists resp, listing s w = Ok resp /\
    omap s3.Key (s3.Contents resp) = take s3.maxKeys (map fst objs).
Proof.
  intros Hn Hr. unfold listing. rewrite Hr, Hn. unfold s3.bucket.
  cbn [s3.ListObjectsV2 s3.Bucket s3.ContinuationToken].
  rewrite String.eqb_refl. eexists. split; [reflexivity|].
  cbn [s3.Contents]. rewrite <- fmap_take.
  generalize (take s3.maxKeys objs). intros l.
  induction l as [|[k v] l IH]; [done|]. cbn. by rewrite <- IH.
Qed.

(** C8, as the code has it.  The cycle sends one listing request, without
    a continuation token, and works on the keys of its answer: the first
    [maxKeys] keys of the bucket.  These are all the keys of the bucket
    exactly when it holds no more than [maxKeys] objects. *)
Theorem reconciler_uses_first_page s w client name objs :
  s3Client s = Some client ->
  S3Bucket (config s) = name ->
  remote w = s3.bucket name objs ->
  keysOf (cycleEvents s w) = take s3.maxKeys (map fst objs) /\
  (keysOf (cycleEvents s w) = map fst objs <-> length objs <= s3.maxKeys).
Proof.
  intros Hc Hn Hr.
  destruct (bucket_listing s w name objs Hn Hr) as (resp & Hl & Hk).
  rewrite (cycle_keys s w client resp Hc Hl), Hk. split; [done|]. split.
  - intros H. apply (f_equal length) in H.
    rewrite length_take, length_map in H. lia.
  - intros H. apply take_ge. by rewrite length_map.
Qed.

Lemma reconciler_uses_first_page_witness :
  let s := exServer [] in
  let w := exWorld [] exStore in
  keysOf (cycleEvents s w) = ["new.mp4"] /\
  (keysOf (cycleEvents s w) = ["new.mp4"] <-> 1 <= s3.maxKeys).
Proof.
  apply (reconciler_uses_first_page (exServer []) (exWorld [] exStore)
           {| s3.Region := "sa-east-1" |} "signage"
           [("new.mp4", list_byte_of_string "N")]);
    reflexivity.
Defined.

(** C8, the counterexample.  The bucket holds 1001 objects, the disk has
    a copy of each and the inventory lists them all.  The cycle works on
    1000 keys; the last key of the bucket is not among them, and the
    local copy of that object, taken to be gone from the bucket, is
    removed. *)
Lemma large_bucket_is_listed_in_part :
  let s := exServer (map (fun kv => exMedia (fst kv)) exManyObjects) in
  let w := exWorld (map (fun kv => (fst kv, FileNode (snd kv))) exManyObjects)
                   exLargeStore in
  existsb (String.eqb (exKey 1000)) (map fst exManyObjects) = true /\
  length (keysOf (cycleEvents s w)) = 1000 /\
  existsb (String.eqb (exKey 1000)) (keysOf (cycleEvents s w)) = false /\
  keysOf (cycleEvents s w) <> map fst exManyObjects /\
  lookup ["srv"; "media"; exKey 1000] (tree (disk w)) = Some (FileNode []) /\
  lookup ["srv"; "media"; exKey 1000] (tree (disk (snd (syncFromS3 s w)))) = None.
Proof.
  assert (H : length (keysOf (cycleEvents
                (exServer (map (fun kv => exMedia (fst kv)) exManyObjects))
                (exWorld (map (fun kv => (fst kv, FileNode (snd kv))) exManyObjects)
                         exLargeStore))) = 1000)
    by (vm_compute; reflexivity).
  split; [vm_compute; reflexivity|].
  split; [exact H|].
  split; [vm_compute; reflexivity|].
  split.
  { intros E.
    pose proof (eq_ind _ (fun l => length l = 1000) H _ E) as H2.
    vm_compute in H2. discriminate. }
  split; vm_compute; reflexivity.
Qed.

(** ** The walk of [scanMedia] *)

Lemma node_nested_ind (P : node -> Prop) :
  (forall body, P (FileNode body)) ->
  P BadNode ->
  (forall r ents, Forall (fun e => P (snd e)) ents -> P (DirNode r ents)) ->
  forall n, P n.
Proof.
  intros Hf Hb Hd. fix IH 1. intros [body|r ents|]; [apply Hf| |apply Hb].
  apply Hd. induction ents as [|[nm child] ents IHe]; constructor; [apply IH | exact IHe].
Qed.

Lemma beforeError_app_ok vs1 vs2 :
  firstError vs1 = None ->
  beforeError (vs1 ++ vs2) = vs1 ++ beforeError vs2 /\
  firstError (vs1 ++ vs2) = firstError vs2.
Proof.
  induction vs1 as [|v vs1 IH]; simpl; [done|].
  destruct (visitErr v); [done|]. intros H. destruct (IH H) as [-> ->]. done.
Qed.

Lemma beforeError_app_err vs1 vs2 e :
  firstError vs1 = Some e ->
  beforeError (vs1 ++ vs2) = beforeError vs1 /\
  firstError (vs1 ++ vs2) = Some e.
Proof.
  induction vs1 as [|v vs1 IH]; simpl; [done|].
  destruct (visitErr v); [done|]. intros H. destruct (IH H) as [-> ->]. done.
Qed.

Lemma firstError_pathError vs e :
  pathErrors vs -> firstError vs = Some e -> isPathError e.
Proof.
  induction 1 as [|v vs Hv _ IH]; simpl; [done|].
  destruct (visitErr v) as [e'|] eqn:E; [|done]. intros [= <-]. by apply Hv.
Qed.

Lemma accepted_app cfg vs1 vs2 :
  accepted cfg (vs1 ++ vs2) = accepted cfg vs1 ++ accepted cfg vs2.
Proof. unfold accepted. apply flat_map_app. Qed.

Lemma scanMedia_fn_ok cfg path info acc :
  scanMedia_fn cfg path info None acc =
  (acc ++ fst (scanMedia_fn cfg path info None []), None).
Proof.
  unfold scanMedia_fn. destruct info as [info|]; simpl; [|by rewrite app_nil_r].
  destruct (fs.IsDir info); simpl; [by rewrite app_nil_r|].
  destruct (supportedExts _); simpl; [done | by rewrite app_nil_r].
Qed.

Local Arguments scanMedia_fn : simpl never.

Lemma walkEach_bad {S} (fn : string -> option fs.FileInfo -> option error -> S -> S * option error)
      wc path nm es s :
  walkEach fn wc path ((nm, BadNode) :: es) s =
  let '(s, e) := fn (Join path nm) None (Some (PathError "lstat" (Join path nm))) s in
  match e with
  | Some e' => if isSkipDir e' then walkEach fn wc path es s else (s, Some e')
  | None => walkEach fn wc path es s
  end.
Proof. reflexivity. Qed.

Lemma walkEach_child {S} (fn : string -> option fs.FileInfo -> option error -> S -> S * option error)
      wc path nm child es s :
  child <> BadNode ->
  walkEach fn wc path ((nm, child) :: es) s =
  let '(s, e) := wc (Join path nm) nm child s in
  match e with
  | Some e' =>
      if negb (isDirNode child) || negb (isSkipDir e')
      then (s, Some e')
      else walkEach fn wc path es s
  | None => walkEach fn wc path es s
  end.
Proof. by destruct child. Qed.

Lemma walk_dir {S} (fn : string -> option fs.FileInfo -> option error -> S -> S * option error)
      path name readable ents s :
  walk fn path name (DirNode readable ents) s =
  let '(s, err1) :=
    fn path (Some {| fs.Name := name; fs.IsDir := true |})
       (if readable then None else Some (PathError "open" path)) s in
  match (if readable then None else Some (PathError "open" path)), err1 with
  | None, None => walkEach fn (walk fn) path ents s
  | _, _ => (s, err1)
  end.
Proof. reflexivity. Qed.

Lemma pathErrors_app vs1 vs2 : pathErrors vs1 -> pathErrors vs2 -> pathErrors (vs1 ++ vs2).
Proof. apply Forall_app_2. Qed.

Lemma beforeError_all vs : firstError vs = None -> beforeError vs = vs.
Proof.
  intros H. pose proof (beforeError_app_ok vs [] H) as [E _].
  by rewrite !app_nil_r in E.
Qed.

Lemma walk_visits cfg n : forall path name,
  (forall vs0, walk noteVisit path name n vs0 =
               (vs0 ++ fst (walk noteVisit path name n []), None)) /\
  pathErrors (fst (walk noteVisit path name n [])) /\
  forall acc, stopsAtError cfg (fst (walk noteVisit path name n [])) acc
                           (walk (scanMedia_fn cfg) path name n acc).
Proof.
  assert (Hleaf : forall path name m, isDirNode m = false ->
    (forall vs0, walk noteVisit path name m vs0 =
                 (vs0 ++ fst (walk noteVisit path name m []), None)) /\
    pathErrors (fst (walk noteVisit path name m [])) /\
    forall acc, stopsAtError cfg (fst (walk noteVisit path name m [])) acc
                             (walk (scanMedia_fn cfg) path name m acc)).
  { intros path name m Hm.
    assert (Hw : forall S' (fn : string -> option fs.FileInfo -> option error -> S' -> S' * option error) s,
               walk fn path name m s =
               fn path (Some {| fs.Name := name; fs.IsDir := false |}) None s)
      by (intros; by destruct m).
    rewrite !Hw. split; [intros; by rewrite Hw|].
    split; [by repeat constructor|].
    intros acc. unfold stopsAtError. rewrite Hw, scanMedia_fn_ok.
    cbn [noteVisit fst app beforeError firstError visitErr accepted flat_map
         visitPath visitInfo].
    by rewrite app_nil_r. }
  induction n as [body| |r ents IH] using node_nested_ind; intros path name;
    [by apply Hleaf | by apply Hleaf |].
  destruct r.
  2:{ (* the listing fails: one call, with the error *)
      split; [done|]. split; [repeat constructor; by intros e [= <-]|].
      intros acc. unfold stopsAtError. rewrite walk_dir. cbn. by rewrite app_nil_r. }
  (* a directory that can be listed: its own call, then the entries *)
  set (v0 := {| visitPath := path;
                visitInfo := Some {| fs.Name := name; fs.IsDir := true |};
                visitErr := None |}).
  assert (Hent :
    (forall vs0, walkEach noteVisit (walk noteVisit) path ents vs0 =
                 (vs0 ++ fst (walkEach noteVisit (walk noteVisit) path ents []), None)) /\
    pathErrors (fst (walkEach noteVisit (walk noteVisit) path ents [])) /\
    forall acc,
      stopsAtError cfg (fst (walkEach noteVisit (walk noteVisit) path ents [])) acc
        (walkEach (scanMedia_fn cfg) (walk (scanMedia_fn cfg)) path ents acc)).
  { clear v0. induction IH as [|[nm child] ents Hchild _ IHe].
    { split; [intros; cbn; by rewrite app_nil_r|].
      split; [constructor|]. intros acc. unfold stopsAtError. cbn.
      by rewrite app_nil_r. }
    destruct IHe as (Happ & Hpe & Hstop).
    set (rest := fst (walkEach noteVisit (walk noteVisit) path ents [])) in *.
    assert (Hdec : child = BadNode \/ child <> BadNode)
      by (destruct child; auto; right; discriminate).
    destruct Hdec as [->|Hbad].
    - (* lstat fails on the entry: one call, with the error *)
      set (vb := {| visitPath := Join path nm; visitInfo := None;
                    visitErr := Some (PathError "lstat" (Join path nm)) |}).
      assert (Hnote : forall vs0,
        walkEach noteVisit (walk noteVisit) path ((nm, BadNode) :: ents) vs0 =
        (vs0 ++ vb :: rest, None)).
      { intros vs0. rewrite walkEach_bad. cbn [noteVisit].
        rewrite (Happ (vs0 ++ _)). by rewrite <- !app_assoc. }
      split; [intros vs0; by rewrite (Hnote vs0), (Hnote [])|].
      rewrite (Hnote []). cbn [fst app]. split.
      + constructor; [|done]. by intros e [= <-].
      + intros acc. unfold stopsAtError. rewrite walkEach_bad. cbn.
        by rewrite app_nil_r.
    - cbn [snd] in Hchild. destruct (Hchild (Join path nm) nm) as (Happ1 & Hpe1 & Hstop1).
      set (vc := fst (walk noteVisit (Join path nm) nm child [])) in *.
      assert (Hnote : forall vs0,
        walkEach noteVisit (walk noteVisit) path ((nm, child) :: ents) vs0 =
        (vs0 ++ vc ++ rest, None)).
      { intros vs0. rewrite walkEach_child by done.
        rewrite Happ1. rewrite (Happ (vs0 ++ _)). by rewrite <- !app_assoc. }
      split; [intros vs0; by rewrite (Hnote vs0), (Hnote [])|].
      rewrite (Hnote []). cbn [fst app]. split; [by apply pathErrors_app|].
      intros acc. unfold stopsAtError in *. rewrite walkEach_child by done.
      rewrite Hstop1.
      destruct (firstError vc) as [e|] eqn:He.
      + pose proof (firstError_pathError _ _ Hpe1 He) as Hp.
        destruct (beforeError_app_err vc rest e He) as [-> ->].
        destruct e; try done. by rewrite orb_true_r.
      + destruct (beforeError_app_ok vc rest He) as [-> ->].
        rewrite Hstop, accepted_app, app_assoc. by rewrite (beforeError_all vc). }
  destruct Hent as (Happ & Hpe & Hstop).
  set (rest := fst (walkEach noteVisit (walk noteVisit) path ents [])) in *.
  assert (Hnote : forall vs0,
    walk noteVisit path name (DirNode true ents) vs0 = (vs0 ++ v0 :: rest, None)).
  { intros vs0. rewrite walk_dir. cbn [noteVisit].
    rewrite (Happ (vs0 ++ _)). by rewrite <- !app_assoc. }
  split; [intros vs0; by rewrite (Hnote vs0), (Hnote [])|].
  rewrite (Hnote []). cbn [fst app]. split.
  + constructor; [done|]. exact Hpe.
  + intros acc. unfold stopsAtError in *. rewrite walk_dir.
    rewrite scanMedia_fn_ok. rewrite Hstop.
    cbn. by rewrite app_nil_r.
Qed.

Lemma Walk_visits cfg d root :
  fst (Walk (scanMedia_fn cfg) d root []) =
  accepted cfg (beforeError (walkVisits d root)).
Proof.
  unfold walkVisits, Walk.
  assert (Hfail : forall e,
    fst (let '(s, err) := scanMedia_fn cfg root None (Some e) [] in
         match err with
         | Some SkipDir | Some SkipAll => (s, None)
         | _ => (s, err)
         end) =
    accepted cfg (beforeError (fst (
         let '(s, err) := noteVisit root None (Some e) [] in
         match err with
         | Some SkipDir | Some SkipAll => (s, None)
         | _ => (s, err)
         end)))) by (by intros []).
  destruct (os.resolve d root) as [p|]; [|apply Hfail].
  destruct (lookup p (tree d)) as [n|]; [|apply Hfail].
  assert (Hn : n = BadNode \/ n <> BadNode)
    by (destruct n; auto; right; discriminate).
  destruct Hn as [->|Hn]; [apply Hfail|].
  destruct (walk_visits cfg n root (Base root)) as (Happ & _ & Hstop).
  specialize (Hstop []). unfold stopsAtError in Hstop.
  replace (match n with
           | BadNode => scanMedia_fn cfg root None (Some (PathError "lstat" root)) []
           | _ => walk (scanMedia_fn cfg) root (Base root) n []
           end) with (walk (scanMedia_fn cfg) root (Base root) n [])
    by (by destruct n).
  replace (match n with
           | BadNode => noteVisit root None (Some (PathError "lstat" root)) []
           | _ => walk noteVisit root (Base root) n []
           end) with (walk noteVisit root (Base root) n [])
    by (by destruct n).
  rewrite Hstop, (Happ []). cbn [app fst].
  by destruct (firstError _) as [[]|].
Qed.

(** C5, as the code has it.  The function of [scanMedia] returns every
    error it is given, so the first error the walk reports, for the media
    directory itself, for an entry or for a directory below, ends the
    walk: what [scanMedia] publishes is the sorted list of the media
    files accepted in the calls before that error, and nothing of what
    the walk would have gone on to. *)
Theorem scan_stops_at_first_error cfg d :
  scanned cfg d =
  sort.Slice byName (accepted cfg (beforeError (walkVisits d (MediaDir cfg)))).
Proof.
  unfold scanned. rewrite <- Walk_visits.
  by destruct (Walk (scanMedia_fn cfg) d (MediaDir cfg) []).
Qed.

(** C5, the counterexample.  [lstat] fails on the entry between [a.mp4]
    and [z.mp4]: the scan publishes [a.mp4] alone, where a scan that
    skipped the entry and went on would publish both. *)
Lemma scan_does_not_skip_a_failed_entry :
  scanned exConfig (exDisk exBrokenEntries) = [exMedia "a.mp4"] /\
  scannedSkippingErrors exConfig (exDisk exBrokenEntries)
  = [exMedia "a.mp4"; exMedia "z.mp4"] /\
  scanned exConfig (exDisk exBrokenEntries)
  <> scannedSkippingErrors exConfig (exDisk exBrokenEntries).
Proof.
  split; [vm_compute; reflexivity|]. split; [vm_compute; reflexivity|].
  vm_compute. discriminate.
Qed.

(** ** Two cycles in a row *)

(** C2, evaluated.  The inventory lists [a.mp4], the disk does not have
    it, the bucket does.  The first cycle downloads [a.mp4] and then
    removes it, as a path of the inventory that no turn of the first loop
    struck off; the scan finds nothing.  The second cycle, the bucket
    being the same, downloads [a.mp4] again. *)
Lemma second_cycle_downloads_again :
  let s1 := fst (syncFromS3 exStaleServer exStaleWorld) in
  let w1 := snd (syncFromS3 exStaleServer exStaleWorld) in
  cycleEvents exStaleServer exStaleWorld =
    [ListEv None;
     StatEv "a.mp4" "media/a.mp4" false;
     DownloadEv "a.mp4" "media/a.mp4" None;
     RemoveEv "media/a.mp4" None;
     ScanEv 0] /\
  mediaList s1 = [] /\
  cycleEvents s1 w1 =
    [ListEv None;
     StatEv "a.mp4" "media/a.mp4" false;
     DownloadEv "a.mp4" "media/a.mp4" None;
     ScanEv 1] /\
  fetchedCount (cycleEvents s1 w1) = 1.
Proof.
  split; [vm_compute; reflexivity|]. split; [vm_compute; reflexivity|].
  split; vm_compute; reflexivity.
Qed.

(** The state the example starts from is one the program gets to by
    itself: a scan of a disk with [a.mp4], then a cycle against an empty
    bucket, which removes the file and leaves the inventory. *)
Lemma stale_inventory_is_reachable :
  let w := exWorld [("a.mp4", exFile "A")] exEmptyStore in
  let s0 := fst (scanMedia (exServer []) w) in
  let w0 := snd (scanMedia (exServer []) w) in
  fst (syncFromS3 s0 w0) = exStaleServer /\
  disk (snd (syncFromS3 s0 w0)) = disk exStaleWorld.
Proof. split; vm_compute; reflexivity. Qed.

(* ===================================================================== *)
(** * [sort.Slice] sorts *)

Section Sorting.

Context {A : Type}.
Variable less : A -> A -> bool.

(** [less] is a strict weak order. *)
Hypothesis less_irrefl : forall x, less x x = false.
Hypothesis less_trans :
  forall x y z, less x y = true -> less y z = true -> less x z = true.
Hypothesis notless_trans :
  forall x y z, less y x = false -> less z y = false -> less z x = false.

Implicit Types l d : list A.

Lemma less_notAfter x y : less x y = true -> notAfter less x y.
Proof.
  unfold notAfter. intros H. destruct (less y x) eqn:E; [|done].
  rewrite <- (less_irrefl x). symmetry. by eapply less_trans.
Qed.

Lemma notAfter_refl x : notAfter less x x.
Proof. apply less_irrefl. Qed.

Lemma notAfter_trans x y z : notAfter less x y -> notAfter less y z -> notAfter less x z.
Proof. unfold notAfter. eauto. Qed.

Lemma notAfter_total x y : notAfter less x y \/ notAfter less y x.
Proof.
  unfold notAfter. destruct (less y x) eqn:E; [|by left].
  right. by apply less_notAfter.
Qed.

(** ** The slice as an array *)

Lemma exch_involutive i j k : exch i j (exch i j k) = k.
Proof. unfold exch. repeat case_decide; congruence. Qed.

Lemma Swap_length (l : list A) i j : length (sort.Swap l i j) = length l.
Proof.
  unfold sort.Swap. destruct (l !! i), (l !! j); by rewrite ?length_insert.
Qed.

Lemma Swap_lookup (l : list A) i j k :
  i < length l -> j < length l -> sort.Swap l i j !! k = l !! exch i j k.
Proof.
  intros Hi Hj. unfold sort.Swap, exch.
  destruct (lookup_lt_is_Some_2 l i Hi) as [x Hx].
  destruct (lookup_lt_is_Some_2 l j Hj) as [y Hy].
  rewrite Hx, Hy.
  destruct (decide (k = i)) as [->|Hki].
  - rewrite list_lookup_insert_eq by (by rewrite length_insert). done.
  - rewrite list_lookup_insert_ne by done.
    destruct (decide (k = j)) as [->|Hkj].
    + rewrite list_lookup_insert_eq by done. done.
    + by rewrite list_lookup_insert_ne.
Qed.

Lemma Swap_out (l : list A) i j :
  length l <= i \/ length l <= j -> sort.Swap l i j = l.
Proof.
  unfold sort.Swap. intros [H|H].
  - by rewrite (lookup_ge_None_2 l i H).
  - rewrite (lookup_ge_None_2 l j H). by destruct (l !! i).
Qed.

Lemma Swap_Permutation (l : list A) i j : sort.Swap l i j ≡ₚ l.
Proof.
  destruct (decide (i < length l /\ j < length l)) as [[Hi Hj]|Hout].
  - apply Permutation_inj. split; [apply Swap_length|].
    exists (exch i j). split.
    + intros k1 k2 E. apply (f_equal (exch i j)) in E.
      by rewrite !exch_involutive in E.
    + intros k. by apply Swap_lookup.
  - rewrite Swap_out; [done|lia].
Qed.

Lemma Less_true (l : list A) i j :
  sort.Less less l i j = true ->
  exists x y, l !! i = Some x /\ l !! j = Some y /\ less x y = true.
Proof. unfold sort.Less. destruct (l !! i), (l !! j); naive_solver. Qed.

Lemma Less_lookup (l : list A) i j x y :
  l !! i = Some x -> l !! j = Some y -> sort.Less less l i j = less x y.
Proof. unfold sort.Less. by intros -> ->. Qed.

(** ** Exchanges inside a range *)

Lemma swaps_one a b l i j : a <= i < b -> a <= j < b -> swaps a b l (sort.Swap l i j).
Proof. intros. apply (swaps_step a b l i j); auto. constructor. Qed.

Lemma swaps_trans a b l1 l2 l3 : swaps a b l1 l2 -> swaps a b l2 l3 -> swaps a b l1 l3.
Proof.
  induction 1 as [|l i j l' Hi Hj _ IH]; [done|]. intros H.
  apply (swaps_step a b l i j); auto.
Qed.

Lemma swaps_mono a b a' b' l l' :
  a' <= a -> b <= b' -> swaps a b l l' -> swaps a' b' l l'.
Proof.
  intros Ha Hb. induction 1; [constructor|].
  apply (swaps_step a' b' l i j); auto; lia.
Qed.

Lemma swaps_length a b l l' : swaps a b l l' -> length l' = length l.
Proof. induction 1; [done|]. by rewrite IHswaps, Swap_length. Qed.

Lemma swaps_Permutation a b l l' : swaps a b l l' -> l' ≡ₚ l.
Proof. induction 1; [done|]. by rewrite IHswaps, Swap_Permutation. Qed.

Lemma swaps_outside a b l l' k :
  swaps a b l l' -> k < a \/ b <= k -> l' !! k = l !! k.
Proof.
  induction 1 as [|l i j l' Hi Hj _ IH]; [done|]. intros Hk. rewrite IH by done.
  destruct (decide (i < length l /\ j < length l)) as [[Hil Hjl]|Hout].
  - rewrite Swap_lookup by done. unfold exch. repeat case_decide; try lia. done.
  - rewrite Swap_out; [done|lia].
Qed.

Lemma swaps_allOn a b l l' P : swaps a b l l' -> allOn l a b P -> allOn l' a b P.
Proof.
  induction 1 as [|l i j l' Hi Hj _ IH]; [done|]. intros Hall. apply IH.
  intros k x Hk Hx.
  destruct (decide (i < length l /\ j < length l)) as [[Hil Hjl]|Hout].
  - rewrite Swap_lookup in Hx by done. eapply Hall; [|exact Hx].
    unfold exch. repeat case_decide; lia.
  - rewrite Swap_out in Hx; [eauto|lia].
Qed.

Lemma allOn_mono l a b a' b' (P : A -> Prop) :
  a <= a' -> b' <= b -> allOn l a b P -> allOn l a' b' P.
Proof. intros ?? H k x ??. eapply H; [|done]. lia. Qed.


(** ** Order inside the slice *)

Lemma sortedOn_short l a b : b <= a + 1 -> sortedOn less l a b.
Proof. intros H p q x y ???. lia. Qed.

Lemma sortedOn_mono l a b a' b' :
  a <= a' -> b' <= b -> sortedOn less l a b -> sortedOn less l a' b'.
Proof. intros ?? H p q x y ?????. eapply H; [| | |eassumption|eassumption]; lia. Qed.

(** Two ranges in order, the first not after the second, make one range
    in order. *)
Lemma sortedOn_join l a m b :
  sortedOn less l a m -> sortedOn less l m b ->
  relOn l a m m b (notAfter less) ->
  sortedOn less l a b.
Proof.
  intros H1 H2 H12 p q x y Hp Hpq Hq Hx Hy.
  destruct (decide (q < m)); [eapply H1; [| | |eassumption|eassumption]; lia|].
  destruct (decide (m <= p)); [eapply H2; [| | |eassumption|eassumption]; lia|].
  eapply H12; [| |eassumption|eassumption]; lia.
Qed.

Ltac inRange H := eapply H; [..|eassumption|eassumption]; lia.

(** Close a goal on two elements, found at [Hx] and [Hy], by one of the
    facts about ranges at hand. *)
Ltac byRange Hx Hy :=
  match goal with
  | H : sortedOn _ _ _ _ |- _ => eapply H; [| | |exact Hx|exact Hy]; lia
  | H : relOn _ _ _ _ _ _ |- _ => eapply H; [| |exact Hx|exact Hy]; lia
  end.

Ltac swapLookups :=
  repeat match goal with
         | H : sort.Swap _ _ _ !! _ = Some _ |- _ =>
             rewrite Swap_lookup in H by lia; unfold exch in H
         end;
  repeat case_decide; subst; try lia.

(** ** insertionSort_func *)

(** The inner loop of the insertion sort puts the element at [j] in its
    place among the elements of [a, j), which are in order, the elements
    of [j, i] being in order already and not before those of [a, j). *)
Lemma insertionSort_inner_spec a i : forall j d,
  a <= j <= i -> i < length d ->
  sortedOn less d a j -> sortedOn less d j (i + 1) ->
  relOn d a j (j + 1) (i + 1) (notAfter less) ->
  swaps a (i + 1) d (sort.insertionSort_inner less d a j) /\
  sortedOn less (sort.insertionSort_inner less d a j) a (i + 1).
Proof.
  assert (Hend : forall j d,
    a <= j <= i -> i < length d ->
    sortedOn less d a j -> sortedOn less d j (i + 1) ->
    relOn d a j (j + 1) (i + 1) (notAfter less) ->
    (a < j -> sort.Less less d j (j - 1) = false) ->
    sortedOn less d a (i + 1)).
  { intros j d Hj Hi H1 H2 H3 Hstop.
    destruct (decide (j = a)) as [->|Hja]; [done|].
    apply (sortedOn_join d a j (i + 1)); [done|done|].
    intros p q x y Hp Hq Hx Hy.
    destruct (decide (q = j)) as [->|Hqj]; [|inRange H3].
    destruct (lookup_lt_is_Some_2 d (j - 1)) as [z Hz]; [lia|].
    apply (notAfter_trans x z y).
    - destruct (decide (p = j - 1)) as [->|]; [|inRange H1].
      rewrite Hx in Hz. injection Hz as ->. apply notAfter_refl.
    - unfold notAfter. rewrite <- (Less_lookup d j (j - 1) y z) by done.
      apply Hstop. lia. }
  induction j as [|j IH]; intros d Hj Hi H1 H2 H3.
  { simpl. split; [constructor|]. eapply Hend; eauto. lia. }
  simpl. destruct (a <? S j) eqn:Haj; simpl.
  2:{ apply Nat.ltb_ge in Haj. split; [constructor|]. eapply Hend; eauto. lia. }
  apply Nat.ltb_lt in Haj.
  destruct (sort.Less less d (S j) j) eqn:HL.
  2:{ split; [constructor|]. eapply Hend; eauto. intros _.
      by replace (S j - 1) with j by lia. }
  apply Less_true in HL as (e & z & He & Hz & Hez).
  destruct (IH (sort.Swap d (S j) j)) as [Hsw Hso].
  - lia.
  - by rewrite Swap_length.
  - intros p q x y ??? Hx Hy. swapLookups; byRange Hx Hy.
  - (* the element put down is before the one it passed *)
    intros p q x y ??? Hx Hy.
    swapLookups; first [byRange Hx Hy | simplify_eq; by apply less_notAfter].
  - intros p q x y ?? Hx Hy. swapLookups; byRange Hx Hy.
  - split; [|done].
    eapply swaps_step; [| |exact Hsw]; lia.
Qed.

Lemma insertionSort_func_spec d a b :
  b <= length d ->
  swaps a b d (sort.insertionSort_func less d a b) /\
  sortedOn less (sort.insertionSort_func less d a b) a b.
Proof.
  intros Hb. unfold sort.insertionSort_func.
  destruct (decide (b <= a + 1)) as [Hshort|Hlong].
  { replace (b - (a + 1)) with 0 by lia. simpl.
    split; [constructor | by apply sortedOn_short]. }
  (* [a, a + 1 + n) is in order after [n] turns *)
  assert (H : forall n d0,
    a + 1 + n <= b -> length d0 = length d -> sortedOn less d0 a (a + 1) ->
    swaps a b d0 (fold_left (fun d i => sort.insertionSort_inner less d a i)
                            (seq (a + 1) n) d0) /\
    sortedOn less (fold_left (fun d i => sort.insertionSort_inner less d a i)
                        (seq (a + 1) n) d0) a (a + 1 + n)).
  { induction n as [|n IH]; intros d0 Hn Hlen Hs.
    { simpl. split; [constructor|]. by rewrite Nat.add_0_r. }
    rewrite seq_S, fold_left_app. simpl.
    destruct (IH d0) as [Hsw Hso]; [lia|done|done|].
    set (d1 := fold_left _ _ d0) in *.
    destruct (insertionSort_inner_spec a (a + 1 + n) (a + 1 + n) d1) as [Hsw2 Hso2].
    - lia.
    - rewrite (swaps_length _ _ _ _ Hsw). lia.
    - done.
    - apply sortedOn_short. lia.
    - intros p q x y ??. lia.
    - split.
      + eapply swaps_trans; [exact Hsw|]. eapply swaps_mono; [| |exact Hsw2]; lia.
      + by replace (a + 1 + S n) with (a + 1 + n + 1) by lia. }
  destruct (H (b - (a + 1)) d) as [Hsw Hso]; [lia|done|apply sortedOn_short; lia|].
  split; [done|]. by replace (a + 1 + (b - (a + 1))) with b in Hso by lia.
Qed.

(** ** The scans of the partitions *)

Lemma scanUp_spec p j : forall fuel i,
  j + 1 - i <= fuel -> i <= j + 1 ->
  i <= sort.scanUp fuel p i j <= j + 1 /\
  (forall k, i <= k < sort.scanUp fuel p i j -> p k = true) /\
  (sort.scanUp fuel p i j <= j -> p (sort.scanUp fuel p i j) = false).
Proof.
  induction fuel as [|fuel IH]; intros i Hf Hi; simpl.
  { repeat split; try lia. }
  destruct (i <=? j) eqn:Hij; simpl.
  2:{ apply Nat.leb_gt in Hij. repeat split; try lia. }
  apply Nat.leb_le in Hij.
  destruct (p i) eqn:Hp.
  2:{ repeat split; try lia. done. }
  destruct (IH (S i)) as (H1 & H2 & H3); [lia|lia|].
  repeat split; try lia; [|done].
  intros k Hk. destruct (decide (k = i)) as [->|]; [done|]. apply H2. lia.
Qed.

Lemma scanDown_spec p i : forall fuel j,
  j + 1 - i <= fuel -> 1 <= i -> i <= j + 1 ->
  i <= sort.scanDown fuel p i j + 1 /\ sort.scanDown fuel p i j <= j /\
  (forall k, sort.scanDown fuel p i j < k <= j -> p k = true) /\
  (i <= sort.scanDown fuel p i j -> p (sort.scanDown fuel p i j) = false).
Proof.
  induction fuel as [|fuel IH]; intros j Hf H1 Hi; simpl.
  { repeat split; try lia. }
  destruct (i <=? j) eqn:Hij; simpl.
  2:{ apply Nat.leb_gt in Hij. repeat split; try lia. }
  apply Nat.leb_le in Hij.
  destruct (p j) eqn:Hp.
  2:{ repeat split; try lia. done. }
  destruct (IH (j - 1)) as (H2 & H3 & H4 & H5); [lia|lia|lia|].
  repeat split; try lia; [|done].
  intros k Hk. destruct (decide (k = j)) as [->|]; [done|]. apply H4. lia.
Qed.

(** ** partition_func *)

Lemma partition_loop_spec pv a b : forall fuel d i j,
  j + 1 - i <= fuel -> parted less pv d a b i j ->
  exists d' m,
    sort.partition_loop less fuel d a i j = (d', m) /\
    swaps (a + 1) b d d' /\ parted less pv d' a b (m + 1) m.
Proof.
  induction fuel as [|fuel IH]; intros d i j Hf (Hb & Ha & Hi & Hij & Hj & Hlo & Hhi).
  { exists d, j. split; [done|]. split; [constructor|].
    replace i with (j + 1) in * by lia. by repeat split. }
  simpl.
  destruct (scanUp_spec (fun i => sort.Less less d i a) j (S j - i) i)
    as (Hi1 & Hup & Hupstop); [lia|lia|].
  set (i1 := sort.scanUp _ _ i j) in *.
  destruct (scanDown_spec (fun j => negb (sort.Less less d j a)) i1 (S j - i1) j)
    as (Hj1 & Hj1' & Hdown & Hdownstop); [lia|lia|lia|].
  set (j1 := sort.scanDown _ _ i1 j) in *.
  assert (Hlo1 : allOn d (a + 1) i1 (fun x => less x pv = true)).
  { intros k x Hk Hx. destruct (decide (k < i)); [by eapply Hlo; [|exact Hx]; lia|].
    rewrite <- (Less_lookup d k a x pv) by done. apply Hup. lia. }
  assert (Hhi1 : allOn d (j1 + 1) b (fun x => less x pv = false)).
  { intros k x Hk Hx. destruct (decide (j < k)); [by eapply Hhi; [|exact Hx]; lia|].
    rewrite <- (Less_lookup d k a x pv) by done.
    apply negb_true_iff. apply Hdown. lia. }
  destruct (j1 <? i1) eqn:Hcross.
  { apply Nat.ltb_lt in Hcross. exists d, j1. split; [done|]. split; [constructor|].
    replace (j1 + 1) with i1 by lia. by repeat split; try lia. }
  apply Nat.ltb_ge in Hcross.
  destruct (lookup_lt_is_Some_2 d i1) as [xi Hxi]; [lia|].
  destruct (lookup_lt_is_Some_2 d j1) as [xj Hxj]; [lia|].
  assert (Hxi' : less xi pv = false).
  { rewrite <- (Less_lookup d i1 a xi pv) by done. apply Hupstop. lia. }
  assert (Hxj' : less xj pv = true).
  { rewrite <- (Less_lookup d j1 a xj pv) by done.
    apply negb_false_iff. apply Hdownstop. lia. }
  assert (i1 <> j1) by (intros E; rewrite E in Hxi; congruence).
  destruct (IH (sort.Swap d i1 j1) (i1 + 1) (j1 - 1)) as (d' & m & E & Hsw & Hp); [lia| |].
  { repeat split; try lia.
    - by rewrite Swap_length.
    - rewrite Swap_lookup by lia. unfold exch. repeat case_decide; try lia. done.
    - intros k x Hk Hx. swapLookups; try congruence. eapply Hlo1; [|exact Hx]. lia.
    - intros k x Hk Hx. swapLookups; try congruence. eapply Hhi1; [|exact Hx]. lia. }
  exists d', m. split; [done|]. split; [|done].
  eapply swaps_step; [| |exact Hsw]; lia.
Qed.

Lemma parted_end pv d a b m :
  parted less pv d a b (m + 1) m ->
  swaps a b d (sort.Swap d m a) /\ partitioned less pv (sort.Swap d m a) a m b.
Proof.
  intros (Hb & Ha & Hi & _ & Hj & Hlo & Hhi).
  split; [apply swaps_one; lia|].
  split; [lia|]. split.
  { rewrite Swap_lookup by lia. unfold exch. by rewrite decide_True. }
  split; intros k x Hk Hx; swapLookups.
  - eapply Hlo; [|exact Hx]. lia.
  - eapply Hlo; [|exact Hx]. lia.
  - eapply Hhi; [|exact Hx]. lia.
Qed.

Lemma partition_func_spec d a b pivot pv :
  a <= pivot < b -> b <= length d -> d !! pivot = Some pv ->
  exists d' mid already,
    sort.partition_func less d a b pivot = (d', mid, already) /\
    swaps a b d d' /\ partitioned less pv d' a mid b.
Proof.
  intros Hp Hb Hpv. unfold sort.partition_func.
  set (d0 := sort.Swap d a pivot).
  assert (Hsw0 : swaps a b d d0) by (apply swaps_one; lia).
  assert (Hlen0 : length d0 = length d) by apply Swap_length.
  assert (Ha0 : d0 !! a = Some pv).
  { unfold d0. rewrite Swap_lookup by lia. unfold exch. by rewrite decide_True. }
  destruct (scanUp_spec (fun i => sort.Less less d0 i a) (b - 1) (S (b - 1) - (a + 1)) (a + 1))
    as (Hi1 & Hup & Hupstop); [lia|lia|].
  set (i1 := sort.scanUp _ _ (a + 1) (b - 1)) in *.
  destruct (scanDown_spec (fun j => negb (sort.Less less d0 j a)) i1 (S (b - 1) - i1) (b - 1))
    as (Hj1 & Hj1' & Hdown & Hdownstop); [lia|lia|lia|].
  set (j1 := sort.scanDown _ _ i1 (b - 1)) in *.
  assert (Hlo1 : allOn d0 (a + 1) i1 (fun x => less x pv = true)).
  { intros k x Hk Hx.
    rewrite <- (Less_lookup d0 k a x pv) by done. apply Hup. lia. }
  assert (Hhi1 : allOn d0 (j1 + 1) b (fun x => less x pv = false)).
  { intros k x Hk Hx.
    rewrite <- (Less_lookup d0 k a x pv) by done.
    apply negb_true_iff. apply Hdown. lia. }
  destruct (j1 <? i1) eqn:Hcross.
  { apply Nat.ltb_lt in Hcross.
    destruct (parted_end pv d0 a b j1) as [Hsw Hpart].
    { replace (j1 + 1) with i1 by lia. repeat split; try lia; done. }
    eexists _, _, _. split; [reflexivity|]. split; [|done].
    by eapply swaps_trans. }
  apply Nat.ltb_ge in Hcross.
  destruct (lookup_lt_is_Some_2 d0 i1) as [xi Hxi]; [lia|].
  destruct (lookup_lt_is_Some_2 d0 j1) as [xj Hxj]; [lia|].
  assert (Hxi' : less xi pv = false).
  { rewrite <- (Less_lookup d0 i1 a xi pv) by done. apply Hupstop. lia. }
  assert (Hxj' : less xj pv = true).
  { rewrite <- (Less_lookup d0 j1 a xj pv) by done.
    apply negb_false_iff. apply Hdownstop. lia. }
  assert (i1 <> j1) by (intros E; rewrite E in Hxi; congruence).
  destruct (partition_loop_spec pv a b (b - a) (sort.Swap d0 i1 j1) (i1 + 1) (j1 - 1))
    as (d' & m & E & Hsw & Hpd); [lia| |].
  { repeat split; try lia.
    - by rewrite Swap_length, Hlen0.
    - rewrite Swap_lookup by lia. unfold exch. repeat case_decide; try lia. done.
    - intros k x Hk Hx. swapLookups; try congruence. eapply Hlo1; [|exact Hx]. lia.
    - intros k x Hk Hx. swapLookups; try congruence. eapply Hhi1; [|exact Hx]. lia. }
  rewrite E.
  destruct (parted_end pv d' a b m Hpd) as [Hsw' Hpart].
  eexists _, _, _. split; [reflexivity|]. split; [|done].
  eapply swaps_trans; [exact Hsw0|].
  eapply swaps_trans; [|exact Hsw'].
  eapply swaps_step; [| |eapply swaps_mono; [| |exact Hsw]]; lia.
Qed.

(** ** partitionEqual_func *)

Lemma partitionEqual_loop_spec pv a b : forall fuel d i j,
  j + 1 - i <= fuel -> partedEqual less pv d a b i j ->
  exists d' m,
    sort.partitionEqual_loop less fuel d a i j = (d', m) /\
    swaps (a + 1) b d d' /\ a + 1 <= m <= b /\ length d' = length d /\
    d' !! a = Some pv /\
    allOn d' (a + 1) m (fun x => less pv x = false) /\
    allOn d' m b (fun x => less pv x = true).
Proof.
  induction fuel as [|fuel IH]; intros d i j Hf (Hb & Ha & Hi & Hij & Hj & Hlo & Hhi).
  { exists d, i. split; [done|]. split; [constructor|].
    assert (i = j + 1) as -> by lia. by repeat split; try lia. }
  simpl.
  destruct (scanUp_spec (fun i => negb (sort.Less less d a i)) j (S j - i) i)
    as (Hi1 & Hup & Hupstop); [lia|lia|].
  set (i1 := sort.scanUp _ _ i j) in *.
  destruct (scanDown_spec (fun j => sort.Less less d a j) i1 (S j - i1) j)
    as (Hj1 & Hj1' & Hdown & Hdownstop); [lia|lia|lia|].
  set (j1 := sort.scanDown _ _ i1 j) in *.
  assert (Hlo1 : allOn d (a + 1) i1 (fun x => less pv x = false)).
  { intros k x Hk Hx. destruct (decide (k < i)); [by eapply Hlo; [|exact Hx]; lia|].
    rewrite <- (Less_lookup d a k pv x) by done.
    apply negb_true_iff. apply Hup. lia. }
  assert (Hhi1 : allOn d (j1 + 1) b (fun x => less pv x = true)).
  { intros k x Hk Hx. destruct (decide (j < k)); [by eapply Hhi; [|exact Hx]; lia|].
    rewrite <- (Less_lookup d a k pv x) by done. apply Hdown. lia. }
  destruct (j1 <? i1) eqn:Hcross.
  { apply Nat.ltb_lt in Hcross. exists d, i1. split; [done|]. split; [constructor|].
    replace (j1 + 1) with i1 in * by lia. by repeat split; try lia. }
  apply Nat.ltb_ge in Hcross.
  destruct (lookup_lt_is_Some_2 d i1) as [xi Hxi]; [lia|].
  destruct (lookup_lt_is_Some_2 d j1) as [xj Hxj]; [lia|].
  assert (Hxi' : less pv xi = true).
  { rewrite <- (Less_lookup d a i1 pv xi) by done.
    apply negb_false_iff. apply Hupstop. lia. }
  assert (Hxj' : less pv xj = false).
  { rewrite <- (Less_lookup d a j1 pv xj) by done. apply Hdownstop. lia. }
  assert (i1 <> j1) by (intros E; rewrite E in Hxi; congruence).
  destruct (IH (sort.Swap d i1 j1) (i1 + 1) (j1 - 1))
    as (d' & m & E & Hsw & Hm & Hlen & Ha' & Hlo' & Hhi'); [lia| |].
  { repeat split; try lia.
    - by rewrite Swap_length.
    - rewrite Swap_lookup by lia. unfold exch. repeat case_decide; try lia. done.
    - intros k x Hk Hx. swapLookups; try congruence. eapply Hlo1; [|exact Hx]. lia.
    - intros k x Hk Hx. swapLookups; try congruence. eapply Hhi1; [|exact Hx]. lia. }
  exists d', m. split; [done|]. rewrite Swap_length in Hlen.
  repeat split; try done; try lia.
  eapply swaps_step; [| |exact Hsw]; lia.
Qed.

Lemma partitionEqual_func_spec d a b pivot pv :
  a <= pivot < b -> b <= length d -> d !! pivot = Some pv ->
  exists d' mid,
    sort.partitionEqual_func less d a b pivot = (d', mid) /\
    swaps a b d d' /\ a + 1 <= mid <= b /\
    allOn d' a mid (fun x => less pv x = false) /\
    allOn d' mid b (fun x => less pv x = true).
Proof.
  intros Hp Hb Hpv. unfold sort.partitionEqual_func.
  set (d0 := sort.Swap d a pivot).
  assert (Hsw0 : swaps a b d d0) by (apply swaps_one; lia).
  assert (Hlen0 : length d0 = length d) by apply Swap_length.
  assert (Ha0 : d0 !! a = Some pv).
  { unfold d0. rewrite Swap_lookup by lia. unfold exch. by rewrite decide_True. }
  destruct (partitionEqual_loop_spec pv a b (b - a) d0 (a + 1) (b - 1))
    as (d' & m & E & Hsw & Hm & Hlen & Ha' & Hlo' & Hhi'); [lia| |].
  { repeat split; try lia; try done; intros k x Hk; lia. }
  exists d', m. split; [done|]. split.
  { eapply swaps_trans; [exact Hsw0|]. eapply swaps_mono; [| |exact Hsw]; lia. }
  split; [lia|]. split; [|done].
  intros k x Hk Hx. destruct (decide (k = a)) as [->|].
  - rewrite Ha' in Hx. injection Hx as <-. apply less_irrefl.
  - eapply Hlo'; [|exact Hx]. lia.
Qed.

(** ** reverseRange_func, breakPatterns_func, choosePivot_func *)

Lemma reverseRange_loop_swaps a b : forall fuel d i j,
  a <= i -> j < b -> swaps a b d (sort.reverseRange_loop fuel d i j).
Proof.
  induction fuel as [|fuel IH]; intros d i j Hi Hj; simpl; [constructor|].
  destruct (i <? j) eqn:Hij; [|constructor]. apply Nat.ltb_lt in Hij.
  apply (swaps_step a b d i j); [lia|lia|]. apply IH; lia.
Qed.

Lemma reverseRange_func_swaps d a b :
  a < b -> swaps a b d (sort.reverseRange_func d a b).
Proof. intros. apply reverseRange_loop_swaps; lia. Qed.

Lemma nextPowerOfTwo_bound n r :
  0 < n -> N.to_nat (N.land r (sort.nextPowerOfTwo n - 1)) < 2 * n.
Proof.
  intros Hn. unfold sort.nextPowerOfTwo, sort.bits_Len.
  destruct n as [|n]; [lia|]. set (m := S n) in *.
  rewrite N.shiftl_1_l, N.sub_1_r, <- N.ones_equiv, N.land_ones.
  assert (H : (r mod 2 ^ N.of_nat (S (Nat.log2 m)) < 2 ^ N.of_nat (S (Nat.log2 m)))%N).
  { apply N.mod_lt. apply N.pow_nonzero. lia. }
  apply N.compare_lt_iff in H. rewrite N2Nat.inj_compare in H.
  apply Nat.compare_lt_iff in H.
  assert (E : N.to_nat (2 ^ N.of_nat (S (Nat.log2 m))) = 2 ^ S (Nat.log2 m)).
  { rewrite N2Nat.inj_pow, Nat2N.id. reflexivity. }
  rewrite E in H.
  destruct (Nat.log2_spec m) as [Hlo _]; [lia|].
  rewrite Nat.pow_succ_r' in H. lia.
Qed.

Lemma quarter_spec n : 4 * (n / 4) <= n < 4 * (n / 4) + 4.
Proof.
  pose proof (Nat.div_mod_eq n 4). pose proof (Nat.mod_upper_bound n 4). lia.
Qed.

Lemma breakPatterns_func_swaps d a b :
  swaps a b d (sort.breakPatterns_func d a b).
Proof.
  unfold sort.breakPatterns_func.
  destruct (8 <=? b - a) eqn:H8; [|constructor]. apply Nat.leb_le in H8.
  set (step := fun (st : list A * N) (i : nat) => _).
  assert (Hstep : forall st i, i < 3 -> swaps a b (fst st) (fst (step st i))).
  { intros [d0 r] i Hi. unfold step. cbn [fst].
    pose proof (nextPowerOfTwo_bound (b - a) (sort.xorshift_Next r)) as Hb.
    set (other := N.to_nat _) in *.
    pose proof (quarter_spec (b - a)).
    apply swaps_one; [lia|].
    destruct (b - a <=? other) eqn:Ho;
      [apply Nat.leb_le in Ho|apply Nat.leb_gt in Ho]; lia. }
  set (st0 := (d, N.of_nat (b - a))).
  change (swaps a b (fst st0) (fst (step (step (step st0 0) 1) 2))).
  eapply swaps_trans; [|apply (Hstep (step (step st0 0) 1) 2); lia].
  eapply swaps_trans; [|apply (Hstep (step st0 0) 1); lia].
  apply (Hstep st0 0). lia.
Qed.

Lemma order2_func_range d x y n x' y' n' :
  sort.order2_func less d x y n = (x', y', n') ->
  (x' = x /\ y' = y) \/ (x' = y /\ y' = x).
Proof. unfold sort.order2_func. destruct (sort.Less _ _ _ _); intros [= <- <- <-]; auto. Qed.

Lemma median_func_range d x y z n m n' :
  sort.median_func less d x y z n = (m, n') -> m = x \/ m = y \/ m = z.
Proof.
  unfold sort.median_func.
  destruct (sort.order2_func less d x y n) as [[x1 y1] n1] eqn:E1.
  destruct (sort.order2_func less d y1 z n1) as [[y2 z2] n2] eqn:E2.
  destruct (sort.order2_func less d x1 y2 n2) as [[x3 y3] n3] eqn:E3.
  intros [= <- <-].
  apply order2_func_range in E1, E2, E3. intuition congruence.
Qed.

Lemma medianAdjacent_func_range d x n m n' :
  sort.medianAdjacent_func less d x n = (m, n') -> m = x - 1 \/ m = x \/ m = x + 1.
Proof. apply median_func_range. Qed.

Lemma choosePivot_func_range d a b pivot hint :
  a < b -> sort.choosePivot_func less d a b = (pivot, hint) -> a <= pivot < b.
Proof.
  intros Hab. unfold sort.choosePivot_func.
  pose proof (quarter_spec (b - a)) as Hq.
  set (l := b - a) in *.
  assert (Hin : forall j n, (let '(j, swaps) := (j, n) in
             if swaps =? 0 then (j, sort.increasingHint)
             else if swaps =? sort.maxSwaps then (j, sort.decreasingHint)
             else (j, sort.unknownHint)) = (pivot, hint) -> pivot = j).
  { intros j n. by repeat case_match; intros [= <- <-]. }
  destruct (8 <=? l) eqn:H8.
  2:{ intros E. apply Hin in E. subst pivot.
      apply Nat.leb_gt in H8. unfold l in *. lia. }
  apply Nat.leb_le in H8.
  destruct (sort.shortestNinther <=? l) eqn:H50.
  - apply Nat.leb_le in H50. unfold sort.shortestNinther in H50.
    destruct (sort.medianAdjacent_func less d (a + l / 4 * 1) 0) as [i1 n1] eqn:E1.
    destruct (sort.medianAdjacent_func less d (a + l / 4 * 2) n1) as [j1 n2] eqn:E2.
    destruct (sort.medianAdjacent_func less d (a + l / 4 * 3) n2) as [k1 n3] eqn:E3.
    destruct (sort.median_func less d i1 j1 k1 n3) as [m n4] eqn:E4.
    intros E. apply Hin in E. subst pivot.
    apply medianAdjacent_func_range in E1, E2, E3. apply median_func_range in E4.
    unfold l in *. lia.
  - destruct (sort.median_func less d (a + l / 4 * 1) (a + l / 4 * 2) (a + l / 4 * 3) 0)
      as [m n4] eqn:E4.
    intros E. apply Hin in E. subst pivot.
    apply median_func_range in E4. unfold l in *. lia.
Qed.

(** ** partialInsertionSort_func *)

Lemma swaps_lowerBound a b a' b' d d' :
  a <= a' -> b' <= b ->
  swaps a' b' d d' -> lowerBound less d a b -> lowerBound less d' a b.
Proof.
  intros Ha Hb Hsw [->|(H0 & z & Hz & Hall)]; [by left|right].
  split; [done|]. exists z. split.
  - rewrite (swaps_outside _ _ _ _ _ Hsw); [done|lia].
  - eapply swaps_allOn; [|exact Hall]. eapply swaps_mono; [| |exact Hsw]; lia.
Qed.

Lemma sortedOn_outside c e l l' a b :
  swaps c e l l' -> b <= c \/ e <= a -> sortedOn less l a b -> sortedOn less l' a b.
Proof.
  intros Hsw Hout Hs p q x y Hp Hpq Hq Hx Hy.
  rewrite (swaps_outside _ _ _ _ _ Hsw) in Hx by lia.
  rewrite (swaps_outside _ _ _ _ _ Hsw) in Hy by lia.
  byRange Hx Hy.
Qed.

Lemma allOn_outside c e l l' a b P :
  swaps c e l l' -> b <= c \/ e <= a -> allOn l a b P -> allOn l' a b P.
Proof.
  intros Hsw Hout Hall k x Hk Hx.
  rewrite (swaps_outside _ _ _ _ _ Hsw) in Hx by lia. eapply Hall; [|exact Hx]. lia.
Qed.

(** One more element in order with the one before it. *)
Lemma sortedOn_snoc d a q :
  sortedOn less d a q -> q < length d ->
  (a < q -> sort.Less less d q (q - 1) = false) ->
  sortedOn less d a (q + 1).
Proof.
  intros Hs Hq Hadj.
  destruct (decide (a < q)) as [Haq|]; [|apply sortedOn_short; lia].
  intros p r x y Hp Hpr Hr Hx Hy.
  destruct (decide (r = q)) as [->|]; [|byRange Hx Hy].
  destruct (lookup_lt_is_Some_2 d (q - 1)) as [z Hz]; [lia|].
  apply (notAfter_trans x z y).
  - destruct (decide (p = q - 1)) as [->|]; [|byRange Hx Hz].
    rewrite Hx in Hz. injection Hz as ->. apply notAfter_refl.
  - unfold notAfter. rewrite <- (Less_lookup d q (q - 1) y z) by done. auto.
Qed.

Lemma sortedOn_extend d a i : forall n,
  sortedOn less d a i -> a < i -> i + n <= length d ->
  (forall k, i <= k < i + n -> sort.Less less d k (k - 1) = false) ->
  sortedOn less d a (i + n).
Proof.
  induction n as [|n IH]; intros Hs Ha Hlen Hadj.
  { by rewrite Nat.add_0_r. }
  replace (i + S n) with (i + n + 1) by lia.
  apply sortedOn_snoc; [|lia|].
  - apply IH; [done|done|lia|]. intros k Hk. apply Hadj. lia.
  - intros _. apply Hadj. lia.
Qed.

Lemma skipOrdered_spec d b : forall fuel i,
  b - i <= fuel -> i <= b ->
  i <= sort.skipOrdered less fuel d i b <= b /\
  (forall k, i <= k < sort.skipOrdered less fuel d i b ->
             sort.Less less d k (k - 1) = false) /\
  (sort.skipOrdered less fuel d i b < b ->
   sort.Less less d (sort.skipOrdered less fuel d i b)
             (sort.skipOrdered less fuel d i b - 1) = true).
Proof.
  induction fuel as [|fuel IH]; intros i Hf Hi; simpl.
  { repeat split; try lia. }
  destruct (i <? b) eqn:Hib; simpl.
  2:{ apply Nat.ltb_ge in Hib. repeat split; try lia. }
  apply Nat.ltb_lt in Hib.
  destruct (sort.Less less d i (i - 1)) eqn:HL; simpl.
  { repeat split; try lia. done. }
  destruct (IH (S i)) as (H1 & H2 & H3); [lia|lia|].
  repeat split; try lia; [|done].
  intros k Hk. destruct (decide (k = i)) as [->|]; [done|]. apply H2. lia.
Qed.

(** To the right of a lower bound the left shift, which stops at index 1,
    is the inner loop of the insertion sort, which stops at [a]. *)
Lemma shiftLeft_inner a b : forall j d,
  lowerBound less d a b -> a <= j < b -> b <= length d ->
  sort.shiftLeft less d j = sort.insertionSort_inner less d a j.
Proof.
  induction j as [|j IH]; intros d Hlb Hj Hb; [done|]. simpl.
  destruct (a <? S j) eqn:Haj; simpl.
  - apply Nat.ltb_lt in Haj.
    destruct (sort.Less less d (S j) j) eqn:HL; [|done].
    apply IH; [|lia|by rewrite Swap_length].
    eapply swaps_lowerBound; [| |apply (swaps_one a b d (S j) j)|done]; lia.
  - apply Nat.ltb_ge in Haj. assert (a = S j) as -> by lia.
    destruct Hlb as [|(_ & z & Hz & Hall)]; [done|].
    replace (S j - 1) with j in Hz by lia.
    destruct (lookup_lt_is_Some_2 d (S j)) as [x Hx]; [lia|].
    rewrite (Less_lookup d (S j) j x z) by done.
    assert (Hn : notAfter less z x) by (eapply Hall; [|exact Hx]; lia).
    unfold notAfter in Hn. by rewrite Hn.
Qed.

Lemma shiftRight_swaps i b : forall fuel d j,
  i < j -> swaps i b d (sort.shiftRight less fuel d j b).
Proof.
  induction fuel as [|fuel IH]; intros d j Hj; simpl; [constructor|].
  destruct (j <? b) eqn:Hjb; simpl; [|constructor]. apply Nat.ltb_lt in Hjb.
  destruct (sort.Less less d j (j - 1)); [|constructor].
  apply (swaps_step i b d j (j - 1)); [lia|lia|]. apply IH. lia.
Qed.

Lemma partialInsertionSort_loop_spec a b : forall steps d i,
  a + 1 <= i <= b -> b <= length d ->
  sortedOn less d a i -> lowerBound less d a b ->
  swaps a b d (fst (sort.partialInsertionSort_loop less steps d a b i)) /\
  (snd (sort.partialInsertionSort_loop less steps d a b i) = true ->
   sortedOn less (fst (sort.partialInsertionSort_loop less steps d a b i)) a b).
Proof.
  induction steps as [|steps IH]; intros d i Hi Hb Hs Hlb; simpl.
  { split; [constructor|done]. }
  destruct (skipOrdered_spec d b (b - i) i) as (Hi1 & Hadj & Hstop); [lia|lia|].
  set (i1 := sort.skipOrdered less (b - i) d i b) in *.
  assert (Hs1 : sortedOn less d a i1).
  { replace i1 with (i + (i1 - i)) by lia. apply sortedOn_extend; [done|lia|lia|].
    intros k Hk. apply Hadj. lia. }
  destruct (i1 =? b) eqn:Hend.
  { apply Nat.eqb_eq in Hend. simpl. split; [constructor|]. intros _. by rewrite <- Hend. }
  apply Nat.eqb_neq in Hend.
  destruct (b - a <? sort.shortestShifting); [simpl; split; [constructor|done]|].
  (* the pair out of order is exchanged, then each of the two shifted *)
  set (d1 := sort.Swap d i1 (i1 - 1)).
  assert (Hsw1 : swaps a b d d1) by (apply swaps_one; lia).
  assert (Hlen1 : length d1 = length d) by apply Swap_length.
  set (d2 := if 2 <=? i1 - a then sort.shiftLeft less d1 (i1 - 1) else d1).
  assert (H2 : swaps a b d1 d2 /\ sortedOn less d2 a i1).
  { unfold d2. destruct (2 <=? i1 - a) eqn:Hl.
    - apply Nat.leb_le in Hl.
      rewrite (shiftLeft_inner a b); [|by eapply swaps_lowerBound; [| |exact Hsw1|]|lia|lia].
      destruct (insertionSort_inner_spec a (i1 - 1) (i1 - 1) d1) as [Hsw Hso].
      + lia.
      + lia.
      + intros p q x y ??? Hx Hy. unfold d1 in Hx, Hy. swapLookups. byRange Hx Hy.
      + apply sortedOn_short. lia.
      + intros p q x y ??. lia.
      + replace (i1 - 1 + 1) with i1 in * by lia.
        split; [|done]. eapply swaps_mono; [| |exact Hsw]; lia.
    - apply Nat.leb_gt in Hl. split; [constructor|]. apply sortedOn_short. lia. }
  destruct H2 as [Hsw2 Hs2].
  assert (Hlen2 : length d2 = length d)
    by (by rewrite (swaps_length _ _ _ _ Hsw2)).
  set (d3 := if 2 <=? b - i1 then sort.shiftRight less (b - i1) d2 (i1 + 1) b else d2).
  assert (Hsw3 : swaps i1 b d2 d3).
  { unfold d3. destruct (2 <=? b - i1); [|constructor].
    apply shiftRight_swaps. lia. }
  destruct (IH d3 i1) as [Hsw Hso].
  - lia.
  - rewrite (swaps_length _ _ _ _ Hsw3). lia.
  - eapply sortedOn_outside; [exact Hsw3| |exact Hs2]. lia.
  - eapply swaps_lowerBound; [| |exact Hsw3|]; [lia|lia|].
    eapply swaps_lowerBound; [| |exact Hsw2|]; [lia|lia|].
    eapply swaps_lowerBound; [| |exact Hsw1|]; [lia|lia|done].
  - split; [|done].
    eapply swaps_trans; [exact Hsw1|].
    eapply swaps_trans; [exact Hsw2|].
    eapply swaps_trans; [|exact Hsw].
    eapply swaps_mono; [| |exact Hsw3]; lia.
Qed.

Lemma partialInsertionSort_func_spec d a b :
  a < b -> b <= length d -> lowerBound less d a b ->
  swaps a b d (fst (sort.partialInsertionSort_func less d a b)) /\
  (snd (sort.partialInsertionSort_func less d a b) = true ->
   sortedOn less (fst (sort.partialInsertionSort_func less d a b)) a b).
Proof.
  intros Hab Hb Hlb. apply partialInsertionSort_loop_spec; [lia|done| |done].
  apply sortedOn_short. lia.
Qed.

(** ** heapSort_func *)

Lemma Less_false_notAfter d i j x y :
  d !! i = Some x -> d !! j = Some y ->
  sort.Less less d i j = false -> notAfter less y x.
Proof. intros Hx Hy. by rewrite (Less_lookup d i j x y). Qed.

Lemma Less_true_notAfter d i j x y :
  d !! i = Some x -> d !! j = Some y ->
  sort.Less less d i j = true -> notAfter less x y.
Proof. intros Hx Hy. rewrite (Less_lookup d i j x y) by done. apply less_notAfter. Qed.

Lemma siftDown_loop_spec first lo hi : forall fuel d root,
  hi - root <= fuel -> lo <= root -> first + hi <= length d ->
  sifting less d first lo hi root ->
  swaps (first + lo) (first + hi) d (sort.siftDown_loop less fuel d root hi first) /\
  forall k, lo <= k -> heapAt less (sort.siftDown_loop less fuel d root hi first) first hi k.
Proof.
  induction fuel as [|fuel IH]; intros d root Hf Hlo Hlen [Hheap Habove].
  { simpl. split; [constructor|]. intros k Hk.
    destruct (decide (k = root)) as [->|]; [|by apply Hheap].
    intros c x y Hc Hchi. lia. }
  simpl. destruct (hi <=? root + (root + 0) + 1) eqn:Hleaf.
  { apply Nat.leb_le in Hleaf. split; [constructor|]. intros k Hk.
    destruct (decide (k = root)) as [->|]; [|by apply Hheap].
    intros c x y Hc Hchi. lia. }
  apply Nat.leb_gt in Hleaf.
  set (child := root + (root + 0) + 1) in *.
  (* the child that is not before the other *)
  set (big := if (child + 1 <? hi) && sort.Less less d (first + child) (first + child + 1)
              then child + 1 else child).
  assert (Hbig : (big = child \/ big = child + 1) /\ big < hi).
  { unfold big. destruct (child + 1 <? hi) eqn:H1; simpl.
    - apply Nat.ltb_lt in H1. destruct (sort.Less _ _ _ _); lia.
    - lia. }
  destruct Hbig as [Hbig Hbighi].
  destruct (lookup_lt_is_Some_2 d (first + root)) as [xr Hxr]; [lia|].
  destruct (lookup_lt_is_Some_2 d (first + big)) as [xb Hxb]; [lia|].
  assert (Hother : forall c y,
    c = 2 * root + 1 \/ c = 2 * root + 2 -> c < hi -> c <> big ->
    d !! (first + c) = Some y -> notAfter less y xb).
  { intros c y Hc Hchi Hcb Hy. unfold big in *.
    destruct (child + 1 <? hi) eqn:H1; simpl in *.
    - apply Nat.ltb_lt in H1.
      destruct (sort.Less less d (first + child) (first + child + 1)) eqn:HL.
      + assert (c = child) as -> by lia.
        replace (first + (child + 1)) with (first + child + 1) in Hxb by lia.
        by eapply Less_true_notAfter.
      + assert (c = child + 1) as -> by lia.
        replace (first + (child + 1)) with (first + child + 1) in Hy by lia.
        by eapply Less_false_notAfter.
    - apply Nat.ltb_ge in H1. lia. }
  destruct (sort.Less less d (first + root) (first + big)) eqn:HL; simpl.
  2:{ (* the root is not before its children: done *)
      split; [constructor|]. intros k Hk.
      destruct (decide (k = root)) as [->|]; [|by apply Hheap].
      intros c x y Hc Hchi Hx Hy. rewrite Hxr in Hx. injection Hx as <-.
      assert (Hb : notAfter less xb xr) by (by eapply Less_false_notAfter).
      destruct (decide (c = big)) as [->|Hcb].
      - rewrite Hxb in Hy. by injection Hy as <-.
      - eapply notAfter_trans; [|exact Hb]. by eapply Hother. }
  (* the root goes down to the place of that child *)
  assert (Hrb : less xr xb = true) by (by rewrite <- (Less_lookup d _ _ xr xb Hxr Hxb)).
  destruct (IH (sort.Swap d (first + root) (first + big)) big) as [Hsw Hpost].
  - lia.
  - lia.
  - by rewrite Swap_length.
  - split.
    + intros k Hk Hkb c x y Hc Hchi Hx Hy.
      destruct (decide (k = root)) as [->|Hkr].
      * (* the node where the child went up *)
        swapLookups.
        -- rewrite Hxb in Hx. rewrite Hxr in Hy. simplify_eq. by apply less_notAfter.
        -- rewrite Hxb in Hx. injection Hx as <-. eapply Hother; [| | |exact Hy]; lia.
      * swapLookups.
        -- (* the parent of the old root *)
           rewrite Hxb in Hy. injection Hy as <-.
           eapply (Habove k big); [lia|lia|lia|lia|exact Hx|exact Hxb].
        -- eapply (Hheap k); [lia|lia| | |exact Hx|exact Hy]; lia.
    + intros p c x y Hp Hpb Hc Hchi Hx Hy.
      assert (p = root) as -> by lia.
      swapLookups. rewrite Hxb in Hx. injection Hx as <-.
      eapply (Hheap big); [lia|lia| | |exact Hxb|exact Hy]; lia.
  - split; [|done].
    apply (swaps_step _ _ d (first + root) (first + big)); [lia|lia|done].
Qed.

(** The first element of a heap is not before any other. *)
Lemma heap_root_max d first hi :
  first + hi <= length d ->
  (forall k, heapAt less d first hi k) ->
  forall k x y, k < hi -> d !! (first + k) = Some x -> d !! (first + 0) = Some y ->
                notAfter less x y.
Proof.
  intros Hlen Hheap k. induction k as [k IH] using lt_wf_ind. intros x y Hk Hx Hy.
  destruct (decide (k = 0)) as [->|Hk0].
  { rewrite Hx in Hy. injection Hy as <-. apply notAfter_refl. }
  pose proof (Nat.div_mod_eq (k - 1) 2) as Hdiv.
  pose proof (Nat.mod_upper_bound (k - 1) 2) as Hmod.
  set (p := (k - 1) / 2) in *.
  destruct (lookup_lt_is_Some_2 d (first + p)) as [z Hz]; [lia|].
  apply (notAfter_trans x z y).
  - eapply (Hheap p k); [lia|lia|exact Hz|exact Hx].
  - eapply (IH p); [lia|lia|exact Hz|exact Hy].
Qed.

Lemma fold_left_down {B} (f : B -> nat -> B) n (s : B) :
  fold_left f (rev (seq 0 (S n))) s = fold_left f (rev (seq 0 n)) (f s n).
Proof. by rewrite seq_S, rev_app_distr. Qed.

(** The first loop of the heap sort makes the heap. *)
Lemma heapSort_build first hi : forall n d,
  first + hi <= length d ->
  (forall k, n <= k -> heapAt less d first hi k) ->
  swaps first (first + hi) d
        (fold_left (fun d i => sort.siftDown_func less d i hi first)
                   (rev (seq 0 n)) d) /\
  forall k, heapAt less (fold_left (fun d i => sort.siftDown_func less d i hi first)
                              (rev (seq 0 n)) d) first hi k.
Proof.
  induction n as [|n IH]; intros d Hlen Hheap.
  { simpl. split; [constructor|]. intros k. apply Hheap. lia. }
  rewrite fold_left_down.
  destruct (siftDown_loop_spec first n hi hi d n) as [Hsw Hpost]; [lia|lia|done| |].
  { split.
    - intros k Hk Hkn. apply Hheap. lia.
    - intros p c x y Hp Hn. lia. }
  destruct (IH (sort.siftDown_func less d n hi first)) as [Hsw2 Hpost2].
  - unfold sort.siftDown_func. by rewrite (swaps_length _ _ _ _ Hsw).
  - exact Hpost.
  - split; [|done]. eapply swaps_trans; [|exact Hsw2].
    eapply swaps_mono; [| |exact Hsw]; lia.
Qed.

(** The second loop of the heap sort takes the heap apart, the last
    element first. *)
Lemma heapSort_drain first hi : forall m d,
  m <= hi -> first + hi <= length d ->
  (forall k, heapAt less d first m k) ->
  sortedOn less d (first + m) (first + hi) ->
  relOn d first (first + m) (first + m) (first + hi) (notAfter less) ->
  swaps first (first + hi) d
        (fold_left (fun d i => sort.siftDown_func less
                                 (sort.Swap d first (first + i)) 0 i first)
                   (rev (seq 0 m)) d) /\
  sortedOn less (fold_left (fun d i => sort.siftDown_func less
                                    (sort.Swap d first (first + i)) 0 i first)
                      (rev (seq 0 m)) d) first (first + hi).
Proof.
  induction m as [|i IH]; intros d Hm Hlen Hheap Hsorted Hrel.
  { simpl. split; [constructor|]. by rewrite Nat.add_0_r in Hsorted. }
  rewrite fold_left_down.
  set (d1 := sort.Swap d first (first + i)).
  assert (Hlen1 : length d1 = length d) by apply Swap_length.
  assert (Hsw1 : swaps first (first + hi) d d1) by (apply swaps_one; lia).
  destruct (lookup_lt_is_Some_2 d (first + 0)) as [mx Hmx]; [lia|].
  (* every element of the heap is not after its first element nor after
     an element of the part in order *)
  set (P := fun x => notAfter less x mx /\
                     forall q y, first + S i <= q < first + hi ->
                                 d !! q = Some y -> notAfter less x y).
  assert (HP : allOn d first (first + S i) P).
  { intros k x Hk Hx. split.
    - apply (heap_root_max d first (S i) ltac:(lia) Hheap (k - first) x mx);
        [lia| |exact Hmx].
      replace (first + (k - first)) with k by lia. exact Hx.
    - intros q y Hq Hy. eapply Hrel; [| |exact Hx|exact Hy]; lia. }
  assert (HP1 : allOn d1 first (first + i) P).
  { intros k x Hk Hx. unfold d1 in Hx. swapLookups.
    - eapply HP; [|exact Hx]. lia.
    - eapply HP; [|exact Hx]. lia. }
  destruct (siftDown_loop_spec first 0 i i d1 0) as [Hsw Hpost]; [lia|lia|lia| |].
  { split.
    - intros k _ Hk0 c x y Hc Hci Hx Hy. unfold d1 in Hx, Hy. swapLookups.
      eapply (Hheap k c); [lia|lia|exact Hx|exact Hy].
    - intros p c x y _ Hp. lia. }
  fold (sort.siftDown_func less d1 0 i first) in Hsw, Hpost.
  set (d2 := sort.siftDown_func less d1 0 i first) in *.
  rewrite Nat.add_0_r in Hsw.
  assert (Hlen2 : length d2 = length d) by (by rewrite (swaps_length _ _ _ _ Hsw)).
  assert (Hat : forall q, first + i <= q -> d2 !! q = d1 !! q).
  { intros q Hq. apply (swaps_outside _ _ _ _ _ Hsw). lia. }
  assert (Htop : d2 !! (first + i) = Some mx).
  { rewrite Hat by lia. unfold d1. rewrite Swap_lookup by lia. unfold exch.
    rewrite Nat.add_0_r in Hmx. repeat case_decide; try lia; [|done].
    by replace (first + i) with first by lia. }
  assert (Hrest : forall q, first + S i <= q -> q < first + hi -> d2 !! q = d !! q).
  { intros q Hq Hq'. rewrite Hat by lia. unfold d1. rewrite Swap_lookup by lia.
    unfold exch. repeat case_decide; try lia; done. }
  assert (HP2 : allOn d2 first (first + i) P) by (by eapply swaps_allOn).
  destruct (IH d2) as [Hsw2 Hso2].
  - lia.
  - lia.
  - intros k. apply Hpost. lia.
  - intros p q x y Hp Hpq Hq Hx Hy.
    rewrite Hrest in Hy by lia.
    destruct (decide (p = first + i)) as [->|Hpi].
    + rewrite Htop in Hx. injection Hx as <-.
      rewrite Nat.add_0_r in Hmx.
      eapply Hrel; [| |exact Hmx|exact Hy]; lia.
    + rewrite Hrest in Hx by lia. byRange Hx Hy.
  - intros p q x y Hp Hq Hx Hy.
    destruct (HP2 p x Hp Hx) as [Hmax Hsuf].
    destruct (decide (q = first + i)) as [->|Hqi].
    + rewrite Htop in Hy. by injection Hy as <-.
    + rewrite Hrest in Hy by lia. eapply Hsuf; [|exact Hy]. lia.
  - split; [|done].
    eapply swaps_trans; [exact Hsw1|].
    eapply swaps_trans; [|exact Hsw2].
    eapply swaps_mono; [| |exact Hsw]; lia.
Qed.

Lemma heapSort_func_spec d a b :
  a <= b -> b <= length d ->
  swaps a b d (sort.heapSort_func less d a b) /\
  sortedOn less (sort.heapSort_func less d a b) a b.
Proof.
  intros Hab Hb. unfold sort.heapSort_func.
  pose proof (Nat.div_mod_eq (b - a - 1) 2) as Hdiv.
  pose proof (Nat.mod_upper_bound (b - a - 1) 2) as Hmod.
  destruct (heapSort_build a (b - a) (S ((b - a - 1) / 2)) d) as [Hsw1 Hheap]; [lia| |].
  { intros k Hk c x y Hc Hchi. lia. }
  set (d1 := fold_left _ _ d) in *.
  destruct (heapSort_drain a (b - a) (b - a) d1) as [Hsw2 Hso].
  - lia.
  - rewrite (swaps_length _ _ _ _ Hsw1). lia.
  - done.
  - apply sortedOn_short. lia.
  - intros p q x y Hp Hq. lia.
  - replace (a + (b - a)) with b in * by lia.
    split; [by eapply swaps_trans|done].
Qed.

(** ** pdqsort_func *)

Lemma lowerBound_mono d a b b' : b' <= b -> lowerBound less d a b -> lowerBound less d a b'.
Proof.
  intros Hb [->|(H0 & z & Hz & Hall)]; [by left|right].
  split; [done|]. exists z. split; [done|]. eapply allOn_mono; [| |exact Hall]; lia.
Qed.

Lemma partitioned_swaps pv d d' a mid b c e :
  swaps c e d d' -> (a <= c /\ e <= mid) \/ (mid + 1 <= c /\ e <= b) ->
  partitioned less pv d a mid b -> partitioned less pv d' a mid b.
Proof.
  intros Hsw Hce (Hmid & Hpv & Hlo & Hhi).
  split; [done|]. split; [by rewrite (swaps_outside _ _ _ _ _ Hsw) by lia|].
  destruct Hce as [[Hc He]|[Hc He]].
  - split; [|eapply allOn_outside; [exact Hsw| |exact Hhi]; lia].
    eapply swaps_allOn; [|exact Hlo]. eapply swaps_mono; [| |exact Hsw]; lia.
  - split; [eapply allOn_outside; [exact Hsw| |exact Hlo]; lia|].
    eapply swaps_allOn; [|exact Hhi]. eapply swaps_mono; [| |exact Hsw]; lia.
Qed.

(** Both sides of a partition in order make the range in order. *)
Lemma partitioned_sorted pv d a mid b :
  partitioned less pv d a mid b ->
  sortedOn less d a mid -> sortedOn less d (mid + 1) b ->
  sortedOn less d a b.
Proof.
  intros (Hmid & Hpv & Hlo & Hhi) Hl Hr.
  apply (sortedOn_join d a mid b); [done| |].
  - apply (sortedOn_join d mid (mid + 1) b); [apply sortedOn_short; lia|done|].
    intros p q x y Hp Hq Hx Hy. assert (p = mid) as -> by lia.
    rewrite Hpv in Hx. injection Hx as <-. eapply Hhi; [|exact Hy]. lia.
  - intros p q x y Hp Hq Hx Hy.
    assert (Hxp : less x pv = true) by (eapply Hlo; [|exact Hx]; lia).
    destruct (decide (q = mid)) as [->|].
    + rewrite Hpv in Hy. injection Hy as <-. by apply less_notAfter.
    + apply (notAfter_trans x pv y); [by apply less_notAfter|].
      eapply Hhi; [|exact Hy]. lia.
Qed.

(** The right side of a partition has its lower bound in the pivot. *)
Lemma partitioned_lowerBound pv d a mid b :
  partitioned less pv d a mid b -> lowerBound less d (mid + 1) b.
Proof.
  intros (Hmid & Hpv & Hlo & Hhi). right. split; [lia|]. exists pv.
  replace (mid + 1 - 1) with mid by lia. split; [done|].
  intros k x Hk Hx. eapply Hhi; [|exact Hx]. lia.
Qed.

Lemma pdqsort_loop_spec : forall fuel d a b limit wasBalanced wasPartitioned,
  b - a < fuel -> a <= b -> b <= length d -> lowerBound less d a b ->
  swaps a b d (sort.pdqsort_loop less fuel d a b limit wasBalanced wasPartitioned) /\
  sortedOn less (sort.pdqsort_loop less fuel d a b limit wasBalanced wasPartitioned) a b.
Proof.
  induction fuel as [|fuel IH]; intros d a b limit wb wp Hf Hab Hb Hlb; [lia|].
  cbn [sort.pdqsort_loop].
  destruct (b - a <=? sort.maxInsertion) eqn:Hsmall.
  { by apply insertionSort_func_spec. }
  apply Nat.leb_gt in Hsmall. unfold sort.maxInsertion in Hsmall.
  destruct (limit =? 0).
  { by apply heapSort_func_spec. }
  (* breakPatterns *)
  destruct (if negb wb then (sort.breakPatterns_func d a b, limit - 1) else (d, limit))
    as [d1 limit1] eqn:E1.
  assert (Hsw1 : swaps a b d d1).
  { destruct wb; simpl in E1; injection E1 as <- <-;
      [constructor | apply breakPatterns_func_swaps]. }
  (* choosePivot, and the reversal of a range that looks decreasing *)
  destruct (sort.choosePivot_func less d1 a b) as [pivot hint] eqn:Ep.
  apply choosePivot_func_range in Ep; [|lia].
  destruct (if sort.sortedHint_eqb hint sort.decreasingHint
            then (sort.reverseRange_func d1 a b, b - 1 - (pivot - a), sort.increasingHint)
            else (d1, pivot, hint)) as [[d2 pivot2] hint2] eqn:E2.
  assert (H2 : swaps a b d1 d2 /\ a <= pivot2 < b).
  { destruct (sort.sortedHint_eqb hint sort.decreasingHint);
      injection E2 as <- <- <-; (split; [|lia]);
      [apply reverseRange_func_swaps; lia | constructor]. }
  destruct H2 as [Hsw2 Hp2].
  assert (Hsw12 : swaps a b d d2) by (by eapply swaps_trans).
  assert (Hlen2 : length d2 = length d) by (by rewrite (swaps_length _ _ _ _ Hsw12)).
  assert (Hlb2 : lowerBound less d2 a b) by (by eapply swaps_lowerBound; [| |exact Hsw12|]).
  (* partialInsertionSort *)
  destruct (if wb && wp && sort.sortedHint_eqb hint2 sort.increasingHint
            then sort.partialInsertionSort_func less d2 a b
            else (d2, false)) as [d3 done] eqn:E3.
  assert (H3 : swaps a b d2 d3 /\ (done = true -> sortedOn less d3 a b)).
  { destruct (wb && wp && sort.sortedHint_eqb hint2 sort.increasingHint).
    - destruct (partialInsertionSort_func_spec d2 a b) as [Hs Hd]; [lia|lia|done|].
      rewrite E3 in Hs, Hd. done.
    - injection E3 as <- <-. split; [constructor|done]. }
  destruct H3 as [Hsw3 Hdone].
  assert (Hsw13 : swaps a b d d3) by (by eapply swaps_trans).
  destruct done; [by split; [|apply Hdone]|]. clear Hdone.
  assert (Hlen3 : length d3 = length d) by (by rewrite (swaps_length _ _ _ _ Hsw13)).
  assert (Hlb3 : lowerBound less d3 a b) by (by eapply swaps_lowerBound; [| |exact Hsw13|]).
  destruct (lookup_lt_is_Some_2 d3 pivot2) as [pv Hpv]; [lia|].
  destruct ((0 <? a) && negb (sort.Less less d3 (a - 1) pivot2)) eqn:Hequal.
  - (* the pivot is not after the element before the range: the range
       has no element before the pivot *)
    apply andb_true_iff in Hequal as [Ha0 HL].
    apply Nat.ltb_lt in Ha0. apply negb_true_iff in HL.
    destruct Hlb3 as [|(_ & z & Hz & Hall)]; [lia|].
    assert (Hpz : notAfter less pv z) by (by eapply Less_false_notAfter).
    assert (Hge : allOn d3 a b (fun x => less x pv = false)).
    { intros k x Hk Hx. apply (notAfter_trans pv z x); [done|]. by eapply Hall. }
    destruct (partitionEqual_func_spec d3 a b pivot2 pv)
      as (d4 & mid & E4 & Hsw4 & Hmid & Hlo & Hhi); [lia|lia|done|].
    rewrite E4.
    assert (Hge4 : allOn d4 a b (fun x => less x pv = false)) by (by eapply swaps_allOn).
    assert (Hlen4 : length d4 = length d) by (by rewrite (swaps_length _ _ _ _ Hsw4)).
    destruct (IH d4 mid b limit1 wb wp) as [Hsw5 Hso5]; [lia|lia|lia| |].
    { right. split; [lia|].
      destruct (lookup_lt_is_Some_2 d4 (mid - 1)) as [z' Hz']; [lia|].
      exists z'. split; [done|]. intros k x Hk Hx.
      assert (Hz1 : less pv z' = false) by (eapply Hlo; [|exact Hz']; lia).
      assert (Hx1 : less pv x = true) by (eapply Hhi; [|exact Hx]; lia).
      unfold notAfter. destruct (less x z') eqn:Hxz; [|done].
      rewrite <- Hz1. symmetry. by eapply less_trans. }
    set (d5 := sort.pdqsort_loop less fuel d4 mid b limit1 wb wp) in *.
    split.
    { eapply swaps_trans; [exact Hsw13|]. eapply swaps_trans; [exact Hsw4|].
      eapply swaps_mono; [| |exact Hsw5]; lia. }
    assert (Hlo5 : allOn d5 a mid (fun x => less pv x = false))
      by (eapply allOn_outside; [exact Hsw5| |exact Hlo]; lia).
    assert (Hge5 : allOn d5 a mid (fun x => less x pv = false)).
    { eapply allOn_outside; [exact Hsw5| |]; [lia|].
      eapply allOn_mono; [| |exact Hge4]; lia. }
    assert (Hhi5 : allOn d5 mid b (fun x => less pv x = true))
      by (by eapply swaps_allOn).
    apply (sortedOn_join d5 a mid b); [|done|].
    + intros p q x y Hp Hpq Hq Hx Hy.
      apply (notAfter_trans x pv y).
      * eapply Hlo5; [|exact Hx]. lia.
      * eapply Hge5; [|exact Hy]. lia.
    + intros p q x y Hp Hq Hx Hy.
      apply (notAfter_trans x pv y).
      * eapply Hlo5; [|exact Hx]. lia.
      * apply less_notAfter. eapply Hhi5; [|exact Hy]. lia.
  - clear Hequal.
    destruct (partition_func_spec d3 a b pivot2 pv)
      as (d4 & mid & already & E4 & Hsw4 & Hpart); [lia|lia|done|].
    rewrite E4.
    assert (Hmid : a <= mid < b) by apply Hpart.
    assert (Hlen4 : length d4 = length d) by (by rewrite (swaps_length _ _ _ _ Hsw4)).
    assert (Hlb4 : lowerBound less d4 a b) by (by eapply swaps_lowerBound; [| |exact Hsw4|]).
    destruct (mid - a <? b - mid).
    + (* the left side first, then on with the right side *)
      destruct (IH d4 a mid limit1 true true) as [Hsw5 Hso5]; [lia|lia|lia| |].
      { eapply lowerBound_mono; [|exact Hlb4]. lia. }
      set (d5 := sort.pdqsort_loop less fuel d4 a mid limit1 true true) in *.
      assert (Hpart5 : partitioned less pv d5 a mid b)
        by (eapply partitioned_swaps; [exact Hsw5| |exact Hpart]; lia).
      match goal with |- context [sort.pdqsort_loop less fuel d5 (mid + 1) b limit1 ?w already] =>
        destruct (IH d5 (mid + 1) b limit1 w already) as [Hsw7 Hso7];
          [lia|lia|rewrite (swaps_length _ _ _ _ Hsw5); lia
          |by eapply partitioned_lowerBound|];
        set (d6 := sort.pdqsort_loop less fuel d5 (mid + 1) b limit1 w already) in *
      end.
      split.
      { eapply swaps_trans; [exact Hsw13|]. eapply swaps_trans; [exact Hsw4|].
        eapply swaps_trans; [eapply swaps_mono; [| |exact Hsw5]; lia|].
        eapply swaps_mono; [| |exact Hsw7]; lia. }
      apply (partitioned_sorted pv d6 a mid b); [|  |done].
      * eapply partitioned_swaps; [exact Hsw7| |exact Hpart5]; lia.
      * eapply sortedOn_outside; [exact Hsw7| |exact Hso5]. lia.
    + (* the right side first, then on with the left side *)
      destruct (IH d4 (mid + 1) b limit1 true true) as [Hsw5 Hso5]; [lia|lia|lia| |].
      { by eapply partitioned_lowerBound. }
      set (d5 := sort.pdqsort_loop less fuel d4 (mid + 1) b limit1 true true) in *.
      assert (Hpart5 : partitioned less pv d5 a mid b)
        by (eapply partitioned_swaps; [exact Hsw5| |exact Hpart]; lia).
      match goal with |- context [sort.pdqsort_loop less fuel d5 a mid limit1 ?w already] =>
        destruct (IH d5 a mid limit1 w already) as [Hsw7 Hso7];
          [lia|lia|rewrite (swaps_length _ _ _ _ Hsw5); lia| |];
        [eapply lowerBound_mono;
           [|eapply swaps_lowerBound; [| |exact Hsw5|exact Hlb4]]; lia|];
        set (d6 := sort.pdqsort_loop less fuel d5 a mid limit1 w already) in *
      end.
      split.
      { eapply swaps_trans; [exact Hsw13|]. eapply swaps_trans; [exact Hsw4|].
        eapply swaps_trans; [eapply swaps_mono; [| |exact Hsw5]; lia|].
        eapply swaps_mono; [| |exact Hsw7]; lia. }
      apply (partitioned_sorted pv d6 a mid b); [|done|].
      * eapply partitioned_swaps; [exact Hsw7| |exact Hpart5]; lia.
      * eapply sortedOn_outside; [exact Hsw7| |exact Hso5]. lia.
Qed.

(** ** sort.Slice *)

Lemma Slice_spec x :
  swaps 0 (length x) x (sort.Slice less x) /\
  sortedOn less (sort.Slice less x) 0 (length x).
Proof.
  unfold sort.Slice, sort.pdqsort_func.
  apply pdqsort_loop_spec; [lia|lia|lia|by left].
Qed.

Lemma sortedOn_StronglySorted l :
  sortedOn less l 0 (length l) -> StronglySorted (notAfter less) l.
Proof.
  induction l as [|x l IH]; intros Hs; constructor.
  - apply IH. intros p q u v Hp Hpq Hq Hu Hv.
    apply (Hs (S p) (S q) u v); simpl; try done; lia.
  - apply Forall_forall. intros y Hy.
    apply list_elem_of_lookup in Hy as [k Hk].
    apply (Hs 0 (S k) x y); simpl; try done; try lia.
    apply lookup_lt_Some in Hk. lia.
Qed.

(** [sort.Slice] gives the elements it got, in order. *)
Lemma Slice_sorts x :
  StronglySorted (notAfter less) (sort.Slice less x) /\ sort.Slice less x ≡ₚ x.
Proof.
  destruct (Slice_spec x) as [Hsw Hso]. split.
  - apply sortedOn_StronglySorted. by rewrite (swaps_length _ _ _ _ Hsw).
  - by eapply swaps_Permutation.
Qed.

(** ** Short slices keep the order of equal elements *)

(** The exchange of two neighbours, on the list. *)
Lemma Swap_neighbours : forall j (d : list A) x y,
  d !! j = Some x -> d !! S j = Some y ->
  exists pre post,
    d = pre ++ x :: y :: post /\ sort.Swap d (S j) j = pre ++ y :: x :: post.
Proof.
  induction j as [|j IH]; intros d x y Hx Hy.
  - destruct d as [|x' [|y' post]]; simplify_eq/=. by exists [], post.
  - destruct d as [|z d]; [done|]. simpl in Hx, Hy.
    destruct (IH d x y Hx Hy) as (pre & post & -> & Hsw).
    exists (z :: pre), post. split; [done|].
    unfold sort.Swap in *. simpl. rewrite Hx, Hy in *. simpl. by rewrite Hsw.
Qed.

Section Stable.

(** [P] picks elements none of which is before another. *)
Variable P : A -> bool.
Hypothesis P_ties : forall x y, P x = true -> P y = true -> less x y = false.

Lemma Swap_neighbours_filter d j :
  sort.Less less d (S j) j = true ->
  List.filter P (sort.Swap d (S j) j) = List.filter P d.
Proof.
  intros HL. apply Less_true in HL as (y & x & Hy & Hx & Hyx).
  destruct (Swap_neighbours j d x y Hx Hy) as (pre & post & -> & ->).
  rewrite !List.filter_app. f_equal. simpl.
  destruct (P x) eqn:Px, (P y) eqn:Py; try done.
  by rewrite (P_ties y x) in Hyx.
Qed.

Lemma insertionSort_inner_filter a : forall j d,
  List.filter P (sort.insertionSort_inner less d a j) = List.filter P d.
Proof.
  induction j as [|j IH]; intros d; [done|]. simpl.
  destruct (a <? S j); simpl; [|done].
  destruct (sort.Less less d (S j) j) eqn:HL; [|done].
  by rewrite IH, Swap_neighbours_filter.
Qed.

Lemma insertionSort_func_filter d a b :
  List.filter P (sort.insertionSort_func less d a b) = List.filter P d.
Proof.
  unfold sort.insertionSort_func. generalize (seq (a + 1) (b - (a + 1))).
  intros l. revert d. induction l as [|i l IH]; intros d; [done|]. simpl.
  by rewrite IH, insertionSort_inner_filter.
Qed.

(** Up to [maxInsertion] elements [sort.Slice] is the insertion sort,
    which leaves the elements that [P] picks in the order they had. *)
Lemma Slice_short_filter x :
  length x <= sort.maxInsertion ->
  List.filter P (sort.Slice less x) = List.filter P x.
Proof.
  intros Hlen. unfold sort.Slice, sort.pdqsort_func. cbn [sort.pdqsort_loop].
  rewrite Nat.sub_0_r.
  destruct (length x <=? sort.maxInsertion) eqn:E;
    [|apply Nat.leb_gt in E; lia].
  apply insertionSort_func_filter.
Qed.

End Stable.

End Sorting.

(** * The order of the published inventory *)

Lemma ltb_irrefl a : String.ltb a a = false.
Proof.
  unfold String.ltb. destruct (String.compare a a) eqn:E; try done.
  pose proof (String.compare_antisym a a) as H. rewrite E in H. done.
Qed.

Lemma ltb_trans a b c :
  String.ltb a b = true -> String.ltb b c = true -> String.ltb a c = true.
Proof.
  unfold String.ltb.
  destruct (String.compare a b) eqn:E1; try done.
  destruct (String.compare b c) eqn:E2; try done. intros _ _.
  apply String_as_OT.cmp_lt in E1, E2.
  pose proof (String_as_OT.lt_trans _ _ _ E1 E2) as E3.
  apply String_as_OT.cmp_lt in E3. unfold String_as_OT.cmp in E3. by rewrite E3.
Qed.

Lemma ltb_false_leb a b : String.ltb b a = false <-> String.leb a b = true.
Proof.
  unfold String.ltb, String.leb. rewrite (String.compare_antisym a b).
  by destruct (String.compare b a).
Qed.

Lemma ltb_notless_trans a b c :
  String.ltb b a = false -> String.ltb c b = false -> String.ltb c a = false.
Proof.
  intros Hab Hbc. destruct (String.ltb c a) eqn:Hca; [|done].
  destruct (String.compare a b) eqn:E.
  - apply String.compare_eq_iff in E. subst b. congruence.
  - assert (Hlt : String.ltb a b = true) by (unfold String.ltb; by rewrite E).
    rewrite <- Hbc. symmetry. by eapply ltb_trans.
  - unfold String.ltb in Hab. rewrite (String.compare_antisym b a), E in Hab. done.
Qed.

Lemma byName_irrefl x : byName x x = false.
Proof. apply ltb_irrefl. Qed.

Lemma byName_trans x y z :
  byName x y = true -> byName y z = true -> byName x z = true.
Proof. apply ltb_trans. Qed.

Lemma byName_notless_trans x y z :
  byName y x = false -> byName z y = false -> byName z x = false.
Proof. apply ltb_notless_trans. Qed.

Lemma namedAs_ties name x y :
  namedAs name x = true -> namedAs name y = true -> byName x y = false.
Proof.
  unfold namedAs, byName. intros Hx%String.eqb_eq Hy%String.eqb_eq.
  rewrite Hx, Hy. apply ltb_irrefl.
Qed.

Lemma StronglySorted_weaken {B} (R R' : B -> B -> Prop) l :
  (forall x y, R x y -> R' x y) -> StronglySorted R l -> StronglySorted R' l.
Proof.
  intros H. induction 1 as [|x l _ IH Hx]; constructor; [done|].
  eapply Forall_impl; [exact Hx|]. auto.
Qed.

(** C4, as the code has it.  The inventory [scanMedia] publishes is in
    ascending order of the file names and has the media files found by
    the walk, each as often as the walk found it, so that files of one
    name in several directories are all there.  When the walk found no
    more than twelve, the files of one name are in the order of the
    walk. *)
Theorem inventory_sorted_by_name s w :
  StronglySorted nameNotAfter (mediaList (fst (scanMedia s w))) /\
  mediaList (fst (scanMedia s w)) ≡ₚ collected (config s) (disk w) /\
  (length (collected (config s) (disk w)) <= 12 ->
   forall name,
     List.filter (namedAs name) (mediaList (fst (scanMedia s w))) =
     List.filter (namedAs name) (collected (config s) (disk w))).
Proof.
  assert (E : mediaList (fst (scanMedia s w)) =
              sort.Slice byName (collected (config s) (disk w))).
  { unfold scanMedia, scanned, collected. simpl.
    by destruct (Walk (scanMedia_fn (config s)) (disk w) (MediaDir (config s)) []). }
  rewrite E.
  destruct (Slice_sorts byName byName_irrefl byName_trans byName_notless_trans
              (collected (config s) (disk w))) as [Hso Hperm].
  split; [|split; [done|]].
  - eapply StronglySorted_weaken; [|exact Hso]. intros x y. apply ltb_false_leb.
  - intros Hlen name.
    apply (Slice_short_filter byName (namedAs name) (namedAs_ties name)). exact Hlen.
Qed.

Lemma inventory_sorted_by_name_witness :
  let s := exServer [] in
  let w := exWorld exTwinEntries exEmptyStore in
  map Path (mediaList (fst (scanMedia s w))) =
    ["media/b/a.mp4"; "media/a/clip.mp4"; "media/c/clip.mp4"] /\
  forall name,
    List.filter (namedAs name) (mediaList (fst (scanMedia s w))) =
    List.filter (namedAs name) (collected (config s) (disk w)).
Proof.
  split; [vm_compute; reflexivity|].
  apply (proj2 (proj2 (inventory_sorted_by_name
                         (exServer []) (exWorld exTwinEntries exEmptyStore)))).
  vm_compute. lia.
Defined.

(** C4, the counterexample.  The walk finds thirteen files: [b.mp4] in
    each of the directories [d00] to [d11], then [z/a.mp4].  In the
    inventory the files named [b.mp4] are not in the order of the walk:
    the one of [d06] is first, the one of [d01] last. *)
Lemma ties_not_in_walk_order :
  map Path (List.filter (namedAs "b.mp4") (collected exConfig (exDisk exTiesEntries))) =
    ["media/d00/b.mp4"; "media/d01/b.mp4"; "media/d02/b.mp4"; "media/d03/b.mp4";
     "media/d04/b.mp4"; "media/d05/b.mp4"; "media/d06/b.mp4"; "media/d07/b.mp4";
     "media/d08/b.mp4"; "media/d09/b.mp4"; "media/d10/b.mp4"; "media/d11/b.mp4"] /\
  map Path (List.filter (namedAs "b.mp4") (scanned exConfig (exDisk exTiesEntries))) =
    ["media/d06/b.mp4"; "media/d02/b.mp4"; "media/d03/b.mp4"; "media/d04/b.mp4";
     "media/d05/b.mp4"; "media/d00/b.mp4"; "media/d07/b.mp4"; "media/d08/b.mp4";
     "media/d09/b.mp4"; "media/d10/b.mp4"; "media/d11/b.mp4"; "media/d01/b.mp4"] /\
  List.filter (namedAs "b.mp4") (scanned exConfig (exDisk exTiesEntries)) <>
  List.filter (namedAs "b.mp4") (collected exConfig (exDisk exTiesEntries)).
Proof.
  split; [vm_compute; reflexivity|]. split; [vm_compute; reflexivity|].
  vm_compute. discriminate.
Qed.

(** ** What a scan can list *)

Lemma accepted_supported cfg vs m :
  m ∈ accepted cfg vs -> supportedExts (ToLower (Ext (Path m))) = true.
Proof.
  unfold accepted. intros Hm. apply list_elem_of_In, in_flat_map in Hm.
  destruct Hm as (v & _ & Hm). unfold scanMedia_fn in Hm.
  destruct (visitInfo v) as [info|]; [|done].
  destruct (fs.IsDir info); [done|]. simpl in Hm.
  destruct (supportedExts (ToLower (Ext (visitPath v)))) eqn:E; [|done].
  destruct Hm as [<-|[]]. exact E.
Qed.

(** A scan lists files with a supported extension only. *)
Lemma scanned_supported cfg d m :
  m ∈ scanned cfg d -> supportedExts (ToLower (Ext (Path m))) = true.
Proof.
  unfold scanned.
  pose proof (Walk_visits cfg d (MediaDir cfg)) as Hw.
  destruct (Walk (scanMedia_fn cfg) d (MediaDir cfg) []) as [l err].
  simpl in Hw. subst l. intros Hm.
  destruct (Slice_sorts byName byName_irrefl byName_trans byName_notless_trans
              (accepted cfg (beforeError (walkVisits d (MediaDir cfg)))))
    as [_ Hperm].
  rewrite Hperm in Hm. by eapply accepted_supported.
Qed.

(** When the inventory came from a scan, a cycle removes files with a
    supported extension only. *)
Lemma removals_have_media_extension s w d0 p err :
  mediaList s = scanned (config s) d0 ->
  RemoveEv p err ∈ cycleEvents s w ->
  supportedExts (ToLower (Ext p)) = true.
Proof.
  intros Hscan Hev.
  destruct (cycle_shape s w) as (E0 & E1 & E2 & E3 & Hshape & F0 & F1 & F2 & F3 & _).
  rewrite Hshape in Hev. rewrite Forall_forall in F0, F1, F2, F3.
  apply elem_of_app in Hev as [H|[H|[H|H]%elem_of_app]%elem_of_app].
  - apply F0 in H as [? H]. done.
  - apply F1 in H. done.
  - apply F2 in H as (p' & err' & [= <- <-] & Hp).
    apply list_elem_of_fmap in Hp as (m & -> & Hm).
    rewrite Hscan in Hm. by eapply scanned_supported.
  - apply F3 in H. done.
Qed.
(** * Paths *)

Lemma Clean_render path : Clean path = render (rooted path) (elemsOf path).
Proof. reflexivity. Qed.

Lemma isName_spec nm :
  isName nm = true <->
  nm <> "" /\ nm <> "." /\ nm <> ".." /\ hasSlash nm = false.
Proof.
  unfold isName. rewrite !andb_true_iff, !negb_true_iff, !String.eqb_neq. tauto.
Qed.

Lemma splitSlash_nonempty s : splitSlash s <> [].
Proof.
  destruct s as [|c r]; simpl; [done|].
  destruct (isSlash c); [done|]. by destruct (splitSlash r).
Qed.

Lemma splitSlash_noslash s : hasSlash s = false -> splitSlash s = [s].
Proof.
  induction s as [|c r IH]; simpl; [done|].
  intros [Hc Hr]%orb_false_iff. rewrite Hc, (IH Hr). done.
Qed.

Lemma splitSlash_app a b :
  splitSlash (a ++ "/" ++ b) = splitSlash a ++ splitSlash b.
Proof.
  induction a as [|c r IH]; simpl; [done|].
  rewrite IH. destruct (isSlash c); [done|].
  pose proof (splitSlash_nonempty r). by destruct (splitSlash r).
Qed.

Lemma splitSlash_hasSlash s : Forall (fun e => hasSlash e = false) (splitSlash s).
Proof.
  induction s as [|c r IH]; simpl; [by repeat constructor|].
  destruct (isSlash c) eqn:Hc; [by constructor|].
  destruct (splitSlash r) as [|x xs]; [by repeat constructor; simpl; rewrite Hc|].
  inversion IH; subst. constructor; [simpl; by rewrite Hc | done].
Qed.

Lemma concat_cons sep x y l :
  String.concat sep (x :: y :: l) = (x ++ sep ++ String.concat sep (y :: l))%string.
Proof. reflexivity. Qed.

Lemma splitSlash_concat l :
  l <> [] -> Forall (fun e => hasSlash e = false) l ->
  splitSlash (String.concat "/" l) = l.
Proof.
  induction l as [|x [|y l] IH]; [done| |]; intros _ Hl.
  - inversion Hl; subst. by apply splitSlash_noslash.
  - rewrite concat_cons, splitSlash_app. inversion Hl; subst.
    rewrite splitSlash_noslash by done. rewrite IH by done. done.
Qed.

Lemma cleanElems_app r es1 : forall out es2,
  cleanElems r out (es1 ++ es2) = cleanElems r (cleanElems r out es1) es2.
Proof.
  induction es1 as [|e es1 IH]; intros out es2; simpl; [done|].
  destruct (String.eqb e "" || String.eqb e "."); [apply IH|].
  destruct (String.eqb e ".."); [|apply IH].
  destruct out as [|top out]; [destruct r; apply IH|].
  destruct (String.eqb top ".."); apply IH.
Qed.

Lemma cleanElems_name r out nm :
  isName nm = true -> cleanElems r out [nm] = nm :: out.
Proof.
  intros (H1 & H2 & H3 & _)%isName_spec. simpl.
  apply String.eqb_neq in H1, H2, H3. by rewrite H1, H2, H3.
Qed.

Lemma cleanElems_names r names : forall out,
  Forall (fun nm => isName nm = true) names ->
  cleanElems r out names = rev names ++ out.
Proof.
  induction names as [|nm names IH]; intros out Hn; [done|].
  inversion Hn; subst. change (nm :: names) with ([nm] ++ names).
  rewrite cleanElems_app, cleanElems_name by done. rewrite IH by done.
  simpl. by rewrite <- app_assoc.
Qed.

Lemma cleanElems_dots k : forall out,
  (forall top out', out = top :: out' -> top = "..") ->
  cleanElems false out (repeat ".." k) = repeat ".." k ++ out.
Proof.
  induction k as [|k IH]; intros out Hout; [done|].
  cbn [repeat cleanElems]. simpl (String.eqb ".." ""). simpl (String.eqb ".." ".").
  simpl (String.eqb ".." ".."). cbn [orb].
  destruct out as [|top out'].
  - rewrite IH by (intros ?? [= <- <-]; done).
    change (".." :: repeat ".." k ++ []) with (repeat ".." (S k) ++ []).
    rewrite repeat_cons. simpl. by rewrite <- app_assoc.
  - rewrite (Hout top out' eq_refl). simpl (String.eqb ".." "..").
    rewrite IH by (intros ?? [= <- <-]; done).
    change (".." :: repeat ".." k ++ ".." :: out') with (repeat ".." (S k) ++ ".." :: out').
    rewrite repeat_cons. by rewrite <- app_assoc.
Qed.

Lemma rev_repeat {B} (x : B) k : rev (repeat x k) = repeat x k.
Proof.
  induction k as [|k IH]; [done|]. simpl. rewrite IH.
  symmetry. apply (repeat_cons k x).
Qed.

(** Cleaning a cleaned list of elements changes nothing. *)
Lemma cleanElems_cleanList r elems :
  cleanList r elems -> cleanElems r [] elems = rev elems.
Proof.
  intros (k & names & -> & Hn & Hk).
  rewrite cleanElems_app, cleanElems_names by done.
  rewrite rev_app_distr. f_equal.
  destruct r.
  - rewrite Hk by done. done.
  - rewrite cleanElems_dots by done. by rewrite app_nil_r, rev_repeat.
Qed.

Lemma cleanList_snoc r elems nm :
  cleanList r elems -> isName nm = true -> cleanList r (elems ++ [nm]).
Proof.
  intros (k & names & -> & Hn & Hk) Hnm.
  exists k, (names ++ [nm]). rewrite app_assoc. split; [done|].
  split; [|done]. apply Forall_app. split; [done|]. by constructor.
Qed.

(** What [cleanElems] makes is a cleaned list. *)
Lemma cleanElems_is_clean r es : forall out,
  Forall (fun e => hasSlash e = false) es ->
  cleanList r (rev out) -> cleanList r (rev (cleanElems r out es)).
Proof.
  induction es as [|e es IH]; intros out Hes Hout; [done|].
  inversion Hes as [|? ? He Hes']; subst. simpl.
  destruct (String.eqb e "" || String.eqb e ".") eqn:E1; [by apply IH|].
  apply orb_false_iff in E1 as [E1 E2].
  destruct (String.eqb e "..") eqn:E3.
  - apply String.eqb_eq in E3 as ->.
    destruct out as [|top out'].
    + destruct r; apply IH; try done.
      exists 1, []. repeat split; try done.
    + destruct (String.eqb top "..") eqn:E4.
      * apply String.eqb_eq in E4 as ->. apply IH; [done|].
        destruct Hout as (k & names & Hrev & Hn & Hk). simpl in Hrev.
        destruct names as [|n names _] using rev_ind.
        -- rewrite app_nil_r in Hrev. exists (S k), [].
           rewrite app_nil_r. split; [|split; [done|]].
           ++ simpl. rewrite Hrev. symmetry. apply (repeat_cons k ".."%string).
           ++ intros Hr. specialize (Hk Hr). subst k.
              simpl in Hrev. by destruct (rev out').
        -- rewrite app_assoc in Hrev. apply app_inj_tail in Hrev as [_ <-].
           apply Forall_app in Hn as [_ Hn]. inversion Hn; subst. done.
      * apply IH; [done|].
        destruct Hout as (k & names & Hrev & Hn & Hk). simpl in Hrev.
        destruct names as [|n names _] using rev_ind.
        -- rewrite app_nil_r in Hrev. destruct k as [|k]; [by destruct (rev out')|].
           cbn [repeat] in Hrev. rewrite (repeat_cons k ".."%string) in Hrev.
           apply app_inj_tail in Hrev as [_ ->]. done.
        -- rewrite app_assoc in Hrev. apply app_inj_tail in Hrev as [-> _].
           apply Forall_app in Hn as [Hn _]. by exists k, names.
  - apply IH; [done|]. simpl. apply cleanList_snoc; [done|].
    apply isName_spec. by rewrite <- !String.eqb_neq.
Qed.

Lemma cleanList_nil r : cleanList r [].
Proof. by exists 0, []. Qed.

Lemma elemsOf_clean path : cleanList (rooted path) (elemsOf path).
Proof.
  unfold elemsOf. apply cleanElems_is_clean;
    [apply splitSlash_hasSlash | apply cleanList_nil].
Qed.

(** ** The paths [filepath.Clean] writes *)

Lemma cleanList_elems r elems :
  cleanList r elems ->
  Forall (fun e => e <> "" /\ e <> "." /\ hasSlash e = false) elems.
Proof.
  intros (k & names & -> & Hn & _). apply Forall_app. split.
  - clear. induction k; constructor; done.
  - eapply Forall_impl; [exact Hn|]. intros nm H. apply isName_spec in H. tauto.
Qed.

Lemma cleanList_noslash r elems :
  cleanList r elems -> Forall (fun e => hasSlash e = false) elems.
Proof.
  intros H. eapply Forall_impl; [by apply cleanList_elems in H|].
  simpl. tauto.
Qed.

Lemma filter_nonempty_clean r elems :
  cleanList r elems ->
  List.filter (fun e => negb (String.eqb e "")) elems = elems.
Proof.
  intros H%cleanList_elems. induction H as [|e l (He & _) _ IH]; [done|].
  simpl. apply String.eqb_neq in He. rewrite He. simpl. by rewrite IH.
Qed.

Lemma rooted_app a b : a <> "" -> rooted (a ++ b) = rooted a.
Proof. by destruct a. Qed.

Lemma rooted_noslash a : hasSlash a = false -> rooted a = false.
Proof. destruct a as [|c a]; [done|]. simpl. by intros [? _]%orb_false_iff. Qed.

Lemma concat_head x l :
  exists rest, String.concat "/" (x :: l) = (x ++ rest)%string.
Proof.
  destruct l as [|y l]; [exists ""; simpl|eexists; by rewrite concat_cons].
  clear. induction x as [|c x IH]; [done|].
  change (String c x = String c (x ++ ""))%string. by f_equal.
Qed.

Lemma rooted_render r elems : cleanList r elems -> rooted (render r elems) = r.
Proof.
  intros H. destruct r; [done|]. unfold render.
  destruct elems as [|x l]; [done|].
  apply cleanList_elems in H. inversion H as [|? ? (Hx & _ & Hs) _]; subst.
  destruct (concat_head x l) as [rest ->].
  rewrite rooted_app by done. by apply rooted_noslash.
Qed.

Lemma render_nonempty r elems : cleanList r elems -> render r elems <> "".
Proof.
  intros H. destruct r; [done|]. unfold render.
  destruct elems as [|x l]; [done|].
  apply cleanList_elems in H. inversion H as [|? ? (Hx & _) _]; subst.
  destruct (concat_head x l) as [rest ->]. by destruct x.
Qed.

(** Reading a cleaned path back gives its elements, up to empty
    elements and [.], which every cleaning drops. *)
Lemma cleanElems_render r elems r' out :
  cleanList r elems ->
  cleanElems r' out (splitSlash (render r elems)) = cleanElems r' out elems.
Proof.
  intros H. pose proof (cleanList_noslash _ _ H) as Hs.
  unfold render. destruct r.
  - change ("/" ++ String.concat "/" elems)%string
      with ("" ++ "/" ++ String.concat "/" elems)%string.
    rewrite splitSlash_app. simpl (splitSlash "").
    destruct elems as [|x l]; [done|].
    rewrite splitSlash_concat by done. done.
  - destruct elems as [|x l]; [done|].
    by rewrite splitSlash_concat.
Qed.

Lemma elemsOf_render r elems : cleanList r elems -> elemsOf (render r elems) = elems.
Proof.
  intros H. unfold elemsOf. rewrite rooted_render by done.
  rewrite cleanElems_render by done. rewrite cleanElems_cleanList by done.
  apply rev_involutive.
Qed.

Lemma rooted_Clean path : rooted (Clean path) = rooted path.
Proof. rewrite Clean_render. apply rooted_render, elemsOf_clean. Qed.

Lemma elemsOf_Clean path : elemsOf (Clean path) = elemsOf path.
Proof. rewrite Clean_render. apply elemsOf_render, elemsOf_clean. Qed.

Lemma Clean_nonempty path : Clean path <> "".
Proof. rewrite Clean_render. apply render_nonempty, elemsOf_clean. Qed.

(** ** [filepath.Join] *)

Lemma cleanElems_concat_names r out names :
  Forall (fun nm => isName nm = true) names ->
  cleanElems r out (splitSlash (String.concat "/" names)) = rev names ++ out.
Proof.
  intros Hn. destruct names as [|x l]; [done|].
  rewrite splitSlash_concat; [by apply cleanElems_names|done|].
  eapply Forall_impl; [exact Hn|]. intros nm H. apply isName_spec in H. tauto.
Qed.

Lemma Join_elems dir elem :
  dir <> "" ->
  Join dir elem =
  render (rooted dir)
         (rev (cleanElems (rooted dir) (rev (elemsOf dir)) (splitSlash elem))).
Proof.
  intros Hd. unfold Join. apply String.eqb_neq in Hd. rewrite Hd.
  apply String.eqb_neq in Hd.
  rewrite Clean_render. unfold elemsOf at 1.
  rewrite rooted_app by done. rewrite splitSlash_app, cleanElems_app.
  unfold elemsOf. by rewrite rev_involutive.
Qed.

(** Joining names to a directory appends them to its cleaned elements. *)
Lemma Join_names dir names :
  dir <> "" -> Forall (fun nm => isName nm = true) names ->
  Join dir (String.concat "/" names) = render (rooted dir) (elemsOf dir ++ names).
Proof.
  intros Hd Hn. rewrite Join_elems by done.
  rewrite cleanElems_concat_names by done.
  by rewrite rev_app_distr, !rev_involutive.
Qed.

Lemma Join_name dir nm :
  dir <> "" -> isName nm = true ->
  Join dir nm = render (rooted dir) (elemsOf dir ++ [nm]).
Proof.
  intros Hd Hn. apply (Join_names dir [nm]); [done|]. by constructor.
Qed.

Lemma cleanList_app_names r elems names :
  cleanList r elems -> Forall (fun nm => isName nm = true) names ->
  cleanList r (elems ++ names).
Proof.
  intros (k & ns & -> & Hn & Hk) Hnames.
  exists k, (ns ++ names). rewrite app_assoc. split; [done|].
  split; [by apply Forall_app|done].
Qed.

(** The path of the walk for the entry that [names] lead to below
    [root]: one [Join] for each name. *)
Lemma fold_Join_names names : forall root,
  root <> "" -> names <> [] -> Forall (fun nm => isName nm = true) names ->
  fold_left Join names root = render (rooted root) (elemsOf root ++ names).
Proof.
  induction names as [|nm names IH] using rev_ind; intros root Hr Hne Hn; [done|].
  apply Forall_app in Hn as [Hn Hnm]. inversion Hnm; subst.
  rewrite fold_left_app. simpl.
  destruct names as [|n0 names'].
  - simpl. by apply Join_name.
  - rewrite IH by done. set (ns := n0 :: names') in *.
    assert (Hc : cleanList (rooted root) (elemsOf root ++ ns))
      by (apply cleanList_app_names; [apply elemsOf_clean | done]).
    rewrite Join_name by (try done; by apply render_nonempty).
    rewrite rooted_render, elemsOf_render by done. by rewrite <- app_assoc.
Qed.

Lemma fold_Join_Join names root :
  root <> "" -> names <> [] -> Forall (fun nm => isName nm = true) names ->
  fold_left Join names root = Join root (String.concat "/" names).
Proof. intros. rewrite fold_Join_names, Join_names by done. done. Qed.

(** ** The place a cleaned path names *)

(** Resolving goes through the elements as cleaning does, from the root
    or the working directory: cleaning first makes no difference. *)
Lemma cleanElems_cons r out e es :
  cleanElems r out (e :: es) = cleanElems r (cleanElems r out [e]) es.
Proof. apply (cleanElems_app r [e]). Qed.

Lemma cleanElems_precleaned init es : forall out,
  (forall e, e ∈ out -> e <> "" /\ e <> ".") ->
  cleanElems true init (rev (cleanElems false out es)) =
  cleanElems true (cleanElems true init (rev out)) es.
Proof.
  induction es as [|e es IH]; intros out Hout; [done|].
  rewrite (cleanElems_cons false), (cleanElems_cons true _ e).
  assert (Hstep :
    (forall e', e' ∈ cleanElems false out [e] -> e' <> "" /\ e' <> ".") /\
    cleanElems true init (rev (cleanElems false out [e])) =
    cleanElems true (cleanElems true init (rev out)) [e]).
  { remember (cleanElems true (cleanElems true init (rev out)) [e]) as R eqn:HR.
    cbn [cleanElems].
    destruct (String.eqb e "" || String.eqb e ".") eqn:E1.
    { split; [done|]. subst R. cbn [cleanElems]. by rewrite E1. }
    assert (Hpush : (forall e', e' ∈ e :: out -> e' <> "" /\ e' <> ".") /\
              cleanElems true init (rev (e :: out)) = R).
    { split; [|subst R; simpl (rev _); by rewrite cleanElems_app].
      apply orb_false_iff in E1 as [E1 E2].
      intros e' [->|H]%elem_of_cons; [|by apply Hout].
      by rewrite <- !String.eqb_neq. }
    destruct (String.eqb e "..") eqn:E3; [|exact Hpush].
    destruct out as [|top out']; [exact Hpush|].
    destruct (String.eqb top "..") eqn:E4; [exact Hpush|].
    split; [intros e' H; apply Hout; by right|].
    subst R. simpl (rev (top :: out')). rewrite cleanElems_app.
    destruct (Hout top) as [T1 T2]; [by left|].
    apply String.eqb_neq in T1, T2.
    cbn [cleanElems]. rewrite T1, T2, E4, E1, E3. cbn [orb]. by rewrite E4. }
  destruct Hstep as [Hinv Heq]. rewrite IH by done. by rewrite Heq.
Qed.

Lemma resolve_elemsOf d path :
  path <> "" ->
  os.resolve d path =
  Some (rev (cleanElems true (if rooted path then [] else rev (cwd d)) (elemsOf path))).
Proof.
  intros Hp. unfold os.resolve. apply String.eqb_neq in Hp. rewrite Hp.
  f_equal. f_equal. unfold elemsOf. destruct (rooted path) eqn:Hr.
  - rewrite (cleanElems_cleanList true (rev _)).
    + by rewrite rev_involutive.
    + pose proof (elemsOf_clean path) as H. unfold elemsOf in H. by rewrite Hr in H.
  - rewrite cleanElems_precleaned; [done|]. by intros e H%elem_of_nil.
Qed.

Lemma resolve_render d r elems :
  cleanList r elems ->
  os.resolve d (render r elems) =
  Some (rev (cleanElems true (if r then [] else rev (cwd d)) elems)).
Proof.
  intros H. rewrite resolve_elemsOf by (by apply render_nonempty).
  by rewrite rooted_render, elemsOf_render.
Qed.

Lemma resolve_Clean d path : path <> "" -> os.resolve d (Clean path) = os.resolve d path.
Proof.
  intros Hp. rewrite (resolve_elemsOf d path) by done.
  rewrite resolve_elemsOf by apply Clean_nonempty.
  by rewrite rooted_Clean, elemsOf_Clean.
Qed.

(** The names joined to a directory lead from the place of the
    directory to the place of the path. *)
Lemma resolve_Join_names d dir names q :
  dir <> "" -> Forall (fun nm => isName nm = true) names ->
  os.resolve d dir = Some q ->
  os.resolve d (Join dir (String.concat "/" names)) = Some (q ++ names).
Proof.
  intros Hd Hn Hq. rewrite Join_names by done.
  rewrite resolve_render by (apply cleanList_app_names; [apply elemsOf_clean | done]).
  rewrite resolve_elemsOf in Hq by done. injection Hq as <-.
  rewrite cleanElems_app, cleanElems_names by done.
  by rewrite rev_app_distr, rev_involutive.
Qed.

Lemma resolve_Join_name d dir nm q :
  dir <> "" -> isName nm = true ->
  os.resolve d dir = Some q -> os.resolve d (Join dir nm) = Some (q ++ [nm]).
Proof.
  intros Hd Hn. apply (resolve_Join_names d dir [nm]); [done|]. by constructor.
Qed.

(** ** The last element of a joined path *)

Lemma append_assoc (a b c : string) : ((a ++ b) ++ c = a ++ b ++ c)%string.
Proof.
  induction a as [|x a IH]; [done|].
  change (String x ((a ++ b) ++ c) = String x (a ++ b ++ c))%string. by f_equal.
Qed.

Lemma concat_snoc l nm :
  l <> [] -> String.concat "/" (l ++ [nm]) = (String.concat "/" l ++ "/" ++ nm)%string.
Proof.
  induction l as [|x [|y l] IH]; [done|done|]. intros _.
  change ((x :: y :: l) ++ [nm]) with (x :: y :: (l ++ [nm])).
  rewrite !concat_cons. change (y :: l ++ [nm]) with ((y :: l) ++ [nm]).
  rewrite IH by done. by rewrite <- !append_assoc.
Qed.

Lemma render_snoc r elems nm :
  render r (elems ++ [nm]) = nm \/
  exists pre, render r (elems ++ [nm]) = (pre ++ "/" ++ nm)%string.
Proof.
  unfold render. destruct elems as [|x l].
  - destruct r; [right; by exists ""|by left].
  - right. rewrite concat_snoc by done. destruct r; [|eauto].
    exists ("/" ++ String.concat "/" (x :: l))%string.
    by rewrite <- !append_assoc.
Qed.

Lemma Ext_after_slash pre nm :
  hasSlash nm = false -> Ext (pre ++ "/" ++ nm) = Ext nm.
Proof.
  intros Hs. induction pre as [|c pre IH].
  - change ("" ++ "/" ++ nm)%string with (String "/" nm). cbn [Ext].
    by destruct (Ext nm).
  - change (String c pre ++ "/" ++ nm)%string with (String c (pre ++ "/" ++ nm)).
    cbn [Ext]. rewrite IH. destruct (Ext nm); [|done].
    assert (hasSlash (pre ++ "/" ++ nm) = true) as ->.
    { clear. induction pre as [|c' pre IH]; [done|].
      change (String c' pre ++ "/" ++ nm)%string with (String c' (pre ++ "/" ++ nm)).
      simpl. rewrite IH. apply orb_true_r. }
    by rewrite andb_false_r.
Qed.

Lemma Ext_Join dir nm :
  dir <> "" -> isName nm = true -> Ext (Join dir nm) = Ext nm.
Proof.
  intros Hd Hn. rewrite Join_name by done.
  destruct (render_snoc (rooted dir) (elemsOf dir) nm) as [->|[pre ->]]; [done|].
  apply Ext_after_slash. apply isName_spec in Hn. tauto.
Qed.

Lemma last_snoc {B} (l : list B) x d : List.last (l ++ [x]) d = x.
Proof. apply List.last_last. Qed.

Lemma Base_render r elems nm :
  cleanList r elems -> isName nm = true -> Base (render r (elems ++ [nm])) = nm.
Proof.
  intros Hc Hn.
  assert (Hc' : cleanList r (elems ++ [nm])) by (by apply cleanList_snoc).
  pose proof (render_nonempty _ _ Hc') as Hne.
  unfold Base. destruct (render r (elems ++ [nm])) as [|c s] eqn:E; [done|].
  rewrite <- E. clear E Hne.
  assert (Hf : List.filter (fun e => negb (String.eqb e ""))
                 (splitSlash (render r (elems ++ [nm]))) = elems ++ [nm]).
  { unfold render. pose proof (cleanList_noslash _ _ Hc') as Hs.
    destruct r.
    - change ("/" ++ String.concat "/" (elems ++ [nm]))%string
        with ("" ++ "/" ++ String.concat "/" (elems ++ [nm]))%string.
      rewrite splitSlash_app, splitSlash_concat by (try done; by destruct elems).
      simpl. by apply (filter_nonempty_clean true).
    - destruct (elems ++ [nm]) as [|x l] eqn:E; [by destruct elems|].
      rewrite splitSlash_concat by done. rewrite <- E in *.
      by apply (filter_nonempty_clean false). }
  rewrite Hf. destruct elems as [|x l]; [done|].
  change ((x :: l) ++ [nm]) with (x :: (l ++ [nm])). apply last_snoc.
Qed.

Lemma Base_Join dir nm :
  dir <> "" -> isName nm = true -> Base (Join dir nm) = nm.
Proof.
  intros Hd Hn. rewrite Join_name by done.
  apply Base_render; [apply elemsOf_clean | done].
Qed.

(** ** [filepath.Rel] of a path below its base *)

Lemma Clean_clean r elems : cleanList r elems -> Clean (render r elems) = render r elems.
Proof.
  intros H. by rewrite Clean_render, rooted_render, elemsOf_render.
Qed.

Lemma render_dot r elems :
  cleanList r elems -> render r elems = "." -> r = false /\ elems = [].
Proof.
  intros H E. split.
  - rewrite <- (rooted_render r elems H). by rewrite E.
  - rewrite <- (elemsOf_render r elems H). by rewrite E.
Qed.

Lemma filter_split_render r elems :
  cleanList r elems -> render r elems <> "." ->
  List.filter (fun e => negb (String.eqb e "")) (splitSlash (render r elems)) = elems.
Proof.
  intros Hc Hd. pose proof (cleanList_noslash _ _ Hc) as Hs.
  unfold render in *. destruct r.
  - change ("/" ++ String.concat "/" elems)%string
      with ("" ++ "/" ++ String.concat "/" elems)%string.
    rewrite splitSlash_app. destruct elems as [|x l]; [done|].
    rewrite splitSlash_concat by done.
    rewrite List.filter_app. rewrite (filter_nonempty_clean true (x :: l)) by done.
    done.
  - destruct elems as [|x l]; [done|].
    rewrite splitSlash_concat by done. by apply (filter_nonempty_clean false).
Qed.

Lemma dropCommon_prefix l t : dropCommon l (l ++ t) = ([], t).
Proof.
  induction l as [|x l IH]; simpl; [by destruct t|].
  by rewrite String.eqb_refl.
Qed.

(** The path relative to [base] of what [names] lead to below it is the
    names, joined. *)
Lemma Rel_names base names :
  names <> [] -> Forall (fun nm => isName nm = true) names ->
  Rel base (render (rooted base) (elemsOf base ++ names)) = String.concat "/" names.
Proof.
  intros Hne Hn. unfold Rel.
  pose proof (elemsOf_clean base) as Hb.
  assert (Ht : cleanList (rooted base) (elemsOf base ++ names))
    by (by apply cleanList_app_names).
  rewrite (Clean_clean _ _ Ht). rewrite (Clean_render base).
  set (r := rooted base) in *. set (E := elemsOf base) in *.
  assert (Hneq : render r (E ++ names) <> render r E).
  { intros Heq. apply (f_equal elemsOf) in Heq.
    rewrite !elemsOf_render in Heq by done.
    rewrite <- (app_nil_r E) in Heq at 2. apply app_inv_head in Heq. done. }
  apply String.eqb_neq in Hneq. rewrite Hneq.
  assert (Htd : render r (E ++ names) <> ".").
  { intros Hd. apply render_dot in Hd as [_ Hd]; [|done]. by destruct E, names. }
  rewrite (filter_split_render _ _ Ht Htd).
  destruct (String.eqb (render r E) ".") eqn:Hdot.
  - apply String.eqb_eq in Hdot. apply render_dot in Hdot as [Hr HE]; [|done].
    rewrite (rooted_render _ _ Ht), Hr, HE. simpl. by destruct names.
  - apply String.eqb_neq in Hdot.
    rewrite !rooted_render by done. rewrite Bool.eqb_reflx. cbn [negb].
    rewrite (filter_split_render _ _ Hb Hdot), dropCommon_prefix. done.
Qed.

(** Joining the relative path to the base gives the path back. *)
Lemma Join_Rel base names :
  base <> "" -> names <> [] -> Forall (fun nm => isName nm = true) names ->
  Join base (Rel base (fold_left Join names base)) = fold_left Join names base.
Proof.
  intros Hb Hne Hn. rewrite fold_Join_names by done.
  rewrite Rel_names by done. by rewrite Join_names.
Qed.

(** * The walk, read off the tree *)

Lemma walk_note n path name vs0 :
  walk noteVisit path name n vs0 = (vs0 ++ fst (walk noteVisit path name n []), None).
Proof. by destruct (walk_visits exConfig n path name) as [H _]. Qed.

Lemma last_cons {B} (x : B) l d : List.last (x :: l) d = List.last l x.
Proof.
  revert x d. induction l as [|y l IH]; intros x d; [done|].
  change (List.last (y :: l) d = List.last (y :: l) x). by rewrite (IH y d), (IH y x).
Qed.

Lemma walkEach_note path ents : forall vs0,
  walkEach noteVisit (walk noteVisit) path ents vs0 =
  (vs0 ++ flat_map (fun e =>
             match snd e with
             | BadNode => [visitOf (Join path (fst e)) (fst e) BadNode]
             | _ => fst (walk noteVisit (Join path (fst e)) (fst e) (snd e) [])
             end) ents, None).
Proof.
  induction ents as [|[nm child] ents IH]; intros vs0.
  - cbn. by rewrite app_nil_r.
  - assert (Hdec : child = BadNode \/ child <> BadNode)
      by (destruct child; auto; right; discriminate).
    destruct Hdec as [->|Hbad].
    + rewrite walkEach_bad. cbn [noteVisit]. rewrite IH.
      cbn [flat_map fst snd visitOf]. by rewrite <- !app_assoc.
    + rewrite walkEach_child by done. rewrite walk_note, IH.
      cbn [flat_map fst snd]. rewrite <- !app_assoc. by destruct child.
Qed.

(** The calls of an uninterrupted walk are the calls for the entries of
    [walked], in that order. *)
Lemma walk_walked n : forall path name,
  n <> BadNode ->
  fst (walk noteVisit path name n []) = map (visitBelow path name) (walked n).
Proof.
  induction n as [body| |r ents IH] using node_nested_ind; intros path name Hn;
    [done|done|].
  destruct r; [|done].
  rewrite walk_dir. cbn [noteVisit app]. rewrite walkEach_note.
  cbn [fst walked map]. f_equal.
  clear Hn. induction IH as [|[nm child] ents Hchild _ IHe]; [done|].
  cbn [flat_map fst snd]. rewrite map_app, IHe. f_equal.
  rewrite map_map.
  assert (Hdec : child = BadNode \/ child <> BadNode)
    by (destruct child; auto; right; discriminate).
  destruct Hdec as [->|Hbad]; [done|].
  cbn [snd] in Hchild. rewrite (Hchild _ _ Hbad).
  replace (match child with
           | BadNode => [visitOf (Join path nm) nm BadNode]
           | _ => map (visitBelow (Join path nm) nm) (walked child)
           end) with (map (visitBelow (Join path nm) nm) (walked child))
    by (by destruct child).
  apply map_ext. intros [names n']. unfold visitBelow. cbn [fst snd fold_left].
  by rewrite last_cons.
Qed.

(** ** The entries of [walked] and the places of the tree *)

Lemma getEntry_In c ents child : getEntry c ents = Some child -> (c, child) ∈ ents.
Proof.
  induction ents as [|[k v] ents IH]; simpl; [done|].
  destruct (String.eqb c k) eqn:E.
  - apply String.eqb_eq in E as ->. intros [= ->]. by left.
  - intros H. right. by apply IH.
Qed.

Lemma uniqueNames_NoDup l : uniqueNames l = true -> NoDup l.
Proof.
  induction l as [|y l IH]; simpl; [constructor|].
  intros [Hy Hl]%andb_true_iff. constructor; [|by apply IH].
  intros Hin. apply negb_true_iff in Hy.
  assert (existsb (String.eqb y) l = true); [|congruence].
  apply existsb_exists. exists y. split; [by apply list_elem_of_In|].
  apply String.eqb_refl.
Qed.

Lemma getEntry_unique c child ents :
  NoDup (map fst ents) -> (c, child) ∈ ents -> getEntry c ents = Some child.
Proof.
  induction ents as [|[k v] ents IH]; simpl; [by intros _ H%elem_of_nil|].
  intros Hnd [[= <- <-]|Hin]%elem_of_cons.
  - by rewrite String.eqb_refl.
  - inversion Hnd as [|? ? Hk Hnd']; subst.
    destruct (String.eqb c k) eqn:E; [|by apply IH].
    apply String.eqb_eq in E as ->. exfalso. apply Hk.
    apply list_elem_of_fmap. by exists (k, child).
Qed.

Lemma wellNamed_dir r ents :
  wellNamed (DirNode r ents) = true ->
  Forall (fun e => isName (fst e) = true) ents /\
  NoDup (map fst ents) /\
  Forall (fun e => wellNamed (snd e) = true) ents.
Proof.
  cbn [wellNamed]. intros [[H1 H2]%andb_true_iff H3]%andb_true_iff.
  split; [|split].
  - apply Forall_forall. intros e He. rewrite forallb_forall in H1.
    by apply H1, list_elem_of_In.
  - by apply uniqueNames_NoDup.
  - apply Forall_forall. intros e He. rewrite forallb_forall in H3.
    by apply H3, list_elem_of_In.
Qed.

Lemma walked_dir ents x :
  x ∈ walked (DirNode true ents) <->
  x = ([], DirNode true ents) \/
  exists nm child names,
    (nm, child) ∈ ents /\ (names, snd x) ∈ walked child /\ fst x = nm :: names.
Proof.
  cbn [walked]. rewrite elem_of_cons. apply or_iff_compat_l.
  rewrite list_elem_of_In, in_flat_map. split.
  - intros ([nm child] & He & Hx). apply list_elem_of_In in He, Hx.
    apply list_elem_of_fmap in Hx as ([names n'] & -> & Hx).
    exists nm, child, names. done.
  - intros (nm & child & names & He & Hx & Hf).
    exists (nm, child). split; [by apply list_elem_of_In|].
    apply list_elem_of_In, list_elem_of_fmap. exists (names, snd x).
    split; [|done]. destruct x. simpl in *. by subst.
Qed.

(** Under [wellNamed], an entry of [walked] is the node its names lead
    to. *)
Lemma walked_lookup n : forall names n',
  wellNamed n = true -> (names, n') ∈ walked n ->
  lookup names n = Some n' /\ Forall (fun nm => isName nm = true) names.
Proof.
  induction n as [body| |r ents IH] using node_nested_ind; intros names n' Hw Hx.
  - apply list_elem_of_singleton in Hx as [= -> ->]. done.
  - apply list_elem_of_singleton in Hx as [= -> ->]. done.
  - destruct r; [|apply list_elem_of_singleton in Hx as [= -> ->]; done].
    apply walked_dir in Hx as [[= -> ->]|(nm & child & ns & He & Hx & Hf)]; [done|].
    simpl in Hf, Hx. subst names.
    apply wellNamed_dir in Hw as (Hnames & Hnd & Hsub).
    rewrite Forall_forall in IH, Hnames, Hsub.
    destruct (IH _ He ns n' (Hsub _ He) Hx) as [Hl Hn].
    split; [|constructor; [by apply (Hnames _ He)|done]].
    cbn [lookup]. by rewrite (getEntry_unique nm child ents).
Qed.

(** A node that an uninterrupted walk reports no error for. *)
Lemma visitErr_visitOf path name n :
  visitErr (visitOf path name n) = None <->
  (exists body, n = FileNode body) \/ (exists ents, n = DirNode true ents).
Proof.
  destruct n as [body|[] ents|]; simpl; split; eauto; try done.
  - intros [[? [=]]|[? [=]]].
  - intros [[? [=]]|[? [=]]].
Qed.

(** When the walk reports no error, the node that names lead to is an
    entry of [walked]. *)
Lemma lookup_walked n : forall names n',
  (forall x, x ∈ walked n -> visitErr (visitOf "" "" (snd x)) = None) ->
  lookup names n = Some n' -> (names, n') ∈ walked n.
Proof.
  induction n as [body| |r ents IH] using node_nested_ind; intros names n' Hok Hl.
  - destruct names; [|done]. injection Hl as <-. by left.
  - destruct names; [|done]. injection Hl as <-. by left.
  - destruct names as [|nm names].
    { injection Hl as <-. destruct r; by left. }
    destruct r.
    2:{ assert (H : visitErr (visitOf "" "" (DirNode false ents)) = None)
          by (apply (Hok ([], DirNode false ents)); by left).
        done. }
    cbn [lookup] in Hl. destruct (getEntry nm ents) as [child|] eqn:Hg; [|done].
    apply getEntry_In in Hg. rewrite Forall_forall in IH.
    apply walked_dir. right. exists nm, child, names. split; [done|]. split; [|done].
    apply (IH _ Hg); [|done].
    intros x Hx. apply (Hok (nm :: fst x, snd x)). apply walked_dir. right.
    exists nm, child, (fst x). by destruct x.
Qed.

Lemma lookup_app p : forall q n n',
  lookup p n = Some n' -> lookup (p ++ q) n = lookup q n'.
Proof.
  induction p as [|c p IH]; intros q n n'; simpl; [by intros [= ->]|].
  destruct n as [|r ents|]; try done.
  destruct (getEntry c ents); [apply IH | done].
Qed.

Lemma wellNamed_lookup p : forall n n',
  wellNamed n = true -> lookup p n = Some n' -> wellNamed n' = true.
Proof.
  induction p as [|c p IH]; intros n n' Hw; simpl; [by intros [= <-]|].
  destruct n as [|r ents|]; try done.
  destruct (getEntry c ents) as [child|] eqn:Hg; [|done].
  apply IH. apply getEntry_In in Hg.
  apply wellNamed_dir in Hw as (_ & _ & Hsub). rewrite Forall_forall in Hsub.
  by apply (Hsub _ Hg).
Qed.

(** No two entries of [walked] have the same names. *)
Lemma walked_NoDup n : wellNamed n = true -> NoDup (map fst (walked n)).
Proof.
  induction n as [body| |r ents IH] using node_nested_ind; intros Hw;
    [by repeat constructor; intros H%elem_of_nil ..|].
  destruct r; [|by repeat constructor; intros H%elem_of_nil].
  apply wellNamed_dir in Hw as (_ & Hnd & Hsub).
  cbn [walked map fst]. constructor.
  { intros Hin. apply list_elem_of_fmap in Hin as (x & Hx0 & Hx).
    apply list_elem_of_In, in_flat_map in Hx as (e & _ & Hx).
    apply list_elem_of_In, list_elem_of_fmap in Hx as (y & -> & _). done. }
  induction ents as [|[nm child] ents IHe]; [constructor|].
  inversion IH as [|? ? Hc IH']; subst. inversion Hsub as [|? ? Hwc Hsub']; subst.
  inversion Hnd as [|? ? Hnm Hnd']; subst.
  cbn [flat_map fst snd]. rewrite map_app. apply NoDup_app. split; [|split].
  - rewrite map_map. cbn [fst].
    rewrite <- (map_map fst (cons nm)). apply NoDup_fmap_2; [|by apply Hc].
    intros a b [= ->]. done.
  - intros names H1 H2.
    apply list_elem_of_fmap in H1 as (x & -> & Hx).
    apply list_elem_of_fmap in Hx as (y & -> & _). cbn [fst] in H2.
    apply list_elem_of_fmap in H2 as (z & Hz0 & Hz).
    apply list_elem_of_In, in_flat_map in Hz as (e & He & Hz).
    apply list_elem_of_In, list_elem_of_fmap in Hz as (u & -> & _).
    cbn [fst] in Hz0. injection Hz0 as Hz0 _. apply Hnm.
    apply list_elem_of_fmap. exists e. split; [done | by apply list_elem_of_In].
  - by apply IHe.
Qed.

(** Under [wellNamed], what leads to a node is names. *)
Lemma lookup_names names : forall n n',
  wellNamed n = true -> lookup names n = Some n' ->
  Forall (fun nm => isName nm = true) names.
Proof.
  induction names as [|c names IH]; intros n n' Hw Hl; [constructor|].
  destruct n as [|r ents|]; try done. cbn [lookup] in Hl.
  destruct (getEntry c ents) as [child|] eqn:Hg; [|done].
  apply getEntry_In in Hg. apply wellNamed_dir in Hw as (Hn & _ & Hsub).
  rewrite Forall_forall in Hn, Hsub. constructor.
  - by apply (Hn _ Hg).
  - by apply (IH child n'); [apply (Hsub _ Hg)|].
Qed.

(** * What a scan lists *)

Lemma walkVisits_walked d root p n :
  os.resolve d root = Some p -> lookup p (tree d) = Some n -> n <> BadNode ->
  walkVisits d root = map (visitBelow root (Base root)) (walked n).
Proof.
  intros Hp Hl Hn. unfold walkVisits, Walk. rewrite Hp, Hl.
  rewrite <- (walk_walked n root (Base root) Hn).
  replace (match n with
           | BadNode => noteVisit root None (Some (PathError "lstat" root)) []
           | _ => walk noteVisit root (Base root) n []
           end) with (walk noteVisit root (Base root) n [])
    by (by destruct n).
  by rewrite walk_note.
Qed.

(** Without a node to walk, the only call reports the error of
    [os.Lstat]. *)
Lemma walkVisits_missing d root :
  (forall p n, os.resolve d root = Some p -> lookup p (tree d) = Some n -> n = BadNode) ->
  walkVisits d root = [visitOf root "" BadNode].
Proof.
  intros H. unfold walkVisits, Walk.
  destruct (os.resolve d root) as [p|]; [|done].
  destruct (lookup p (tree d)) as [n|] eqn:Hl; [|done].
  by rewrite (H p n eq_refl Hl).
Qed.

Lemma scanned_Permutation cfg d :
  scanned cfg d ≡ₚ accepted cfg (beforeError (walkVisits d (MediaDir cfg))).
Proof.
  unfold scanned. pose proof (Walk_visits cfg d (MediaDir cfg)) as Hw.
  destruct (Walk (scanMedia_fn cfg) d (MediaDir cfg) []) as [l err].
  simpl in Hw. subst l.
  by destruct (Slice_sorts byName byName_irrefl byName_trans byName_notless_trans
                 (accepted cfg (beforeError (walkVisits d (MediaDir cfg))))).
Qed.

Lemma accepted_inv cfg vs m :
  m ∈ accepted cfg vs <->
  exists v info,
    v ∈ vs /\ visitInfo v = Some info /\ fs.IsDir info = false /\
    supportedExts (ToLower (Ext (visitPath v))) = true /\
    m = {| Name := fs.Name info;
           Path := visitPath v;
           URL := ("/media/" ++ ToSlash (Rel (MediaDir cfg) (visitPath v)))%string |}.
Proof.
  unfold accepted. rewrite list_elem_of_In, in_flat_map. split.
  - intros (v & Hv & Hm). apply list_elem_of_In in Hv. unfold scanMedia_fn in Hm.
    destruct (visitInfo v) as [info|] eqn:Hi; [|done].
    destruct (fs.IsDir info) eqn:Hd; [done|]. simpl in Hm.
    destruct (supportedExts (ToLower (Ext (visitPath v)))) eqn:E; [|done].
    destruct Hm as [<-|[]]. by exists v, info.
  - intros (v & info & Hv & Hi & Hd & He & ->). exists v.
    split; [by apply list_elem_of_In|].
    unfold scanMedia_fn. rewrite Hi, Hd. simpl. rewrite He. by left.
Qed.

Lemma beforeError_subseteq vs : beforeError vs ⊆ vs.
Proof.
  induction vs as [|v vs IH]; simpl; [done|].
  destruct (visitErr v); [by intros x H%elem_of_nil|].
  intros x [->|H]%elem_of_cons; [by left | right; by apply IH].
Qed.

Lemma last_nonempty {B} (l : list B) d d' : l <> [] -> List.last l d = List.last l d'.
Proof.
  destruct l as [|x l _] using rev_ind; [done|]. intros _. by rewrite !last_last.
Qed.

Lemma Base_fold_Join names root :
  root <> "" -> names <> [] -> Forall (fun nm => isName nm = true) names ->
  Base (fold_left Join names root) = List.last names "".
Proof.
  intros Hr Hne Hn. rewrite fold_Join_names by done.
  destruct names as [|nm ns _] using rev_ind; [done|].
  apply Forall_app in Hn as [Hns Hnm]. inversion Hnm; subst.
  rewrite app_assoc, last_last. apply Base_render; [|done].
  apply cleanList_app_names; [apply elemsOf_clean | done].
Qed.

Lemma Ext_fold_Join names root :
  root <> "" -> names <> [] -> Forall (fun nm => isName nm = true) names ->
  Ext (fold_left Join names root) = Ext (List.last names "").
Proof.
  intros Hr Hne Hn. rewrite fold_Join_names by done.
  destruct names as [|nm ns _] using rev_ind; [done|].
  apply Forall_app in Hn as [Hns Hnm]. inversion Hnm as [|? ? Hnm' _]; subst.
  rewrite app_assoc, last_last.
  destruct (render_snoc (rooted root) (elemsOf root ++ ns) nm) as [->|[pre ->]]; [done|].
  apply Ext_after_slash. apply isName_spec in Hnm'. tauto.
Qed.

Lemma resolve_nonempty d path p : os.resolve d path = Some p -> path <> "".
Proof. unfold os.resolve. by destruct (String.eqb_spec path ""). Qed.

Lemma resolve_fold_Join d root names p :
  os.resolve d root = Some p -> Forall (fun nm => isName nm = true) names ->
  os.resolve d (fold_left Join names root) = Some (p ++ names).
Proof.
  intros Hp Hn. pose proof (resolve_nonempty _ _ _ Hp) as Hr.
  destruct names as [|nm ns]; [by rewrite app_nil_r|].
  rewrite fold_Join_Join by done. by apply resolve_Join_names.
Qed.

(** What an entry of the inventory is: the file that some names lead to
    from the media directory. *)
Lemma scanned_inv cfg d m :
  wellNamed (tree d) = true -> m ∈ scanned cfg d ->
  exists p n names body,
    os.resolve d (MediaDir cfg) = Some p /\
    lookup p (tree d) = Some n /\
    Forall (fun nm => isName nm = true) names /\
    lookup names n = Some (FileNode body) /\
    m = {| Name := List.last names (Base (MediaDir cfg));
           Path := fold_left Join names (MediaDir cfg);
           URL := ("/media/" ++
                   ToSlash (Rel (MediaDir cfg) (fold_left Join names (MediaDir cfg))))%string |}.
Proof.
  intros Hw Hm. rewrite scanned_Permutation in Hm.
  apply accepted_inv in Hm as (v & info & Hv & Hi & Hd & He & ->).
  apply beforeError_subseteq in Hv.
  destruct (os.resolve d (MediaDir cfg)) as [p|] eqn:Hp.
  2:{ rewrite walkVisits_missing in Hv by (intros; congruence).
      apply list_elem_of_singleton in Hv as ->. done. }
  destruct (lookup p (tree d)) as [n|] eqn:Hl.
  2:{ rewrite walkVisits_missing in Hv by (intros; congruence).
      apply list_elem_of_singleton in Hv as ->. done. }
  assert (Hdec : n = BadNode \/ n <> BadNode)
    by (destruct n; auto; right; discriminate).
  destruct Hdec as [->|Hn].
  { rewrite walkVisits_missing in Hv by (intros; congruence).
    apply list_elem_of_singleton in Hv as ->. done. }
  rewrite (walkVisits_walked d _ p n) in Hv by done.
  apply list_elem_of_fmap in Hv as ([names n'] & -> & Hx).
  apply walked_lookup in Hx as [Hx Hnames]; [|by eapply wellNamed_lookup].
  unfold visitBelow in *. cbn [fst snd] in *.
  destruct n' as [body|r ents|]; simpl in Hi; try done.
  2:{ injection Hi as <-. done. }
  injection Hi as <-. exists p, n, names, body. done.
Qed.

Lemma firstError_None vs :
  firstError vs = None <-> Forall (fun v => visitErr v = None) vs.
Proof.
  induction vs as [|v vs IH]; simpl; [by split; [constructor|]|].
  destruct (visitErr v) eqn:E.
  - split; [done|]. inversion 1; congruence.
  - rewrite IH. split; [by constructor | by inversion 1].
Qed.

(** The error [filepath.Walk] returns to [scanMedia] is the first error
    the walk reports. *)
Lemma Walk_error cfg d root :
  snd (Walk (scanMedia_fn cfg) d root []) = firstError (walkVisits d root).
Proof.
  unfold walkVisits, Walk.
  assert (Hfail : forall e, isPathError e ->
    snd (let '(s, err) := scanMedia_fn cfg root None (Some e) [] in
         match err with
         | Some SkipDir | Some SkipAll => (s, None)
         | _ => (s, err)
         end) =
    firstError (fst (
         let '(s, err) := noteVisit root None (Some e) [] in
         match err with
         | Some SkipDir | Some SkipAll => (s, None)
         | _ => (s, err)
         end))) by (by intros []).
  destruct (os.resolve d root) as [p|]; [|by apply Hfail].
  destruct (lookup p (tree d)) as [n|]; [|by apply Hfail].
  assert (Hn : n = BadNode \/ n <> BadNode)
    by (destruct n; auto; right; discriminate).
  destruct Hn as [->|Hn]; [by apply Hfail|].
  destruct (walk_visits cfg n root (Base root)) as (Happ & Hpe & Hstop).
  specialize (Hstop []). unfold stopsAtError in Hstop.
  replace (match n with
           | BadNode => scanMedia_fn cfg root None (Some (PathError "lstat" root)) []
           | _ => walk (scanMedia_fn cfg) root (Base root) n []
           end) with (walk (scanMedia_fn cfg) root (Base root) n [])
    by (by destruct n).
  replace (match n with
           | BadNode => noteVisit root None (Some (PathError "lstat" root)) []
           | _ => walk noteVisit root (Base root) n []
           end) with (walk noteVisit root (Base root) n [])
    by (by destruct n).
  rewrite Hstop, (Happ []). cbn [app fst snd].
  destruct (firstError _) as [e|] eqn:He; [|done].
  apply firstError_pathError in He; [|done]. by destruct e.
Qed.

Lemma lookup_app_inv p : forall q n n',
  lookup (p ++ q) n = Some n' ->
  exists n1, lookup p n = Some n1 /\ lookup q n1 = Some n'.
Proof.
  induction p as [|c p IH]; intros q n n'; simpl; [eauto|].
  destruct n as [|r ents|]; try done.
  destruct (getEntry c ents); [apply IH | done].
Qed.

(** Every entry of a scanned inventory is an entry of the disk that the
    walk found at its [Path]: [os.Lstat] of the path succeeds and
    reports no directory, which is all the scan asks of an entry, the
    name it reports is the [Name], and the extension of the path is a
    supported one. *)
Theorem scan_lists_what_lstat_finds cfg d m :
  wellNamed (tree d) = true ->
  m ∈ scanned cfg d ->
  exists info,
    Lstat d (Path m) = Ok info /\
    fs.IsDir info = false /\
    fs.Name info = Name m /\
    supportedExts (ToLower (Ext (Path m))) = true.
Proof.
  intros Hw Hm. pose proof (scanned_supported cfg d m Hm) as Hext.
  apply scanned_inv in Hm as (p & n & names & body & Hp & Hl & Hn & Hf & ->); [|done].
  cbn [Path Name] in *.
  exists {| fs.Name := Base (fold_left Join names (MediaDir cfg)); fs.IsDir := false |}.
  split; [|split; [done|split; [|done]]].
  - unfold Lstat, os.Stat. rewrite (resolve_fold_Join d _ names p) by done.
    by rewrite (lookup_app p names _ n), Hf.
  - cbn [fs.Name]. destruct names as [|nm ns]; [done|].
    rewrite Base_fold_Join by (try done; by eapply resolve_nonempty).
    symmetry. by apply last_nonempty.
Qed.

Lemma scan_lists_what_lstat_finds_witness :
  exists info,
    Lstat (exDisk exTwinEntries) "media/b/a.mp4" = Ok info /\
    fs.IsDir info = false /\
    fs.Name info = "a.mp4" /\
    supportedExts (ToLower (Ext "media/b/a.mp4")) = true.
Proof.
  apply (scan_lists_what_lstat_finds exConfig (exDisk exTwinEntries)
           {| Name := "a.mp4"; Path := "media/b/a.mp4"; URL := "/media/b/a.mp4" |}).
  - reflexivity.
  - apply list_elem_of_In. vm_compute. auto.
Defined.

Lemma scanned_complete cfg d p names body :
  wellNamed (tree d) = true ->
  scanError cfg d = None ->
  os.resolve d (MediaDir cfg) = Some p ->
  names <> [] ->
  lookup (p ++ names) (tree d) = Some (FileNode body) ->
  supportedExts (ToLower (Ext (List.last names ""))) = true ->
  {| Name := List.last names "";
     Path := Join (MediaDir cfg) (String.concat "/" names);
     URL := ("/media/" ++ String.concat "/" names)%string |} ∈ scanned cfg d.
Proof.
  intros Hw Herr Hp Hne Hl Hext.
  pose proof (resolve_nonempty _ _ _ Hp) as Hr.
  apply lookup_app_inv in Hl as (n & Hn & Hl).
  assert (Hbad : n <> BadNode) by (intros ->; by destruct names).
  unfold scanError in Herr. rewrite Walk_error in Herr.
  rewrite scanned_Permutation, (beforeError_all _ Herr).
  apply firstError_None in Herr.
  rewrite (walkVisits_walked d _ p n) in * by done.
  assert (Hx : (names, FileNode body) ∈ walked n).
  { apply lookup_walked; [|done]. intros x Hx.
    rewrite Forall_forall in Herr.
    specialize (Herr (visitBelow (MediaDir cfg) (Base (MediaDir cfg)) x)).
    apply visitErr_visitOf. eapply visitErr_visitOf. apply Herr.
    apply list_elem_of_fmap. eauto. }
  pose proof (walked_lookup n names _ (wellNamed_lookup _ _ _ Hw Hn) Hx) as [_ Hnames].
  apply accepted_inv.
  exists (visitBelow (MediaDir cfg) (Base (MediaDir cfg)) (names, FileNode body)).
  eexists. split; [apply list_elem_of_fmap; eauto|].
  unfold visitBelow. cbn [fst snd visitOf visitInfo visitPath].
  split; [done|]. split; [done|]. cbn [fs.Name].
  rewrite Ext_fold_Join by done. split; [done|].
  rewrite (last_nonempty names (Base (MediaDir cfg)) "") by done.
  rewrite <- fold_Join_Join by done. do 2 f_equal.
  rewrite fold_Join_names by done. unfold ToSlash. by rewrite Rel_names.
Qed.

(** When the walk reports no error, every regular file that names lead
    to from the media directory, through directories and from a media
    directory that is one, and whose name has a supported extension, in
    any case of the letters, is in the scanned inventory: under its own
    name, with the path joined from the media directory and the names
    that lead to it, and with the URL [/media/] followed by these
    names.  (The walk does not follow symbolic links, and the tree has
    none: what is behind a link is not below the media directory.) *)
Theorem scan_finds_every_media_file cfg d p names body :
  wellNamed (tree d) = true ->
  scanError cfg d = None ->
  os.resolve d (MediaDir cfg) = Some p ->
  names <> [] ->
  lookup (p ++ names) (tree d) = Some (FileNode body) ->
  supportedExts (ToLower (Ext (List.last names ""))) = true ->
  {| Name := List.last names "";
     Path := Join (MediaDir cfg) (String.concat "/" names);
     URL := ("/media/" ++ String.concat "/" names)%string |} ∈ scanned cfg d.
Proof. apply scanned_complete. Qed.

Lemma scan_finds_every_media_file_witness :
  {| Name := "clip.mp4"; Path := "media/c/clip.mp4"; URL := "/media/c/clip.mp4" |}
    ∈ scanned exConfig (exDisk exTwinEntries).
Proof.
  apply (scan_finds_every_media_file exConfig (exDisk exTwinEntries)
           ["srv"; "media"] ["c"; "clip.mp4"] (list_byte_of_string "3"));
    try reflexivity. discriminate.
Defined.

(** The URL of an entry leads back to its file: when the media directory
    is a directory, the URL is [/media/] followed by a relative path, and
    joining that path to the media directory, as the file server and
    [syncFromS3] do, gives the [Path] of the entry. *)
Theorem inventory_url_leads_to_path cfg d p r ents m :
  wellNamed (tree d) = true ->
  os.resolve d (MediaDir cfg) = Some p ->
  lookup p (tree d) = Some (DirNode r ents) ->
  m ∈ scanned cfg d ->
  exists key,
    URL m = ("/media/" ++ key)%string /\
    Join (MediaDir cfg) key = Path m /\
    Base key = Name m.
Proof.
  intros Hw Hp Hl Hm.
  pose proof (resolve_nonempty _ _ _ Hp) as Hr.
  apply scanned_inv in Hm as (p' & n & names & body & Hp' & Hl' & Hn & Hf & ->); [|done].
  assert (p' = p) as -> by congruence.
  assert (n = DirNode r ents) as -> by congruence.
  destruct names as [|nm ns]; [done|]. set (names := nm :: ns) in *.
  exists (String.concat "/" names). cbn [URL Path Name].
  rewrite fold_Join_names by done. unfold ToSlash.
  rewrite Rel_names by done. split; [done|]. split; [by rewrite Join_names|].
  rewrite (last_nonempty names (Base (MediaDir cfg)) "") by done.
  assert (Hk : String.concat "/" names = render false ([] ++ names)).
  { unfold render. by destruct names. }
  rewrite Hk. destruct names as [|x l _] using rev_ind; [done|].
  apply Forall_app in Hn as [Hl0 Hx]. inversion Hx; subst.
  rewrite last_last, app_assoc. apply Base_render; [|done].
  apply cleanList_app_names; [apply cleanList_nil | done].
Qed.

Lemma inventory_url_leads_to_path_witness :
  exists key,
    "/media/c/clip.mp4" = ("/media/" ++ key)%string /\
    Join "./media" key = "media/c/clip.mp4" /\
    Base key = "clip.mp4".
Proof.
  apply (inventory_url_leads_to_path exConfig (exDisk exTwinEntries)
           ["srv"; "media"] true exTwinEntries
           {| Name := "clip.mp4"; Path := "media/c/clip.mp4";
              URL := "/media/c/clip.mp4" |}); try reflexivity.
  apply list_elem_of_In. vm_compute. auto.
Defined.

(** ** No two entries of the inventory have the same path *)

Lemma elemsOf_fold_Join names root :
  root <> "" -> Forall (fun nm => isName nm = true) names ->
  elemsOf (fold_left Join names root) = elemsOf root ++ names.
Proof.
  intros Hr Hn. destruct names as [|nm ns]; [by rewrite app_nil_r|].
  rewrite fold_Join_names by done. apply elemsOf_render.
  apply cleanList_app_names; [apply elemsOf_clean | done].
Qed.

Lemma visitPath_visitOf path name n : visitPath (visitOf path name n) = path.
Proof. by destruct n. Qed.

Lemma walkVisits_NoDup d root :
  wellNamed (tree d) = true -> NoDup (map visitPath (walkVisits d root)).
Proof.
  intros Hw.
  assert (Hone : forall v : visit, NoDup (map visitPath [v]))
    by (intros v; repeat constructor; by intros H%elem_of_nil).
  destruct (os.resolve d root) as [p|] eqn:Hp;
    [|rewrite walkVisits_missing by (intros; congruence); apply Hone].
  destruct (lookup p (tree d)) as [n|] eqn:Hl;
    [|rewrite walkVisits_missing by (intros; congruence); apply Hone].
  assert (Hdec : n = BadNode \/ n <> BadNode)
    by (destruct n; auto; right; discriminate).
  destruct Hdec as [->|Hn];
    [rewrite walkVisits_missing by (intros; congruence); apply Hone|].
  rewrite (walkVisits_walked d root p n) by done.
  pose proof (wellNamed_lookup _ _ _ Hw Hl) as Hwn.
  pose proof (resolve_nonempty _ _ _ Hp) as Hr.
  rewrite map_map.
  apply (NoDup_fmap_2_strong (fun x => visitPath (visitBelow root (Base root) x))).
  - intros [ns1 n1] [ns2 n2] H1 H2 Heq. unfold visitBelow in Heq.
    rewrite !visitPath_visitOf in Heq. cbn [fst] in Heq.
    destruct (walked_lookup _ _ _ Hwn H1) as [L1 N1].
    destruct (walked_lookup _ _ _ Hwn H2) as [L2 N2].
    apply (f_equal elemsOf) in Heq. rewrite !elemsOf_fold_Join in Heq by done.
    apply app_inv_head in Heq. subst ns2. congruence.
  - apply (NoDup_fmap_1 fst). by apply walked_NoDup.
Qed.

Lemma beforeError_sublist vs : sublist (beforeError vs) vs.
Proof.
  induction vs as [|v vs IH]; simpl; [constructor|].
  destruct (visitErr v); [apply sublist_nil_l | by constructor].
Qed.

Lemma accepted_sublist cfg vs : sublist (map Path (accepted cfg vs)) (map visitPath vs).
Proof.
  induction vs as [|v vs IH]; [constructor|].
  change (accepted cfg (v :: vs))
    with (fst (scanMedia_fn cfg (visitPath v) (visitInfo v) None []) ++ accepted cfg vs).
  unfold scanMedia_fn. cbn [map].
  destruct (visitInfo v) as [info|]; [|by constructor].
  destruct (fs.IsDir info); [by constructor|]. simpl.
  destruct (supportedExts _); simpl; by constructor.
Qed.

Lemma scanned_paths_NoDup cfg d :
  wellNamed (tree d) = true -> NoDup (map Path (scanned cfg d)).
Proof.
  intros Hw.
  rewrite (fmap_Permutation Path _ _ (scanned_Permutation cfg d)).
  eapply sublist_NoDup; [|apply accepted_sublist].
  eapply sublist_NoDup; [|apply (fmap_sublist visitPath), beforeError_sublist].
  by apply walkVisits_NoDup.
Qed.

(** No two entries of a scanned inventory have the same [Path]. *)
Theorem scan_paths_distinct cfg d :
  wellNamed (tree d) = true -> NoDup (map Path (scanned cfg d)).
Proof. apply scanned_paths_NoDup. Qed.

Lemma scan_paths_distinct_witness :
  NoDup (map Path (scanned exConfig (exDisk exTiesEntries))).
Proof. apply (scan_paths_distinct exConfig (exDisk exTiesEntries)). reflexivity. Defined.

(** * What a cycle removes and what it keeps *)

Lemma Index_spec l v :
  match slices.Index l v with
  | Some i => exists l1 l2, l = l1 ++ v :: l2 /\ (v ∉ l1) /\ length l1 = i
  | None => v ∉ l
  end.
Proof.
  induction l as [|x l IH]; simpl; [by intros H%elem_of_nil|].
  destruct (String.eqb_spec v x) as [->|Hne].
  - exists [], l. split; [done|]. split; [by intros H%elem_of_nil|done].
  - destruct (slices.Index l v) as [i|]; simpl.
    + destruct IH as (l1 & l2 & -> & Hn & <-). exists (x :: l1), l2.
      split; [done|]. split; [|done]. by intros [?|?]%elem_of_cons.
    + by intros [?|?]%elem_of_cons.
Qed.

Lemma strike_spec l v :
  (strike l v = l /\ (v ∉ l)) \/
  exists l1 l2, l = l1 ++ v :: l2 /\ (v ∉ l1) /\ strike l v = l1 ++ l2.
Proof.
  unfold strike. pose proof (Index_spec l v) as H.
  destruct (slices.Index l v) as [i|]; [|by left].
  destruct H as (l1 & l2 & -> & Hn & <-). right. exists l1, l2.
  split; [done|]. split; [done|]. unfold slices.Delete.
  rewrite take_app_length. f_equal.
  rewrite drop_app_ge by lia.
  replace (length l1 + 1 - length l1) with 1 by lia. done.
Qed.

Lemma strike_keeps l v x : x ∈ l -> x <> v -> x ∈ strike l v.
Proof.
  intros Hx Hne. destruct (strike_spec l v) as [[-> _]|(l1 & l2 & -> & _ & ->)]; [done|].
  apply elem_of_app in Hx as [?|[?|?]%elem_of_cons]; try done;
    apply elem_of_app; auto.
Qed.

Lemma strike_subseteq l v : strike l v ⊆ l.
Proof.
  destruct (strike_spec l v) as [[-> _]|(l1 & l2 & -> & _ & ->)]; [done|].
  intros x [?|?]%elem_of_app; apply elem_of_app; [by left|right; by right].
Qed.

Lemma strike_NoDup l v : NoDup l -> NoDup (strike l v) /\ v ∉ strike l v.
Proof.
  intros Hnd. destruct (strike_spec l v) as [[-> H]|(l1 & l2 & -> & Hn1 & ->)]; [done|].
  apply NoDup_app in Hnd as (H1 & H12 & H2). inversion H2 as [|? ? Hv H2']; subst.
  split.
  - apply NoDup_app. split; [done|]. split; [|done].
    intros x Hx1 Hx2. apply (H12 x Hx1). by right.
  - intros [?|?]%elem_of_app; [done|]. done.
Qed.

(** One turn of the first loop, for [localFilesToRemove]. *)
Lemma syncObject_list s st obj :
  localFilesToRemove (syncObject s st obj) =
  match s3.Key obj with
  | None => localFilesToRemove st
  | Some k =>
      match os.Stat (disk (world st)) (localPathOf s k) with
      | Ok _ => strike (localFilesToRemove st) (localPathOf s k)
      | Err _ => localFilesToRemove st
      end
  end.
Proof.
  unfold syncObject, strike, localPathOf. destruct (s3.Key obj) as [k|]; [|done].
  destruct (os.Stat _ _); [by destruct (slices.Index _ _)|].
  by destruct (downloadFromS3 _ _ _ _) as [w' [err|]].
Qed.

Lemma syncObject_NoDup s st obj :
  NoDup (localFilesToRemove st) -> NoDup (localFilesToRemove (syncObject s st obj)).
Proof.
  intros H. rewrite syncObject_list. destruct (s3.Key obj); [|done].
  destruct (os.Stat _ _); [by apply strike_NoDup | done].
Qed.

(** A listed key whose file is on the disk: its local path is not in
    [localFilesToRemove] after the first loop. *)
Lemma firstLoop_struck s objs : forall st k q body,
  NoDup (localFilesToRemove st) ->
  Some k ∈ map s3.Key objs ->
  os.resolve (disk (world st)) (localPathOf s k) = Some q ->
  holds (disk (world st)) q body ->
  localPathOf s k ∉ localFilesToRemove (fold_left (syncObject s) objs st).
Proof.
  induction objs as [|obj objs IH]; intros st k q body Hnd Hk Hq Hb;
    [by apply elem_of_nil in Hk|].
  cbn [fold_left].
  destruct (syncObject_spec s st obj) as (e1 & _ & _ & _ & _ & _ & C1 & _ & H1).
  cbn [map] in Hk. apply elem_of_cons in Hk as [Hk|Hk].
  - destruct (syncObjects_spec s objs (syncObject s st obj))
      as (e2 & _ & _ & _ & _ & L2 & _).
    intros Hin. apply L2 in Hin. revert Hin.
    rewrite syncObject_list, <- Hk.
    destruct (Stat_holds _ _ _ _ Hq Hb) as [info ->].
    by apply strike_NoDup.
  - apply (IH _ k q body); auto using syncObject_NoDup.
    by rewrite (resolve_cwd _ (disk (world st))).
Qed.

(** A path no listed key has as its local path stays in
    [localFilesToRemove]. *)
Lemma firstLoop_keeps s objs : forall st p,
  p ∈ localFilesToRemove st ->
  (forall k, Some k ∈ map s3.Key objs -> localPathOf s k <> p) ->
  p ∈ localFilesToRemove (fold_left (syncObject s) objs st).
Proof.
  induction objs as [|obj objs IH]; intros st p Hp Hk; [done|].
  cbn [fold_left]. apply IH.
  - rewrite syncObject_list. destruct (s3.Key obj) as [k|] eqn:E; [|done].
    destruct (os.Stat _ _); [|done]. apply strike_keeps; [done|].
    intros ->. apply (Hk k); [|done]. cbn [map]. rewrite E. by left.
  - intros k Hin. apply Hk. cbn [map]. by right.
Qed.

(** The events and the disk of a cycle that got its listing, told by the
    state after the first loop. *)
Lemma syncFromS3_trace s w client resp :
  s3Client s = Some client ->
  listing s w = Ok resp ->
  let st := firstLoop s w resp in
  let w2 := fold_left removeLocal (localFilesToRemove st) (world st) in
  disk (snd (syncFromS3 s w)) = disk w2 /\
  exists E1 E2 E3,
    cycleEvents s w = ListEv None :: E1 ++ E2 ++ E3 /\
    trace (world st) = trace w ++ ListEv None :: E1 /\
    Forall (fun e => isFirstLoop e = true) E1 /\
    Forall2 (fun e p => exists err, e = RemoveEv p err) E2 (localFilesToRemove st) /\
    Forall (fun e => isScan e = true) E3.
Proof.
  intros Hc Hl. unfold cycleEvents.
  rewrite (syncFromS3_unfold s w client resp Hc Hl). cbv zeta.
  fold (firstLoop s w resp).
  destruct (syncObjects_spec s (s3.Contents resp)
              {| world := emit w (ListEv None);
                 localFilesToRemove := map Path (mediaList s);
                 syncCount := 0 |})
    as (E1 & T1 & F1 & _).
  fold (firstLoop s w resp) in T1. simpl in T1.
  set (st := firstLoop s w resp) in *.
  destruct (removeLocals_spec (localFilesToRemove st) (world st))
    as (E2 & T2 & F2 & _).
  set (w2 := fold_left removeLocal (localFilesToRemove st) (world st)) in *.
  simpl in T2.
  destruct (0 <? syncCount st).
  - split; [done|].
    exists E1, E2, [ScanEv (length (scanned (config s) (disk w2)))].
    split; [|split; [by rewrite T1, <- app_assoc|repeat split; auto]].
    apply drop_old_events. simpl. rewrite T2, T1. by rewrite <- !app_assoc.
  - split; [done|]. exists E1, E2, [].
    split; [|split; [by rewrite T1, <- app_assoc|repeat split; auto]].
    apply drop_old_events. simpl. rewrite T2, T1. by rewrite <- !app_assoc, app_nil_r.
Qed.

Lemma removal_events s w client resp p :
  s3Client s = Some client ->
  listing s w = Ok resp ->
  (exists err, RemoveEv p err ∈ cycleEvents s w) <->
  p ∈ localFilesToRemove (firstLoop s w resp).
Proof.
  intros Hc Hl.
  destruct (syncFromS3_trace s w client resp Hc Hl)
    as (_ & E1 & E2 & E3 & -> & _ & F1 & F2 & F3).
  rewrite Forall_forall in F1, F3.
  assert (H2 : (exists err, RemoveEv p err ∈ E2) <->
               p ∈ localFilesToRemove (firstLoop s w resp)).
  { induction F2 as [|e p' E2 rm [err' ->] _ IH].
    - split; [by intros [? H%elem_of_nil] | by intros H%elem_of_nil].
    - split.
      + intros [err [[= <- _]|H]%elem_of_cons]; [by left|]. right. apply IH. eauto.
      + intros [->|H]%elem_of_cons; [exists err'; by left|].
        apply IH in H as [err H]. exists err. by right. }
  rewrite <- H2. split; intros [err H]; exists err.
  - apply elem_of_cons in H as [H|H]; [done|].
    apply elem_of_app in H as [H|H]; [by apply F1 in H|].
    apply elem_of_app in H as [H|H]; [done|]. by apply F3 in H.
  - right. apply elem_of_app. right. apply elem_of_app. by left.
Qed.

(** ** A removal that returns [nil] *)

Lemma updateAt_unlink_lookup p : forall n n',
  updateAt os.unlink p n = Some n' -> lookup p n' = None.
Proof.
  induction p as [|c p IH]; intros n n' Hup; [done|].
  destruct n as [|r ents|]; try (rewrite updateAt_not_dir in Hup; done).
  destruct p as [|c2 p].
  - rewrite updateAt_last in Hup.
    destruct (os.unlink (getEntry c ents)) as [[x|]|] eqn:Hu; try done.
    { unfold os.unlink in Hu. repeat case_match; simplify_eq. }
    injection Hup as <-. cbn [lookup]. by rewrite getEntry_delEntry_eq.
  - rewrite updateAt_cons in Hup.
    destruct (getEntry c ents) as [child|] eqn:Hg; [|done].
    destruct (updateAt _ (c2 :: p) child) as [child'|] eqn:Hu; [|done].
    injection Hup as <-. cbn [lookup]. rewrite getEntry_putEntry_eq. by eapply IH.
Qed.

Lemma updateAt_unlink_absent p : forall n n' q,
  updateAt os.unlink p n = Some n' -> lookup q n = None -> lookup q n' = None.
Proof.
  induction p as [|c p IH]; intros n n' q Hup Hq; [done|].
  destruct n as [|r ents|]; try (rewrite updateAt_not_dir in Hup; done).
  destruct q as [|c' q]; [done|]. cbn [lookup] in Hq.
  destruct p as [|c2 p].
  - rewrite updateAt_last in Hup.
    destruct (os.unlink (getEntry c ents)) as [[x|]|] eqn:Hu; try done.
    { unfold os.unlink in Hu. repeat case_match; simplify_eq. }
    injection Hup as <-. cbn [lookup].
    destruct (decide (c = c')) as [<-|Hc].
    + by rewrite getEntry_delEntry_eq.
    + by rewrite getEntry_delEntry_ne.
  - rewrite updateAt_cons in Hup.
    destruct (getEntry c ents) as [child|] eqn:Hg; [|done].
    destruct (updateAt _ (c2 :: p) child) as [child'|] eqn:Hu; [|done].
    injection Hup as <-. cbn [lookup].
    destruct (decide (c = c')) as [<-|Hc].
    + rewrite getEntry_putEntry_eq. rewrite Hg in Hq. by eapply IH.
    + by rewrite getEntry_putEntry_ne.
Qed.

(** After an [os.Remove] that returned [nil] nothing is at the place of
    the path. *)
Lemma Remove_ok_absent d name :
  snd (os.Remove d name) = None ->
  exists q, os.resolve d name = Some q /\
            lookup q (tree (fst (os.Remove d name))) = None.
Proof.
  unfold os.Remove. destruct (os.resolve d name) as [q|]; [|done].
  destruct (updateAt os.unlink q (tree d)) as [t|] eqn:Hu; [|done].
  intros _. exists q. split; [done|]. simpl. by eapply updateAt_unlink_lookup.
Qed.

(** [os.Remove] makes nothing. *)
Lemma Remove_absent d name q :
  lookup q (tree d) = None -> lookup q (tree (fst (os.Remove d name))) = None.
Proof.
  unfold os.Remove. destruct (os.resolve d name) as [p|]; [|done].
  destruct (updateAt os.unlink p (tree d)) as [t|] eqn:Hu; [|done].
  simpl. by eapply updateAt_unlink_absent.
Qed.

Lemma removeLocals_absent l : forall w q,
  lookup q (tree (disk w)) = None ->
  lookup q (tree (disk (fold_left removeLocal l w))) = None.
Proof.
  induction l as [|p l IH]; intros w q Hq; [done|].
  cbn [fold_left]. apply IH. unfold removeLocal.
  pose proof (Remove_absent (disk w) p q Hq) as H.
  by destruct (os.Remove (disk w) p) as [d err].
Qed.

Lemma removeLocal_step w p :
  removeLocal w p =
  emit (setDisk w (fst (os.Remove (disk w) p)))
       (RemoveEv p (snd (os.Remove (disk w) p))).
Proof. unfold removeLocal. by destruct (os.Remove (disk w) p). Qed.

Lemma removeLocals_ok_absent l : forall w evs p,
  trace (fold_left removeLocal l w) = trace w ++ evs ->
  RemoveEv p None ∈ evs ->
  exists q, os.resolve (disk w) p = Some q /\
            lookup q (tree (disk (fold_left removeLocal l w))) = None.
Proof.
  induction l as [|p1 l IH]; intros w evs p Ht Hin; cbn [fold_left] in *.
  { rewrite <- (app_nil_r (trace w)) in Ht at 1. apply app_inv_head in Ht as <-.
    by apply elem_of_nil in Hin. }
  destruct (removeLocals_spec l (removeLocal w p1)) as (evs' & T & _).
  cbv zeta in T. specialize (IH (removeLocal w p1) evs' p T).
  pose proof (Remove_spec (disk w) p1) as [Hc _].
  pose proof (Remove_ok_absent (disk w) p1) as Hok.
  rewrite T in Ht. rewrite removeLocal_step in Ht, IH |- *.
  cbn [emit trace setDisk disk] in Ht, IH |- *.
  rewrite <- app_assoc in Ht. apply app_inv_head in Ht as <-.
  cbn [app] in Hin. apply elem_of_cons in Hin as [Heq|Hin].
  - injection Heq as <- Herr. destruct (Hok (eq_sym Herr)) as (q & Hq & Hgone).
    exists q. split; [done|]. apply removeLocals_absent. exact Hgone.
  - destruct (IH Hin) as (q & Hq & Hgone). exists q. split; [|done].
    by rewrite <- (resolve_cwd (fst (os.Remove (disk w) p1)) (disk w)).
Qed.

(** A path for which [os.Remove] returned [nil] in a cycle names
    nothing after the cycle: [os.Stat] fails for it. *)
Lemma cycle_removed_is_gone s w p :
  RemoveEv p None ∈ cycleEvents s w ->
  exists e, os.Stat (disk (snd (syncFromS3 s w))) p = Err e.
Proof.
  intros Hin.
  destruct (s3Client s) as [client|] eqn:Hc; cycle 1.
  { destruct (syncFromS3_idle s w) as (_ & _ & Hev); [by left|].
    rewrite Forall_forall in Hev. by apply Hev in Hin as [err ?]. }
  destruct (listing s w) as [resp|e] eqn:Hl; cycle 1.
  { destruct (syncFromS3_idle s w) as (_ & _ & Hev); [right; eauto|].
    rewrite Forall_forall in Hev. by apply Hev in Hin as [err ?]. }
  revert Hin. unfold cycleEvents.
  rewrite (syncFromS3_unfold s w client resp Hc Hl). cbv zeta.
  set (st0 := {| world := emit w (ListEv None) |}).
  destruct (syncObjects_spec s (s3.Contents resp) st0)
    as (E1 & T1 & F1 & _ & _ & _ & C1 & _).
  set (st := fold_left (syncObject s) (s3.Contents resp) st0) in *.
  destruct (removeLocals_spec (localFilesToRemove st) (world st))
    as (E2 & T2 & _ & C2 & _).
  pose proof (removeLocals_ok_absent (localFilesToRemove st) (world st) E2 p T2)
    as Hgone.
  cbv zeta in T2, C2.
  set (w2 := fold_left removeLocal (localFilesToRemove st) (world st)) in *.
  simpl in T1, C1. rewrite Forall_forall in F1.
  assert (Hstat : RemoveEv p None ∈ E2 -> exists e, os.Stat (disk w2) p = Err e).
  { intros Hin. destruct (Hgone Hin) as (q & Hq & Hq').
    unfold os.Stat. rewrite (resolve_cwd _ (disk (world st))) by done.
    rewrite Hq, Hq'. eauto. }
  destruct (0 <? syncCount st); cbn [snd scanMedia emit disk trace];
    rewrite T2, T1, <- !app_assoc, drop_app_length; cbn [app];
    intros [?|Hin]%elem_of_cons; try done;
    apply elem_of_app in Hin as [Hin|Hin]; try (by apply F1 in Hin);
    apply Hstat.
  - apply elem_of_app in Hin as [Hin|Hin]; [done|].
    by apply list_elem_of_singleton in Hin.
  - done.
Qed.

(** ** Listed files stay, unlisted files go *)

Lemma keysIn_elem resp k : k ∈ keysIn resp <-> Some k ∈ map s3.Key (s3.Contents resp).
Proof.
  unfold keysIn. rewrite list_elem_of_omap, list_elem_of_fmap. split.
  - intros (obj & Ho & Hk). by exists obj.
  - intros (obj & Hk & Ho). by exists obj.
Qed.

Lemma cycle_keeps_listed s w client resp k q body :
  s3Client s = Some client ->
  listing s w = Ok resp ->
  k ∈ keysIn resp ->
  NoDup (map Path (mediaList s)) ->
  os.resolve (disk w) (localPathOf s k) = Some q ->
  holds (disk w) q body ->
  (forall m, m ∈ mediaList s ->
             os.resolve (disk w) (Path m) = Some q -> Path m = localPathOf s k) ->
  (forall err, RemoveEv (localPathOf s k) err ∉ cycleEvents s w) /\
  holds (disk (snd (syncFromS3 s w))) q body.
Proof.
  intros Hc Hl Hk Hnd Hq Hb Honly. apply keysIn_elem in Hk.
  set (st0 := {| world := emit w (ListEv None);
                 localFilesToRemove := map Path (mediaList s);
                 syncCount := 0 |}).
  assert (Hstruck : localPathOf s k ∉ localFilesToRemove (firstLoop s w resp))
    by (by apply (firstLoop_struck s _ st0 k q body)).
  split.
  - intros err Hin. apply Hstruck.
    apply (removal_events s w client resp _ Hc Hl). eauto.
  - destruct (syncFromS3_trace s w client resp Hc Hl) as [-> _].
    destruct (syncObjects_spec s (s3.Contents resp) st0)
      as (E1 & _ & _ & _ & _ & L1 & C1 & _ & H1).
    fold (firstLoop s w resp) in L1, C1, H1. simpl in L1, C1, H1.
    destruct (removeLocals_spec (localFilesToRemove (firstLoop s w resp))
                (world (firstLoop s w resp))) as (E2 & _ & _ & _ & _ & H2).
    apply H2; [|by apply H1].
    intros p Hp Hres. rewrite (resolve_cwd _ (disk w)) in Hres by done.
    pose proof Hp as Hp'. apply L1, list_elem_of_fmap in Hp' as (m & -> & Hm).
    rewrite (Honly m Hm Hres) in Hp. done.
Qed.

(** A file of the disk that the listing has a key for is not removed:
    no [os.Remove] is called for its local path and, when no other path
    of the inventory names its place, the file is there after the
    cycle. *)
Theorem listed_file_is_kept s w client resp k q body :
  s3Client s = Some client ->
  listing s w = Ok resp ->
  k ∈ keysIn resp ->
  NoDup (map Path (mediaList s)) ->
  os.resolve (disk w) (localPathOf s k) = Some q ->
  holds (disk w) q body ->
  (forall m, m ∈ mediaList s ->
             os.resolve (disk w) (Path m) = Some q -> Path m = localPathOf s k) ->
  (forall err, RemoveEv (localPathOf s k) err ∉ cycleEvents s w) /\
  holds (disk (snd (syncFromS3 s w))) q body.
Proof. apply cycle_keeps_listed. Qed.

Lemma listed_file_is_kept_witness :
  let s := exOldServer in
  let w := exWorld exOldEntries exOldStore in
  (forall err, RemoveEv "media/old.mp4" err ∉ cycleEvents s w) /\
  holds (disk (snd (syncFromS3 s w))) ["srv"; "media"; "old.mp4"]
        (list_byte_of_string "O").
Proof.
  apply (listed_file_is_kept exOldServer (exWorld exOldEntries exOldStore)
           {| s3.Region := "sa-east-1" |}
           {| s3.Contents := [{| s3.Key := Some "old.mp4" |}];
              s3.IsTruncated := false;
              s3.NextContinuationToken := None |}
           "old.mp4" ["srv"; "media"; "old.mp4"] (list_byte_of_string "O"));
    try reflexivity.
  - apply list_elem_of_In. simpl. auto.
  - repeat constructor. by intros H%elem_of_nil.
  - intros m Hm _. apply list_elem_of_In in Hm. simpl in Hm.
    destruct Hm as [<-|[]]. reflexivity.
Defined.

Lemma cycle_removes_unlisted s w client resp p :
  s3Client s = Some client ->
  listing s w = Ok resp ->
  p ∈ map Path (mediaList s) ->
  (forall k, k ∈ keysIn resp -> localPathOf s k <> p) ->
  exists err, RemoveEv p err ∈ cycleEvents s w.
Proof.
  intros Hc Hl Hp Hk.
  set (st0 := {| world := emit w (ListEv None);
                 localFilesToRemove := map Path (mediaList s);
                 syncCount := 0 |}).
  apply (removal_events s w client resp _ Hc Hl).
  apply (firstLoop_keeps s _ st0); [done|].
  intros k Hin. apply Hk. by apply keysIn_elem.
Qed.

(** A path of the inventory that no listed key has as its local path
    is handed to [os.Remove].  The error of the call is dropped; when
    the call returned [nil], nothing is at the path after the cycle. *)
Theorem unlisted_file_is_removed s w client resp p :
  s3Client s = Some client ->
  listing s w = Ok resp ->
  p ∈ map Path (mediaList s) ->
  (forall k, k ∈ keysIn resp -> localPathOf s k <> p) ->
  (exists err, RemoveEv p err ∈ cycleEvents s w) /\
  (RemoveEv p None ∈ cycleEvents s w ->
   exists e, os.Stat (disk (snd (syncFromS3 s w))) p = Err e).
Proof.
  intros Hc Hl Hp Hk. split.
  - by apply (cycle_removes_unlisted s w client resp).
  - apply cycle_removed_is_gone.
Qed.

Lemma unlisted_file_is_removed_witness :
  let s := exOldServer in
  let w := exWorld exOldEntries exStore in
  (exists err, RemoveEv "media/old.mp4" err ∈ cycleEvents s w) /\
  (RemoveEv "media/old.mp4" None ∈ cycleEvents s w ->
   exists e, os.Stat (disk (snd (syncFromS3 s w))) "media/old.mp4" = Err e).
Proof.
  apply (unlisted_file_is_removed exOldServer (exWorld exOldEntries exStore)
           {| s3.Region := "sa-east-1" |}
           {| s3.Contents := [{| s3.Key := Some "new.mp4" |}];
              s3.IsTruncated := false;
              s3.NextContinuationToken := None |}
           "media/old.mp4"); try reflexivity.
  - apply list_elem_of_In. simpl. auto.
  - intros k Hk. apply list_elem_of_In in Hk. simpl in Hk.
    destruct Hk as [<-|[]]. vm_compute. discriminate.
Defined.

(** ** A cycle with nothing to do *)

Lemma fold_strike_elem vs : forall l x,
  NoDup l -> x ∈ fold_left strike vs l -> x ∈ l /\ (x ∉ vs).
Proof.
  induction vs as [|v vs IH]; intros l x Hnd Hx; simpl in Hx.
  - split; [done|]. by intros H%elem_of_nil.
  - destruct (strike_NoDup l v Hnd) as [Hnd' Hv].
    destruct (IH _ _ Hnd' Hx) as [Hin Hnin]. split; [by apply strike_subseteq in Hin|].
    intros [->|H]%elem_of_cons; done.
Qed.

(** The first loop when every listed key is on the disk: nothing is
    downloaded and the disk stays as it is. *)
Lemma firstLoop_quiet s objs : forall st,
  (forall k, Some k ∈ map s3.Key objs ->
             exists info, os.Stat (disk (world st)) (localPathOf s k) = Ok info) ->
  let st' := fold_left (syncObject s) objs st in
  disk (world st') = disk (world st) /\
  trace (world st') =
    trace (world st) ++ map (fun k => StatEv k (localPathOf s k) true) (omap s3.Key objs) /\
  syncCount st' = syncCount st /\
  localFilesToRemove st' =
    fold_left strike (map (localPathOf s) (omap s3.Key objs)) (localFilesToRemove st).
Proof.
  induction objs as [|obj objs IH]; intros st Hk; cbn [fold_left].
  - simpl. by rewrite app_nil_r.
  - assert (Hstep :
      disk (world (syncObject s st obj)) = disk (world st) /\
      trace (world (syncObject s st obj)) =
        trace (world st) ++
        match s3.Key obj with
        | Some k => [StatEv k (localPathOf s k) true]
        | None => []
        end /\
      syncCount (syncObject s st obj) = syncCount st /\
      localFilesToRemove (syncObject s st obj) =
        match s3.Key obj with
        | Some k => strike (localFilesToRemove st) (localPathOf s k)
        | None => localFilesToRemove st
        end).
    { pose proof (syncObject_list s st obj) as Hlist.
      unfold syncObject in *. fold (localPathOf s) in *.
      destruct (s3.Key obj) as [k|] eqn:E; [|by rewrite app_nil_r].
      destruct (Hk k) as [info Hi]; [cbn [map]; rewrite E; by left|].
      unfold localPathOf in *. rewrite Hi in *.
      by destruct (slices.Index _ _). }
    destruct Hstep as (Hd & Ht & Hn & Hl).
    destruct (IH (syncObject s st obj)) as (Hd' & Ht' & Hn' & Hl').
    { intros k Hin. rewrite Hd. apply Hk. cbn [map]. by right. }
    cbv zeta in *. rewrite Hd', Ht', Hn', Hl', Hd, Ht, Hn, Hl.
    change (omap s3.Key (obj :: objs))
      with (match s3.Key obj with
            | Some k => k :: omap s3.Key objs
            | None => omap s3.Key objs
            end).
    destruct (s3.Key obj) as [k|]; cbn [map fold_left];
      rewrite <- ?app_assoc, ?app_nil_r; done.
Qed.

(** The cycle of an installation in sync: the server stays as it is, and
    the world gets the events of the looks at the keys. *)
Lemma cycle_in_sync s w client resp :
  s3Client s = Some client ->
  listing s w = Ok resp ->
  NoDup (map Path (mediaList s)) ->
  (forall k, k ∈ keysIn resp ->
             exists info, os.Stat (disk w) (localPathOf s k) = Ok info) ->
  (forall m, m ∈ mediaList s ->
             exists k, k ∈ keysIn resp /\ localPathOf s k = Path m) ->
  syncFromS3 s w =
    (s, {| disk := disk w;
           remote := remote w;
           trace := trace w ++
                    ListEv None ::
                      map (fun k => StatEv k (localPathOf s k) true) (keysIn resp) |}).
Proof.
  intros Hc Hl Hnd Hdisk Hinv.
  rewrite (syncFromS3_unfold s w client resp Hc Hl). cbv zeta.
  set (st0 := {| world := emit w (ListEv None);
                 localFilesToRemove := map Path (mediaList s);
                 syncCount := 0 |}).
  destruct (firstLoop_quiet s (s3.Contents resp) st0) as (Hd & Ht & Hn & Hlist).
  { intros k Hk. apply Hdisk. by apply keysIn_elem. }
  destruct (syncObjects_spec s (s3.Contents resp) st0)
    as (e1 & _ & _ & _ & _ & _ & _ & Hr & _).
  cbv zeta in *. set (st := fold_left (syncObject s) (s3.Contents resp) st0) in *.
  assert (Hempty : localFilesToRemove st = []).
  { assert (Hnone : forall x, x ∉ localFilesToRemove st).
    { intros x Hx. rewrite Hlist in Hx.
      apply fold_strike_elem in Hx as [Hx Hnin]; [|done].
      apply list_elem_of_fmap in Hx as (m & -> & Hm).
      destruct (Hinv m Hm) as (k & Hk & Heq). apply Hnin.
      apply list_elem_of_fmap. exists k. split; [done|]. exact Hk. }
    destruct (localFilesToRemove st) as [|x l]; [done|].
    exfalso. apply (Hnone x). by left. }
  rewrite Hempty, Hn. cbn [fold_left syncCount st0].
  change (0 <? 0) with false. cbv iota.
  cbn [world st0 emit trace disk remote] in Hd, Ht, Hr.
  rewrite <- app_assoc in Ht. fold (keysIn resp) in Ht.
  destruct (world st) as [d r t]. simpl in Hd, Ht, Hr. by subst.
Qed.

(** When every listed key is on the disk and every path of the
    inventory is the local path of a listed key, the cycle looks at each
    key and changes nothing: no download, no removal, no scan, the same
    inventory and the same disk. *)
Theorem cycle_in_sync_changes_nothing s w client resp :
  s3Client s = Some client ->
  listing s w = Ok resp ->
  NoDup (map Path (mediaList s)) ->
  (forall k, k ∈ keysIn resp ->
             exists info, os.Stat (disk w) (localPathOf s k) = Ok info) ->
  (forall m, m ∈ mediaList s ->
             exists k, k ∈ keysIn resp /\ localPathOf s k = Path m) ->
  fst (syncFromS3 s w) = s /\
  disk (snd (syncFromS3 s w)) = disk w /\
  cycleEvents s w =
    ListEv None :: map (fun k => StatEv k (localPathOf s k) true) (keysIn resp).
Proof.
  intros Hc Hl Hnd Hdisk Hinv. unfold cycleEvents.
  rewrite (cycle_in_sync s w client resp) by done. cbn [fst snd disk trace].
  by rewrite drop_app_length.
Qed.

Lemma cycle_in_sync_changes_nothing_witness :
  let s := exOldServer in
  let w := exWorld exOldEntries exOldStore in
  fst (syncFromS3 s w) = s /\
  disk (snd (syncFromS3 s w)) = disk w /\
  cycleEvents s w = [ListEv None; StatEv "old.mp4" "media/old.mp4" true].
Proof.
  apply (cycle_in_sync_changes_nothing exOldServer (exWorld exOldEntries exOldStore)
           {| s3.Region := "sa-east-1" |}
           {| s3.Contents := [{| s3.Key := Some "old.mp4" |}];
              s3.IsTruncated := false;
              s3.NextContinuationToken := None |}); try reflexivity.
  - repeat constructor. by intros H%elem_of_nil.
  - intros k Hk. apply list_elem_of_In in Hk. simpl in Hk.
    destruct Hk as [<-|[]]. eexists. vm_compute. reflexivity.
  - intros m Hm. apply list_elem_of_In in Hm. simpl in Hm.
    destruct Hm as [<-|[]]. exists "old.mp4". split; [|reflexivity].
    apply list_elem_of_In. simpl. auto.
Defined.

(** ** A fresh inventory *)

(** When the inventory is the scan of the disk, a file below the media
    directory that the listing has under the key made of its names is
    kept by the cycle: no [os.Remove] is called for it and it is there
    afterwards. *)
Theorem fresh_inventory_keeps_listed_file s w client resp p names body :
  s3Client s = Some client ->
  listing s w = Ok resp ->
  wellNamed (tree (disk w)) = true ->
  mediaList s = scanned (config s) (disk w) ->
  os.resolve (disk w) (MediaDir (config s)) = Some p ->
  names <> [] ->
  Forall (fun nm => isName nm = true) names ->
  holds (disk w) (p ++ names) body ->
  String.concat "/" names ∈ keysIn resp ->
  (forall err,
      RemoveEv (localPathOf s (String.concat "/" names)) err ∉ cycleEvents s w) /\
  holds (disk (snd (syncFromS3 s w))) (p ++ names) body.
Proof.
  intros Hc Hl Hw Hfresh Hp Hne Hn Hb Hk.
  pose proof (resolve_nonempty _ _ _ Hp) as Hr.
  apply (cycle_keeps_listed s w client resp); try done.
  - rewrite Hfresh. by apply scanned_paths_NoDup.
  - by apply resolve_Join_names.
  - intros m Hm Hres. rewrite Hfresh in Hm.
    apply scanned_inv in Hm as (p' & n & names' & b' & Hp' & _ & Hn' & _ & ->); [|done].
    assert (p' = p) as -> by congruence. cbn [Path] in *.
    rewrite (resolve_fold_Join _ _ _ p) in Hres by done.
    injection Hres as Hres. apply app_inv_head in Hres as ->.
    unfold localPathOf. by apply fold_Join_Join.
Qed.

Lemma fresh_inventory_keeps_listed_file_witness :
  let s := exServer (scanned exConfig (exDisk exOldEntries)) in
  let w := exWorld exOldEntries exOldStore in
  (forall err, RemoveEv "media/old.mp4" err ∉ cycleEvents s w) /\
  holds (disk (snd (syncFromS3 s w))) ["srv"; "media"; "old.mp4"]
        (list_byte_of_string "O").
Proof.
  apply (fresh_inventory_keeps_listed_file
           (exServer (scanned exConfig (exDisk exOldEntries)))
           (exWorld exOldEntries exOldStore)
           {| s3.Region := "sa-east-1" |}
           {| s3.Contents := [{| s3.Key := Some "old.mp4" |}];
              s3.IsTruncated := false;
              s3.NextContinuationToken := None |}
           ["srv"; "media"] ["old.mp4"] (list_byte_of_string "O"));
    try reflexivity.
  - discriminate.
  - by repeat constructor.
  - apply list_elem_of_In. simpl. auto.
Defined.

(** * Where a download writes *)

(** The place of a joined path, for any element: the elements of
    [elem] are gone through from the place of [dir]. *)
Lemma resolve_Join d dir elem q :
  dir <> "" -> os.resolve d dir = Some q ->
  os.resolve d (Join dir elem) = Some (rev (cleanElems true (rev q) (splitSlash elem))).
Proof.
  intros Hd Hq. unfold Join. apply String.eqb_neq in Hd. rewrite Hd.
  apply String.eqb_neq in Hd.
  assert (Hne : (dir ++ "/" ++ elem)%string <> "") by (by destruct dir).
  rewrite resolve_Clean by done.
  unfold os.resolve in *. apply String.eqb_neq in Hne. rewrite Hne.
  apply String.eqb_neq in Hd. rewrite Hd in Hq. apply String.eqb_neq in Hd.
  injection Hq as <-. rewrite rooted_app by done.
  by rewrite splitSlash_app, cleanElems_app, rev_involutive.
Qed.

(** A download that returns [nil] leaves the delivered bytes in the file
    at the place of the local path. *)
Lemma download_holds s w key localPath q resp :
  os.resolve (disk w) localPath = Some q ->
  s3.GetObject (remote w)
    {| s3.GetBucket := S3Bucket (config s); s3.GetKey := key |} = Ok resp ->
  snd (downloadFromS3 s w key localPath) = None ->
  holds (disk (fst (downloadFromS3 s w key localPath))) q (s3.delivered resp).
Proof.
  intros Hq Hget. unfold downloadFromS3.
  pose proof (MkdirAll_spec (disk w) (Dir localPath)) as [Hc1 _].
  destruct (os.MkdirAll (disk w) (Dir localPath)) as [d1 [err|]]; [done|].
  simpl in Hc1. simpl. rewrite Hget.
  rewrite <- (resolve_cwd d1 (disk w)) in Hq by done.
  unfold os.Create, os.write, holds. rewrite Hq.
  destruct (updateAt (os.writeFile []) q (tree d1)) as [t2|] eqn:Hu2; [|done].
  simpl. intros _. unfold os.resolve in *. simpl. rewrite Hq.
  destruct (updateAt_writeFile_again [] (s3.delivered resp) q _ _ Hu2) as [t3 Hu3].
  rewrite Hu3. simpl. by eapply updateAt_writeFile_lookup.
Qed.

(** The object of a key whose elements are names is written below the
    media directory, at the place the elements lead to from there. *)
Theorem download_lands_below_media_dir s w p names resp :
  os.resolve (disk w) (MediaDir (config s)) = Some p ->
  Forall (fun nm => isName nm = true) names ->
  s3.GetObject (remote w)
    {| s3.GetBucket := S3Bucket (config s);
       s3.GetKey := String.concat "/" names |} = Ok resp ->
  let key := String.concat "/" names in
  snd (downloadFromS3 s w key (localPathOf s key)) = None ->
  holds (disk (fst (downloadFromS3 s w key (localPathOf s key))))
        (p ++ names) (s3.delivered resp).
Proof.
  intros Hp Hn Hget key Hok. apply download_holds; try done.
  apply resolve_Join_names; try done. by eapply resolve_nonempty.
Qed.

Lemma download_lands_below_media_dir_witness :
  let s := exServer [] in
  let w := exWorld [] (s3.bucket "signage" [("a/b/c.mp4", list_byte_of_string "C")]) in
  holds (disk (fst (downloadFromS3 s w "a/b/c.mp4" (localPathOf s "a/b/c.mp4"))))
        ["srv"; "media"; "a"; "b"; "c.mp4"] (list_byte_of_string "C").
Proof.
  apply (download_lands_below_media_dir (exServer [])
           (exWorld [] (s3.bucket "signage" [("a/b/c.mp4", list_byte_of_string "C")]))
           ["srv"; "media"] ["a"; "b"; "c.mp4"]
           {| s3.delivered := list_byte_of_string "C"; s3.readError := None |});
    try reflexivity.
  by repeat constructor.
Defined.

(** A key is not confined to the media directory: the object of the key
    [../nm] is written beside the media directory, in the directory
    above it. *)
Theorem dotdot_key_leaves_media_dir s w p l nm resp :
  os.resolve (disk w) (MediaDir (config s)) = Some (p ++ [l]) ->
  l <> ".." ->
  isName nm = true ->
  s3.GetObject (remote w)
    {| s3.GetBucket := S3Bucket (config s);
       s3.GetKey := ("../" ++ nm)%string |} = Ok resp ->
  let key := ("../" ++ nm)%string in
  snd (downloadFromS3 s w key (localPathOf s key)) = None ->
  holds (disk (fst (downloadFromS3 s w key (localPathOf s key))))
        (p ++ [nm]) (s3.delivered resp).
Proof.
  intros Hp Hl Hnm Hget key Hok. apply download_holds; try done.
  unfold localPathOf. rewrite (resolve_Join _ _ _ _ (resolve_nonempty _ _ _ Hp) Hp).
  f_equal. subst key.
  change ("../" ++ nm)%string with (".." ++ "/" ++ nm)%string.
  rewrite splitSlash_app. apply isName_spec in Hnm as Hnm'.
  rewrite (splitSlash_noslash nm) by tauto.
  change (splitSlash "..") with [".."]. rewrite rev_app_distr.
  cbn [app rev]. rewrite cleanElems_cons.
  assert (Hup : cleanElems true (l :: List.rev p) [".."] = List.rev p).
  { apply String.eqb_neq in Hl. cbn. by rewrite Hl. }
  rewrite Hup, (cleanElems_name true _ nm Hnm). simpl. by rewrite rev_involutive.
Qed.

Lemma dotdot_key_leaves_media_dir_witness :
  let s := exServer [] in
  let w := exWorld [] (s3.bucket "signage" [("../x.mp4", list_byte_of_string "X")]) in
  holds (disk (fst (downloadFromS3 s w "../x.mp4" (localPathOf s "../x.mp4"))))
        ["srv"; "x.mp4"] (list_byte_of_string "X").
Proof.
  apply (dotdot_key_leaves_media_dir (exServer [])
           (exWorld [] (s3.bucket "signage" [("../x.mp4", list_byte_of_string "X")]))
           ["srv"] "media" "x.mp4"
           {| s3.delivered := list_byte_of_string "X"; s3.readError := None |});
    try reflexivity.
  discriminate.
Defined.

(** * Reading the configuration *)

Lemma digitsValue_lower s : forall acc v,
  (0 <= acc)%Z -> digitsValue s acc = Some v ->
  (acc * 10 ^ Z.of_nat (String.length s) <= v)%Z.
Proof.
  induction s as [|c r IH]; intros acc v Hacc; simpl String.length.
  - intros [= <-]. simpl. lia.
  - cbn [digitsValue]. destruct (_ && _)%Z eqn:Hd; [|done].
    apply andb_true_iff in Hd as [H1%Z.leb_le H2%Z.leb_le].
    intros Hv. apply IH in Hv; [|lia].
    rewrite Nat2Z.inj_succ, Z.pow_succ_r by lia.
    assert (0 <= 10 ^ Z.of_nat (String.length r))%Z by (apply Z.pow_nonneg; lia).
    nia.
Qed.

Lemma digitsValue_upper s : forall acc v,
  (0 <= acc)%Z -> digitsValue s acc = Some v ->
  (v < (acc + 1) * 10 ^ Z.of_nat (String.length s))%Z.
Proof.
  induction s as [|c r IH]; intros acc v Hacc; simpl String.length.
  - intros [= <-]. simpl. lia.
  - cbn [digitsValue]. destruct (_ && _)%Z eqn:Hd; [|done].
    apply andb_true_iff in Hd as [H1%Z.leb_le H2%Z.leb_le].
    intros Hv. apply IH in Hv; [|lia].
    rewrite Nat2Z.inj_succ, Z.pow_succ_r by lia.
    assert (0 < 10 ^ Z.of_nat (String.length r))%Z by (apply Z.pow_pos_nonneg; lia).
    nia.
Qed.

(** The fast path reads the digits. *)
Lemma Atoi_loop_digits s : forall n, strconv.Atoi_loop s n = digitsValue s n.
Proof.
  induction s as [|c r IH]; intros n; [done|].
  cbn [strconv.Atoi_loop digitsValue].
  pose proof (nat_ascii_bounded c) as Hb.
  set (ch := Z.of_nat (nat_of_ascii c)) in *.
  assert (0 <= ch < 256)%Z by lia.
  destruct (Z.leb_spec 48 ch) as [H48|H48].
  - rewrite (Z.mod_small (ch - 48) 256) by lia.
    destruct (Z.leb_spec ch 57); destruct (Z.ltb_spec 9 (ch - 48)); try lia; simpl; auto.
  - replace ((ch - 48) mod 256)%Z with (ch + 208)%Z.
    + destruct (Z.ltb_spec 9 (ch + 208)); [done | lia].
    + symmetry. rewrite <- (Z.mod_add _ 1 256) by lia.
      rewrite Z.mod_small; lia.
Qed.

Lemma pow_2_64 : (2 ^ 64 = 18446744073709551616)%Z.
Proof. reflexivity. Qed.

Lemma pow_2_63 : (2 ^ 63 = 9223372036854775808)%Z.
Proof. reflexivity. Qed.

Lemma pow_2_32 : (2 ^ 32 = 4294967296)%Z.
Proof. reflexivity. Qed.

Lemma pow_2_31 : (2 ^ 31 = 2147483648)%Z.
Proof. reflexivity. Qed.

Lemma cutoff_value : (strconv.maxUint64 / 10 + 1 = 1844674407370955162)%Z.
Proof. reflexivity. Qed.

(** The loop of [ParseUint]: the number the digits write when it fits,
    a range error when it does not, an error of some kind when a byte is
    not a digit. *)
Lemma ParseUint_loop_spec intSize s : forall n,
  intSize = 32 \/ intSize = 64 ->
  (0 <= n <= 2 ^ Z.of_nat intSize - 1)%Z ->
  match digitsValue s n with
  | Some v =>
      if (v <=? 2 ^ Z.of_nat intSize - 1)%Z
      then strconv.ParseUint_loop intSize s n = (v, None)
      else strconv.ParseUint_loop intSize s n =
           ((2 ^ Z.of_nat intSize - 1)%Z, Some strconv.ErrRange)
  | None =>
      strconv.ParseUint_loop intSize s n = (0%Z, Some strconv.ErrSyntax) \/
      strconv.ParseUint_loop intSize s n =
      ((2 ^ Z.of_nat intSize - 1)%Z, Some strconv.ErrRange)
  end.
Proof.
  intros n Hsz. revert n.
  assert (Hmax : (4294967295 <= 2 ^ Z.of_nat intSize - 1 <= 18446744073709551615)%Z).
  { destruct Hsz as [->| ->]; simpl Z.of_nat; rewrite ?pow_2_32, ?pow_2_64; lia. }
  set (maxVal := (2 ^ Z.of_nat intSize - 1)%Z) in *.
  induction s as [|c r IH]; intros n Hn.
  - cbn [digitsValue strconv.ParseUint_loop].
    destruct (Z.leb_spec n maxVal); [done | lia].
  - cbn [digitsValue strconv.ParseUint_loop]. fold maxVal.
    set (ch := Z.of_nat (nat_of_ascii c)).
    destruct ((48 <=? ch) && (ch <=? 57))%Z eqn:Hd; [|by left].
    apply andb_true_iff in Hd as [H1%Z.leb_le H2%Z.leb_le].
    rewrite cutoff_value, pow_2_64.
    assert (Hlen : (0 < 10 ^ Z.of_nat (String.length r))%Z)
      by (apply Z.pow_pos_nonneg; lia).
    destruct (Z.leb_spec 1844674407370955162 n) as [Hcut|Hcut].
    { (* n * 10 overflows *)
      destruct (digitsValue r (n * 10 + (ch - 48))) as [v|] eqn:Hv; [|by right].
      apply digitsValue_lower in Hv; [|lia].
      destruct (Z.leb_spec v maxVal); [nia | done]. }
    destruct (Z.ltb_spec ((n * 10 + (ch - 48)) mod 18446744073709551616) (n * 10))
      as [Hwrap|Hwrap].
    { (* n * 10 + d overflows *)
      cbn [orb].
      assert (18446744073709551616 <= n * 10 + (ch - 48))%Z.
      { destruct (Z.lt_ge_cases (n * 10 + (ch - 48)) 18446744073709551616); [|done].
        rewrite Z.mod_small in Hwrap by lia. lia. }
      destruct (digitsValue r (n * 10 + (ch - 48))) as [v|] eqn:Hv; [|by right].
      apply digitsValue_lower in Hv; [|lia].
      destruct (Z.leb_spec v maxVal); [nia | done]. }
    assert (Hsmall : (n * 10 + (ch - 48) < 18446744073709551616)%Z).
    { destruct (Z.lt_ge_cases (n * 10 + (ch - 48)) 18446744073709551616); [done|].
      assert ((n * 10 + (ch - 48)) mod 18446744073709551616 =
              n * 10 + (ch - 48) - 18446744073709551616)%Z.
      { rewrite <- (Z.mod_add _ (-1) 18446744073709551616) by lia.
        rewrite Z.mod_small; lia. }
      lia. }
    rewrite Z.mod_small in * by lia. cbn [orb].
    destruct (Z.ltb_spec maxVal (n * 10 + (ch - 48))) as [Hbig|Hok].
    { destruct (digitsValue r (n * 10 + (ch - 48))) as [v|] eqn:Hv; [|by right].
      apply digitsValue_lower in Hv; [|lia].
      destruct (Z.leb_spec v maxVal); [nia | done]. }
    apply IH. lia.
Qed.

Lemma wrap_small w z :
  (- 2 ^ (Z.of_nat w - 1) <= z < 2 ^ (Z.of_nat w - 1))%Z -> (0 < w) ->
  strconv.wrap w z = z.
Proof.
  intros Hz Hw. unfold strconv.wrap.
  assert (2 ^ Z.of_nat w = 2 * 2 ^ (Z.of_nat w - 1))%Z as ->.
  { rewrite <- Z.pow_succ_r by lia. f_equal. lia. }
  rewrite Z.mod_small; lia.
Qed.

Lemma digitsValue_nonneg s acc v : (0 <= acc)%Z -> digitsValue s acc = Some v -> (0 <= v)%Z.
Proof.
  intros Hacc Hv. apply digitsValue_lower in Hv; [|done].
  assert (0 <= 10 ^ Z.of_nat (String.length s))%Z by (apply Z.pow_nonneg; lia).
  nia.
Qed.

(** [ParseInt]: the integer the numeral writes when it fits an [int],
    an error in every other case. *)
Lemma ParseInt_spec intSize s :
  intSize = 32 \/ intSize = 64 ->
  match decimal s with
  | Some n =>
      if fitsInt intSize n
      then strconv.ParseInt intSize s = (n, None)
      else snd (strconv.ParseInt intSize s) <> None
  | None => snd (strconv.ParseInt intSize s) <> None
  end.
Proof.
  intros Hsz. destruct s as [|c r]; [done|].
  assert (H63 : (2147483648 <= 2 ^ (Z.of_nat intSize - 1) <= 9223372036854775808)%Z /\
                (2 ^ Z.of_nat intSize - 1 = 2 * 2 ^ (Z.of_nat intSize - 1) - 1)%Z).
  { destruct Hsz as [->| ->]; simpl Z.of_nat; simpl (_ - 1)%Z;
      rewrite ?pow_2_32, ?pow_2_64, ?pow_2_31, ?pow_2_63; lia. }
  destruct H63 as (H63 & Hdouble).
  assert (Hw64 : forall z, (- 9223372036854775808 <= z < 9223372036854775808)%Z ->
                           strconv.wrap 64 z = z).
  { intros z Hz. apply wrap_small; [|lia].
    change (2 ^ (Z.of_nat 64 - 1))%Z with 9223372036854775808%Z. lia. }
  assert (Hloop : forall t, t <> "" ->
    match digitsValue t 0 with
    | Some v =>
        (0 <= v)%Z /\
        if (v <=? 2 ^ Z.of_nat intSize - 1)%Z
        then strconv.ParseUint intSize t = (v, None)
        else strconv.ParseUint intSize t =
             ((2 ^ Z.of_nat intSize - 1)%Z, Some strconv.ErrRange)
    | None =>
        strconv.ParseUint intSize t = (0%Z, Some strconv.ErrSyntax) \/
        strconv.ParseUint intSize t =
        ((2 ^ Z.of_nat intSize - 1)%Z, Some strconv.ErrRange)
    end).
  { intros t Ht. unfold strconv.ParseUint. apply String.eqb_neq in Ht. rewrite Ht.
    pose proof (ParseUint_loop_spec intSize t 0 Hsz) as H.
    destruct (digitsValue t 0) as [v|] eqn:Hv; [|apply H; lia].
    split; [by eapply digitsValue_nonneg|]. apply H. lia. }
  unfold decimal, strconv.ParseInt, fitsInt.
  set (half := (2 ^ (Z.of_nat intSize - 1))%Z) in *.
  set (maxVal := (2 ^ Z.of_nat intSize - 1)%Z) in *.
  clearbody half maxVal.
  destruct (Ascii.eqb c "-") eqn:Hminus.
  - (* a minus sign *)
    rewrite orb_true_r. cbn [negb andb].
    destruct (String.eqb_spec r "") as [->|Hr]; [done|].
    specialize (Hloop r Hr).
    destruct (digitsValue r 0) as [v|]; cbn [option_map].
    + destruct Hloop as [Hv Hloop].
      destruct (Z.leb_spec v maxVal); rewrite Hloop.
      * destruct (Z.ltb_spec half v).
        -- destruct (Z.leb_spec (- half) (- v)); [lia|done].
        -- destruct (Z.leb_spec (- half) (- v)); [|lia].
           destruct (Z.ltb_spec (- v) half); [|lia]. cbn [andb].
           destruct (Z.eq_dec v 9223372036854775808%Z) as [->|Hne]; [done|].
           rewrite (Hw64 v) by lia. by rewrite Hw64 by lia.
      * destruct (Z.ltb_spec half maxVal); [|lia].
        destruct (Z.leb_spec (- half) (- v)); [lia|done].
    + destruct Hloop as [-> | ->]; [done|].
      destruct (Z.ltb_spec half maxVal); [done|lia].
  - destruct (Ascii.eqb c "+") eqn:Hplus.
    + (* a plus sign *)
      cbn [orb negb andb].
      destruct (String.eqb_spec r "") as [->|Hr]; [done|].
      specialize (Hloop r Hr).
      destruct (digitsValue r 0) as [v|].
      * destruct Hloop as [Hv Hloop].
        destruct (Z.leb_spec v maxVal); rewrite Hloop.
        -- destruct (Z.leb_spec half v).
           ++ destruct (Z.ltb_spec v half); [lia|]. by rewrite andb_false_r.
           ++ destruct (Z.leb_spec (- half) v); [|lia].
              destruct (Z.ltb_spec v half); [|lia]. cbn [andb].
              by rewrite Hw64 by lia.
        -- destruct (Z.leb_spec half maxVal); [|lia].
           destruct (Z.ltb_spec v half); [lia|]. by rewrite andb_false_r.
      * destruct Hloop as [-> | ->]; [done|].
        destruct (Z.leb_spec half maxVal); [done|lia].
    + (* no sign *)
      cbn [orb negb andb].
      specialize (Hloop (String c r) ltac:(done)).
      destruct (digitsValue (String c r) 0) as [v|].
      * destruct Hloop as [Hv Hloop].
        destruct (Z.leb_spec v maxVal); rewrite Hloop.
        -- destruct (Z.leb_spec half v).
           ++ destruct (Z.ltb_spec v half); [lia|]. by rewrite andb_false_r.
           ++ destruct (Z.leb_spec (- half) v); [|lia].
              destruct (Z.ltb_spec v half); [|lia]. cbn [andb].
              by rewrite Hw64 by lia.
        -- destruct (Z.leb_spec half maxVal); [|lia].
           destruct (Z.ltb_spec v half); [lia|]. by rewrite andb_false_r.
      * destruct Hloop as [-> | ->]; [done|].
        destruct (Z.leb_spec half maxVal); [done|lia].
Qed.

Lemma decimal_short s n :
  decimal s = Some n -> (Z.abs n < 10 ^ Z.of_nat (String.length s))%Z.
Proof.
  destruct s as [|c r]; [done|]. unfold decimal.
  assert (Hr : forall v, digitsValue r 0 = Some v ->
               (Z.abs v < 10 ^ Z.of_nat (String.length (String c r)))%Z).
  { intros v Hv. pose proof (digitsValue_nonneg _ _ _ (Z.le_refl 0) Hv).
    apply digitsValue_upper in Hv; [|lia]. simpl String.length.
    rewrite Nat2Z.inj_succ, Z.pow_succ_r by lia.
    assert (0 < 10 ^ Z.of_nat (String.length r))%Z by (apply Z.pow_pos_nonneg; lia).
    lia. }
  destruct (Ascii.eqb c "-").
  { destruct (String.eqb r ""); [done|].
    destruct (digitsValue r 0) as [v|] eqn:Hv; [|done]. intros [= <-].
    rewrite Z.abs_opp. by apply Hr. }
  destruct (Ascii.eqb c "+").
  { destruct (String.eqb r ""); [done|]. intros Hv. by apply Hr. }
  intros Hv. pose proof (digitsValue_nonneg _ _ _ (Z.le_refl 0) Hv).
  apply digitsValue_upper in Hv; [|lia]. lia.
Qed.

(** [strconv.Atoi]: the integer the numeral writes when it fits an
    [int], an error in every other case. *)
Lemma Atoi_spec intSize s :
  intSize = 32 \/ intSize = 64 ->
  match decimal s with
  | Some n =>
      if fitsInt intSize n
      then strconv.Atoi intSize s = (n, None)
      else snd (strconv.Atoi intSize s) <> None
  | None => snd (strconv.Atoi intSize s) <> None
  end.
Proof.
  intros Hsz. unfold strconv.Atoi.
  destruct ((intSize =? 32) && ((0 <? String.length s) && (String.length s <? 10))
            || (intSize =? 64) && ((0 <? String.length s) && (String.length s <? 19)))
    eqn:Hfast.
  - (* the fast path: the numeral is short, so the number fits *)
    assert (Hfit : forall n, decimal s = Some n -> fitsInt intSize n = true).
    { intros n Hn. apply decimal_short in Hn. unfold fitsInt.
      apply orb_true_iff in Hfast as [H|H];
        apply andb_true_iff in H as [Hi%Nat.eqb_eq [_ Hlen%Nat.ltb_lt]%andb_true_iff];
        subst intSize; simpl Z.of_nat; simpl (_ - 1)%Z.
      - assert (10 ^ Z.of_nat (String.length s) <= 10 ^ 9)%Z
          by (apply Z.pow_le_mono_r; lia).
        change (2 ^ 31)%Z with 2147483648%Z. change (10 ^ 9)%Z with 1000000000%Z in *.
        apply andb_true_iff. split; [apply Z.leb_le|apply Z.ltb_lt]; lia.
      - assert (10 ^ Z.of_nat (String.length s) <= 10 ^ 18)%Z
          by (apply Z.pow_le_mono_r; lia).
        change (2 ^ 63)%Z with 9223372036854775808%Z.
        change (10 ^ 18)%Z with 1000000000000000000%Z in *.
        apply andb_true_iff. split; [apply Z.leb_le|apply Z.ltb_lt]; lia. }
    destruct s as [|c r]; [done|]. unfold decimal in *.
    destruct (Ascii.eqb c "-") eqn:Hminus.
    + cbn [orb andb]. destruct (String.eqb r ""); [done|].
      rewrite Atoi_loop_digits.
      destruct (digitsValue r 0) as [v|]; [|done]. cbn [option_map] in *.
      by rewrite (Hfit _ eq_refl).
    + destruct (Ascii.eqb c "+") eqn:Hplus.
      * cbn [orb andb]. destruct (String.eqb r ""); [done|].
        rewrite Atoi_loop_digits.
        destruct (digitsValue r 0) as [v|]; [|done]. by rewrite (Hfit _ eq_refl).
      * cbn [orb andb]. rewrite Atoi_loop_digits.
        destruct (digitsValue (String c r) 0) as [v|]; [|done].
        by rewrite (Hfit _ eq_refl).
  - (* the slow path *)
    pose proof (ParseInt_spec intSize s Hsz) as H.
    destruct (decimal s) as [n|].
    + destruct (fitsInt intSize n) eqn:Hfit.
      * rewrite H. f_equal. apply wrap_small; [|destruct Hsz; lia].
        unfold fitsInt in Hfit. apply andb_true_iff in Hfit as [?%Z.leb_le ?%Z.ltb_lt].
        lia.
      * by destruct (strconv.ParseInt intSize s).
    + by destruct (strconv.ParseInt intSize s).
Qed.

Lemma getEnvInt_spec intSize env key defaultValue :
  intSize = 32 \/ intSize = 64 ->
  getEnvInt intSize env key defaultValue =
  match decimal (Getenv env key) with
  | Some n => if fitsInt intSize n then n else defaultValue
  | None => defaultValue
  end.
Proof.
  intros Hsz. unfold getEnvInt.
  destruct (String.eqb_spec (Getenv env key) "") as [->|Hne]; [done|]. cbn [negb].
  pose proof (Atoi_spec intSize (Getenv env key) Hsz) as H.
  destruct (decimal (Getenv env key)) as [n|].
  - destruct (fitsInt intSize n); [by rewrite H|].
    by destruct (strconv.Atoi intSize (Getenv env key)) as [v [e|]].
  - by destruct (strconv.Atoi intSize (Getenv env key)) as [v [e|]].
Qed.

(** [getEnvInt] gives the integer that the value of the variable writes
    in decimal, with or without a sign, when it fits an [int]; in every
    other case, the variable not set or empty, a value that is not a
    decimal numeral, a number too large, it gives the default. *)
Theorem getEnvInt_reads_decimal intSize env key defaultValue :
  intSize = 32 \/ intSize = 64 ->
  getEnvInt intSize env key defaultValue =
  match decimal (Getenv env key) with
  | Some n => if fitsInt intSize n then n else defaultValue
  | None => defaultValue
  end.
Proof. apply getEnvInt_spec. Qed.

Lemma getEnvInt_reads_decimal_witness :
  getEnvInt 64 (exEnv "SYNC_INTERVAL_MINUTES" "+030") "SYNC_INTERVAL_MINUTES" 15 = 30%Z /\
  getEnvInt 32 (exEnv "SYNC_INTERVAL_MINUTES" "30m") "SYNC_INTERVAL_MINUTES" 15 = 15%Z /\
  getEnvInt 32 (exEnv "SYNC_INTERVAL_MINUTES" "2147483648") "SYNC_INTERVAL_MINUTES" 15
  = 15%Z.
Proof.
  split; [|split].
  - apply (getEnvInt_reads_decimal 64 (exEnv "SYNC_INTERVAL_MINUTES" "+030")
             "SYNC_INTERVAL_MINUTES" 15). by right.
  - apply (getEnvInt_reads_decimal 32 (exEnv "SYNC_INTERVAL_MINUTES" "30m")
             "SYNC_INTERVAL_MINUTES" 15). by left.
  - apply (getEnvInt_reads_decimal 32 (exEnv "SYNC_INTERVAL_MINUTES" "2147483648")
             "SYNC_INTERVAL_MINUTES" 15). by left.
Defined.

(** The interval of the sync loop is the number of minutes that
    [SYNC_INTERVAL_MINUTES] writes, as long as that is no more than
    153722867 minutes either way; it is positive exactly when the number
    is, so that [0] gives an interval of zero. *)
Theorem syncInterval_in_minutes intSize env n :
  intSize = 32 \/ intSize = 64 ->
  decimal (Getenv env "SYNC_INTERVAL_MINUTES") = Some n ->
  (- 153722867 <= n <= 153722867)%Z ->
  syncIntervalOf intSize env = (n * Minute)%Z /\
  ((0 < syncIntervalOf intSize env)%Z <-> (0 < n)%Z).
Proof.
  intros Hsz Hdec Hn. unfold syncIntervalOf.
  rewrite getEnvInt_spec by done. rewrite Hdec.
  assert (fitsInt intSize n = true) as ->.
  { unfold fitsInt. apply andb_true_iff.
    destruct Hsz as [->| ->].
    - change (2 ^ (Z.of_nat 32 - 1))%Z with 2147483648%Z.
      split; [apply Z.leb_le|apply Z.ltb_lt]; lia.
    - change (2 ^ (Z.of_nat 64 - 1))%Z with 9223372036854775808%Z.
      split; [apply Z.leb_le|apply Z.ltb_lt]; lia. }
  unfold Minute. rewrite wrap_small; [lia| |lia].
  change (2 ^ (Z.of_nat 64 - 1))%Z with 9223372036854775808%Z. lia.
Qed.

Lemma syncInterval_in_minutes_witness :
  syncIntervalOf 32 (exEnv "SYNC_INTERVAL_MINUTES" "0") = (0 * Minute)%Z /\
  ((0 < syncIntervalOf 32 (exEnv "SYNC_INTERVAL_MINUTES" "0"))%Z <-> (0 < 0)%Z).
Proof.
  apply (syncInterval_in_minutes 32 (exEnv "SYNC_INTERVAL_MINUTES" "0") 0).
  - by left.
  - reflexivity.
  - lia.
Defined.

(** * The media API *)

Lemma handleMediaAPI_scan s w rw :
  let '(s1, w1, rw1) := handleMediaAPI s w rw in
  s1 = setMediaList s (scanned (config s) (disk w)) /\
  disk w1 = disk w /\ remote w1 = remote w /\
  written rw1 =
    (written rw ++
     json.encodeResponse (scanned (config s) (disk w))
                         (length (scanned (config s) (disk w))))%string.
Proof. done. Qed.

(** When the scan finds no media file, the answer of the media API has
    the count [0] and, for the list, [null], not an empty array. *)
Theorem media_api_empty_inventory_is_null s w rw :
  scanned (config s) (disk w) = [] ->
  written (snd (handleMediaAPI s w rw)) =
    (written rw ++
     "{" ++ String json.quote "count" ++ String json.quote ":0," ++
     String json.quote "media" ++ String json.quote ":null}" ++
     String (ascii_of_nat 10) "")%string /\
  mediaList (fst (fst (handleMediaAPI s w rw))) = [].
Proof.
  intros Hscan. pose proof (handleMediaAPI_scan s w rw) as H.
  destruct (handleMediaAPI s w rw) as [[s1 w1] rw1].
  cbn [fst snd]. destruct H as (-> & _ & _ & ->). rewrite Hscan. done.
Qed.

Lemma media_api_empty_inventory_is_null_witness :
  written (snd (handleMediaAPI (exServer [exMedia "a.mp4"])
                               (exWorld [("notes.txt", exFile "n")] exEmptyStore)
                               exResponse)) =
    ("{" ++ String json.quote "count" ++ String json.quote ":0," ++
     String json.quote "media" ++ String json.quote ":null}" ++
     String (ascii_of_nat 10) "")%string /\
  mediaList (fst (fst (handleMediaAPI (exServer [exMedia "a.mp4"])
                               (exWorld [("notes.txt", exFile "n")] exEmptyStore)
                               exResponse))) = [].
Proof.
  apply (media_api_empty_inventory_is_null (exServer [exMedia "a.mp4"])
           (exWorld [("notes.txt", exFile "n")] exEmptyStore) exResponse).
  reflexivity.
Defined.

(** A request to the media API publishes the scan of the disk as the
    inventory, and with that puts what the scan lists within the reach
    of the next cycle, whether or not an inventory listed it before: in
    a cycle that follows the request and gets its listing, a path of the
    scan that no listed key has as its local path is handed to
    [os.Remove], and nothing is at the path afterwards when the call
    returned [nil]. *)
Theorem request_exposes_local_file_to_removal s w rw client resp m :
  let s1 := fst (fst (handleMediaAPI s w rw)) in
  let w1 := snd (fst (handleMediaAPI s w rw)) in
  m ∈ scanned (config s) (disk w) ->
  s3Client s = Some client ->
  listing s1 w1 = Ok resp ->
  (forall k, k ∈ keysIn resp -> localPathOf s k <> Path m) ->
  (exists err, RemoveEv (Path m) err ∈ cycleEvents s1 w1) /\
  (RemoveEv (Path m) None ∈ cycleEvents s1 w1 ->
   exists e, os.Stat (disk (snd (syncFromS3 s1 w1))) (Path m) = Err e).
Proof.
  intros s1 w1 Hm Hc Hl Hk.
  pose proof (handleMediaAPI_scan s w rw) as H.
  subst s1 w1. destruct (handleMediaAPI s w rw) as [[s1 w1] rw1].
  destruct H as (-> & _). cbn [fst snd] in *. split.
  - apply (cycle_removes_unlisted _ w1 client resp); try done.
    apply list_elem_of_fmap. by exists m.
  - apply cycle_removed_is_gone.
Qed.

Lemma request_exposes_local_file_to_removal_witness :
  let s1 := fst (fst (handleMediaAPI (exServer [])
                        (exWorld exOldEntries exEmptyStore) exResponse)) in
  let w1 := snd (fst (handleMediaAPI (exServer [])
                        (exWorld exOldEntries exEmptyStore) exResponse)) in
  (exists err, RemoveEv "media/local.mov" err ∈ cycleEvents s1 w1) /\
  (RemoveEv "media/local.mov" None ∈ cycleEvents s1 w1 ->
   exists e, os.Stat (disk (snd (syncFromS3 s1 w1))) "media/local.mov" = Err e).
Proof.
  apply (request_exposes_local_file_to_removal (exServer [])
           (exWorld exOldEntries exEmptyStore) exResponse
           {| s3.Region := "sa-east-1" |}
           {| s3.Contents := []; s3.IsTruncated := false;
              s3.NextContinuationToken := None |}
           {| Name := "local.mov"; Path := "media/local.mov";
              URL := "/media/local.mov" |});
    try reflexivity.
  - apply list_elem_of_In. vm_compute. auto.
  - intros k Hk. by apply elem_of_nil in Hk.
Defined.
(* ===================================================================== *)
(** * The player *)
(* ===================================================================== *)

Lemma playCurrentMedia_fields p :
  DigitalSignage.mediaList (DigitalSignage.playCurrentMedia p) = DigitalSignage.mediaList p /\
  DigitalSignage.currentIndex (DigitalSignage.playCurrentMedia p) = DigitalSignage.currentIndex p.
Proof.
  unfold DigitalSignage.playCurrentMedia.
  by destruct (DigitalSignage.getCurrentMedia p).
Qed.

Lemma inRange_playCurrentMedia p :
  DigitalSignage.inRange p -> DigitalSignage.inRange (DigitalSignage.playCurrentMedia p).
Proof.
  unfold DigitalSignage.inRange. destruct (playCurrentMedia_fields p) as [-> ->]. done.
Qed.

Lemma startPlayback_fields p :
  DigitalSignage.mediaList (DigitalSignage.startPlayback p) = DigitalSignage.mediaList p /\
  DigitalSignage.currentIndex (DigitalSignage.startPlayback p) = DigitalSignage.currentIndex p.
Proof.
  unfold DigitalSignage.startPlayback.
  destruct (length (DigitalSignage.mediaList p) =? 0); [done|].
  apply playCurrentMedia_fields.
Qed.

Lemma inRange_init answer : DigitalSignage.inRange (DigitalSignage.init answer).
Proof.
  destruct answer as [data|]; [|by right].
  unfold DigitalSignage.init, DigitalSignage.inRange.
  destruct (startPlayback_fields (DigitalSignage.loadMediaList DigitalSignage.new data))
    as [-> ->].
  change (DigitalSignage.mediaList (DigitalSignage.loadMediaList DigitalSignage.new data))
    with (match data with Some l => l | None => [] end).
  change (DigitalSignage.currentIndex (DigitalSignage.loadMediaList DigitalSignage.new data))
    with 0.
  destruct data as [[|m l]|]; [by right| |by right]. left. simpl. lia.
Qed.

Lemma playNext_fields p :
  DigitalSignage.mediaList (DigitalSignage.playNext p) = DigitalSignage.mediaList p /\
  (DigitalSignage.mediaList p <> [] ->
   DigitalSignage.currentIndex (DigitalSignage.playNext p) =
     (DigitalSignage.currentIndex p + 1) mod length (DigitalSignage.mediaList p)).
Proof.
  unfold DigitalSignage.playNext.
  destruct (length (DigitalSignage.mediaList p) =? 0) eqn:E.
  - split; [done|]. apply Nat.eqb_eq in E.
    by destruct (DigitalSignage.mediaList p).
  - set (q := {| DigitalSignage.mediaList := DigitalSignage.mediaList p |}).
    by destruct (playCurrentMedia_fields q) as [-> ->].
Qed.

Lemma inRange_playNext p :
  DigitalSignage.inRange p -> DigitalSignage.inRange (DigitalSignage.playNext p).
Proof.
  intros Hp. unfold DigitalSignage.playNext.
  destruct (length (DigitalSignage.mediaList p) =? 0) eqn:E; [done|].
  apply inRange_playCurrentMedia. left. cbn.
  apply Nat.mod_upper_bound. by apply Nat.eqb_neq in E.
Qed.

(** The answer to a run of the refresh function that read [oldCount]
    from the list that is still there. *)
Lemma inRange_refreshAnswer p answer :
  DigitalSignage.inRange p ->
  DigitalSignage.inRange
    (DigitalSignage.refreshAnswer p (length (DigitalSignage.mediaList p)) answer).
Proof.
  intros Hp. unfold DigitalSignage.refreshAnswer. destruct answer as [data|]; [|done].
  set (l := match data with Some l => l | None => [] end).
  set (q := DigitalSignage.loadMediaList p data).
  assert (Hq : DigitalSignage.mediaList q = l /\
               DigitalSignage.currentIndex q = DigitalSignage.currentIndex p) by done.
  destruct Hq as [Hl Hi]. rewrite Hl, Hi. clearbody q.
  destruct (length l =? length (DigitalSignage.mediaList p)) eqn:E; cbn [negb].
  - apply Nat.eqb_eq in E. unfold DigitalSignage.inRange in *. rewrite Hl, Hi.
    destruct Hp as [Hp|[Hp1 Hp2]]; [left; lia|].
    right. split; [|done]. rewrite Hp1 in E. by destruct l.
  - destruct (length l <=? DigitalSignage.currentIndex p) eqn:E2.
    + apply inRange_playCurrentMedia. unfold DigitalSignage.inRange.
      cbn [DigitalSignage.mediaList DigitalSignage.currentIndex].
      destruct l; [by right | left; simpl; lia].
    + left. rewrite Hl, Hi. by apply Nat.leb_gt in E2.
Qed.

(** As long as one run of the refresh function at most waits for its
    answer, it read [oldCount] from the list that is there when the
    answer comes, and the index stays in the list. *)
Lemma inRange_handle n st e es :
  DigitalSignage.oneAtATime n (e :: es) = true ->
  DigitalSignage.inRange (DigitalSignage.object st) ->
  DigitalSignage.waiting st =
    repeat (length (DigitalSignage.mediaList (DigitalSignage.object st))) n ->
  n <= 1 ->
  exists n',
    DigitalSignage.oneAtATime n' es = true /\
    DigitalSignage.inRange (DigitalSignage.object (DigitalSignage.handle st e)) /\
    DigitalSignage.waiting (DigitalSignage.handle st e) =
      repeat (length (DigitalSignage.mediaList
                        (DigitalSignage.object (DigitalSignage.handle st e)))) n' /\
    n' <= 1.
Proof.
  intros Hes Hp Hw Hn.
  destruct e as [| | | | | |i answer]; cbn [DigitalSignage.oneAtATime] in Hes;
    cbn [DigitalSignage.handle DigitalSignage.object DigitalSignage.waiting].
  - exists n. destruct (playNext_fields (DigitalSignage.object st)) as [-> _].
    auto using inRange_playNext.
  - exists n. destruct (playNext_fields (DigitalSignage.object st)) as [-> _].
    auto using inRange_playNext.
  - exists n. auto.
  - exists n. by destruct (DigitalSignage.getCurrentMedia (DigitalSignage.object st)).
  - exists n. destruct (playNext_fields (DigitalSignage.object st)) as [-> _].
    auto using inRange_playNext.
  - apply andb_true_iff in Hes as [->%Nat.eqb_eq Hes]. exists 1.
    rewrite Hw. auto.
  - rewrite Hw. destruct n as [|[|n]]; [| |lia].
    + exists 0. destruct i; simpl in *; auto.
    + destruct i as [|i]; cbn [repeat nth_error Nat.ltb Nat.leb] in *.
      * exists 0. cbn [DigitalSignage.object DigitalSignage.waiting firstn skipn app repeat].
        simpl in Hes. split; [done|]. split; [|split; [done|lia]].
        by apply inRange_refreshAnswer.
      * exists 1. replace (nth_error [] i) with (@None nat) by (by destruct i).
        rewrite Hw. auto.
Qed.

Lemma inRange_events es : forall n st,
  DigitalSignage.oneAtATime n es = true ->
  DigitalSignage.inRange (DigitalSignage.object st) ->
  DigitalSignage.waiting st =
    repeat (length (DigitalSignage.mediaList (DigitalSignage.object st))) n ->
  n <= 1 ->
  DigitalSignage.inRange (DigitalSignage.object (fold_left DigitalSignage.handle es st)).
Proof.
  induction es as [|e es IH]; intros n st Hes Hst Hw Hn; [done|].
  cbn [fold_left].
  destruct (inRange_handle n st e es Hes Hst Hw Hn) as (n' & Hes' & Hst' & Hw' & Hn').
  by apply (IH n').
Qed.

(** As long as no run of the refresh function starts while another
    waits for its answer, the current index is in the list after
    [init] and any events, or the list is empty and the index 0:
    [getCurrentMedia] gives [null] for an empty list only. *)
Theorem player_index_stays_in_list answer es :
  DigitalSignage.oneAtATime 0 es = true ->
  let p := DigitalSignage.run answer es in
  DigitalSignage.mediaList p <> [] ->
  exists m, DigitalSignage.getCurrentMedia p = Some m.
Proof.
  intros Hes p Hne.
  assert (Hin : DigitalSignage.inRange p).
  { apply (inRange_events es 0); [done|apply inRange_init|done|lia]. }
  destruct Hin as [Hlt|[Hnil _]]; [|done].
  unfold DigitalSignage.getCurrentMedia.
  destruct (nth_error _ _) as [m|] eqn:E; [eauto|].
  apply nth_error_None in E. lia.
Qed.

Lemma player_index_stays_in_list_witness :
  exists m,
    DigitalSignage.getCurrentMedia
      (DigitalSignage.run (Some (Some [exMedia "a.mp4"; exMedia "b.mp4"; exMedia "c.mp4"]))
         [DigitalSignage.Ended; DigitalSignage.Refresh; DigitalSignage.Ended;
          DigitalSignage.RefreshAnswer 0 (Some (Some [exMedia "a.mp4"]))]) = Some m.
Proof.
  apply (player_index_stays_in_list
           (Some (Some [exMedia "a.mp4"; exMedia "b.mp4"; exMedia "c.mp4"]))
           [DigitalSignage.Ended; DigitalSignage.Refresh; DigitalSignage.Ended;
            DigitalSignage.RefreshAnswer 0 (Some (Some [exMedia "a.mp4"]))]).
  - reflexivity.
  - discriminate.
Defined.

(** A player that got no media when the page was loaded never assigns
    a source to the video element, whatever the refreshes bring later:
    with the index 0 inside every list that is not empty, a refresh does
    not call [playCurrentMedia]. *)
Theorem player_without_media_never_starts es :
  forallb DigitalSignage.isRefresh es = true ->
  DigitalSignage.sources (DigitalSignage.run (Some None) es) = [] /\
  DigitalSignage.sources (DigitalSignage.run (Some (Some [])) es) = [].
Proof.
  intros Hes.
  assert (Hgen : forall st,
    DigitalSignage.sources (DigitalSignage.object st) = [] ->
    DigitalSignage.currentIndex (DigitalSignage.object st) = 0 ->
    DigitalSignage.sources
      (DigitalSignage.object (fold_left DigitalSignage.handle es st)) = []).
  { induction es as [|e es IH]; intros st Hs Hi; [done|].
    cbn [forallb] in Hes. apply andb_true_iff in Hes as [He Hes].
    cbn [fold_left]. specialize (IH Hes).
    destruct e as [| | | | | |i answer]; try done; cbn [DigitalSignage.handle].
    { by apply IH. }
    destruct (nth_error (DigitalSignage.waiting st) i) as [oldCount|]; [|by apply IH].
    apply IH; cbn [DigitalSignage.object]; unfold DigitalSignage.refreshAnswer;
      (destruct answer as [data|]; [|done]);
      set (l := match data with Some l => l | None => [] end);
      set (q := DigitalSignage.loadMediaList (DigitalSignage.object st) data);
      (assert (Hq : DigitalSignage.mediaList q = l /\
                    DigitalSignage.currentIndex q = 0 /\
                    DigitalSignage.sources q = []) by (by rewrite <- Hi, <- Hs));
      destruct Hq as (Hl & Hqi & Hqs); rewrite Hl, Hqi; clearbody q;
      (destruct (negb _); [|done]);
      destruct l as [|m l]; cbn [length Nat.leb]; done. }
  split; by apply Hgen.
Qed.

Lemma player_without_media_never_starts_witness :
  DigitalSignage.sources
    (DigitalSignage.run (Some None)
       [DigitalSignage.Refresh;
        DigitalSignage.RefreshAnswer 0 (Some (Some [exMedia "a.mp4"; exMedia "b.mp4"]))])
  = [] /\
  DigitalSignage.sources
    (DigitalSignage.run (Some (Some []))
       [DigitalSignage.Refresh;
        DigitalSignage.RefreshAnswer 0 (Some (Some [exMedia "a.mp4"; exMedia "b.mp4"]))])
  = [].
Proof.
  apply (player_without_media_never_starts
           [DigitalSignage.Refresh;
            DigitalSignage.RefreshAnswer 0 (Some (Some [exMedia "a.mp4"; exMedia "b.mp4"]))]).
  reflexivity.
Defined.

(** ** The events [ended] *)

Lemma nth_error_in_range (l : list MediaFile) i :
  i < length l -> exists m, nth_error l i = Some m.
Proof.
  intros H. destruct (nth_error l i) as [m|] eqn:E; [eauto|].
  apply nth_error_None in E. lia.
Qed.

(** [k] events [ended] in a row move the index on by [k], around the
    list, and assign the source of each file they come to. *)
Lemma ended_events k : forall st,
  let l := DigitalSignage.mediaList (DigitalSignage.object st) in
  let i := DigitalSignage.currentIndex (DigitalSignage.object st) in
  let st' := fold_left DigitalSignage.handle (repeat DigitalSignage.Ended k) st in
  i < length l ->
  DigitalSignage.waiting st' = DigitalSignage.waiting st /\
  DigitalSignage.mediaList (DigitalSignage.object st') = l /\
  DigitalSignage.currentIndex (DigitalSignage.object st') = (i + k) mod length l /\
  DigitalSignage.sources (DigitalSignage.object st') =
    DigitalSignage.sources (DigitalSignage.object st) ++
    flat_map (fun j => match nth_error l ((i + j) mod length l) with
                       | Some m => [URL m]
                       | None => []
                       end) (seq 1 k).
Proof.
  intros st l i. induction k as [|k IH]; intros st' Hi.
  - subst st'. cbn [repeat fold_left seq flat_map].
    rewrite Nat.add_0_r, Nat.mod_small, app_nil_r by done. done.
  - subst st'. cbv zeta in IH.
    change (repeat DigitalSignage.Ended (S k))
      with (DigitalSignage.Ended :: repeat DigitalSignage.Ended k).
    rewrite repeat_cons, fold_left_app. cbn [fold_left DigitalSignage.handle].
    destruct (IH Hi) as (Hw & Hm & Hx & Hs).
    set (q := fold_left DigitalSignage.handle (repeat DigitalSignage.Ended k) st) in *.
    clearbody q. cbn [DigitalSignage.object DigitalSignage.waiting].
    assert (Hlen : length l <> 0) by lia.
    assert (Hidx : ((i + k) mod length l + 1) mod length l = (i + S k) mod length l).
    { rewrite Nat.Div0.add_mod_idemp_l. f_equal. lia. }
    unfold DigitalSignage.playNext. rewrite Hm, Hx, Hidx.
    destruct (length l =? 0) eqn:E; [by apply Nat.eqb_eq in E|].
    unfold DigitalSignage.playCurrentMedia, DigitalSignage.getCurrentMedia.
    cbn [DigitalSignage.mediaList DigitalSignage.currentIndex].
    rewrite (seq_S k 1), flat_map_app. cbn [flat_map Nat.add]. rewrite app_nil_r.
    destruct (nth_error_in_range l ((i + S k) mod length l)) as [m ->];
      [by apply Nat.mod_upper_bound|].
    cbn [DigitalSignage.mediaList DigitalSignage.currentIndex DigitalSignage.sources].
    by rewrite Hs, app_assoc.
Qed.

Lemma init_fields m l :
  DigitalSignage.mediaList (DigitalSignage.init (Some (Some (m :: l)))) = m :: l /\
  DigitalSignage.currentIndex (DigitalSignage.init (Some (Some (m :: l)))) = 0 /\
  DigitalSignage.sources (DigitalSignage.init (Some (Some (m :: l)))) = [URL m].
Proof. done. Qed.

(** Each [ended] event moves the player on by one file and back to the
    first after the last: after [k] of them the index is [k] modulo the
    length of the list, and the sources assigned so far are the URLs of
    the list in its order, over and over. *)
Theorem player_cycles_through_list l k :
  l <> [] ->
  let p := DigitalSignage.run (Some (Some l)) (repeat DigitalSignage.Ended k) in
  DigitalSignage.mediaList p = l /\
  DigitalSignage.currentIndex p = k mod length l /\
  DigitalSignage.sources p =
    flat_map (fun i => match nth_error l (i mod length l) with
                       | Some m => [URL m]
                       | None => []
                       end) (seq 0 (S k)).
Proof.
  intros Hl. destruct l as [|m l]; [done|]. unfold DigitalSignage.run.
  destruct (init_fields m l) as (Hm & Hi & Hs).
  set (st := {| DigitalSignage.object := DigitalSignage.init (Some (Some (m :: l)));
                DigitalSignage.waiting := [] |}).
  destruct (ended_events k st) as (_ & Hm' & Hi' & Hs').
  { cbn [st DigitalSignage.object]. rewrite Hm, Hi. simpl. lia. }
  cbn [st DigitalSignage.object] in Hm', Hi', Hs'. rewrite Hm, Hi, Hs in *.
  cbv zeta. split; [done|]. split; [done|]. rewrite Hs'.
  change (seq 0 (S k)) with (0 :: seq 1 k). cbn [flat_map].
  rewrite Nat.Div0.mod_0_l. done.
Qed.

Lemma player_cycles_through_list_witness :
  let p := DigitalSignage.run (Some (Some [exMedia "a.mp4"; exMedia "b.mp4"]))
             (repeat DigitalSignage.Ended 3) in
  DigitalSignage.mediaList p = [exMedia "a.mp4"; exMedia "b.mp4"] /\
  DigitalSignage.currentIndex p = 1 /\
  DigitalSignage.sources p = ["/media/a.mp4"; "/media/b.mp4"; "/media/a.mp4"; "/media/b.mp4"].
Proof.
  apply (player_cycles_through_list [exMedia "a.mp4"; exMedia "b.mp4"] 3).
  discriminate.
Defined.

(** ** Two runs of the refresh function at a time *)

(** The second of two runs of the refresh function that wait together
    compares the list it gets with the length it read before the first
    one was answered.  Here the first brings a longer list, the player
    moves beyond the length of the old one, and the second brings a list
    as long as the old one: the index is left outside the list, and
    [getCurrentMedia] gives [null] though the list is not empty. *)
Theorem overlapping_refreshes_leave_index_outside l l1 l2 :
  l <> [] ->
  length l < length l1 ->
  length l2 = length l ->
  let p := DigitalSignage.run (Some (Some l))
             ([DigitalSignage.Refresh; DigitalSignage.Refresh;
               DigitalSignage.RefreshAnswer 0 (Some (Some l1))] ++
              repeat DigitalSignage.Ended (length l) ++
              [DigitalSignage.RefreshAnswer 0 (Some (Some l2))]) in
  DigitalSignage.mediaList p = l2 /\
  l2 <> [] /\
  DigitalSignage.currentIndex p = length l /\
  DigitalSignage.getCurrentMedia p = None.
Proof.
  intros Hl H1 H2. destruct l as [|m l]; [done|]. unfold DigitalSignage.run.
  destruct (init_fields m l) as (Hm & Hi & Hs).
  rewrite !fold_left_app.
  set (p0 := DigitalSignage.init (Some (Some (m :: l)))) in *. clearbody p0.
  cbn [fold_left DigitalSignage.handle DigitalSignage.object DigitalSignage.waiting
       app nth_error firstn skipn]. rewrite Hm.
  (* the first answer: a longer list, the index stays *)
  set (q := DigitalSignage.refreshAnswer p0 (length (m :: l)) (Some (Some l1))).
  assert (Hq : DigitalSignage.mediaList q = l1 /\ DigitalSignage.currentIndex q = 0).
  { subst q. unfold DigitalSignage.refreshAnswer.
    set (q := DigitalSignage.loadMediaList p0 (Some l1)).
    assert (Hq : DigitalSignage.mediaList q = l1 /\ DigitalSignage.currentIndex q = 0)
      by (by rewrite <- Hi).
    destruct Hq as [Hq1 Hq2]. rewrite Hq1, Hq2. clearbody q.
    destruct (length l1 =? length (m :: l)) eqn:E; [apply Nat.eqb_eq in E; lia|].
    cbn [negb]. destruct l1; [simpl in H1; lia|]. done. }
  destruct Hq as [Hq1 Hq2]. clearbody q.
  (* the events [ended] *)
  set (st := {| DigitalSignage.object := q;
                DigitalSignage.waiting := [length (m :: l)] |}).
  destruct (ended_events (length (m :: l)) st) as (Hw & Hm' & Hi' & _).
  { cbn [st DigitalSignage.object]. rewrite Hq1, Hq2. lia. }
  cbn [st DigitalSignage.object DigitalSignage.waiting] in Hw, Hm', Hi'.
  rewrite Hq1, Hq2 in *. rewrite Nat.add_0_l, Nat.mod_small in Hi' by done.
  set (st' := fold_left DigitalSignage.handle _ st) in *. clearbody st'.
  (* the second answer: as long as the list it knew *)
  rewrite Hw. cbn [nth_error DigitalSignage.object].
  unfold DigitalSignage.refreshAnswer.
  set (q' := DigitalSignage.loadMediaList (DigitalSignage.object st') (Some l2)).
  assert (Hq' : DigitalSignage.mediaList q' = l2 /\
                DigitalSignage.currentIndex q' = length (m :: l))
    by (by rewrite <- Hi').
  destruct Hq' as [Hq1' Hq2']. rewrite Hq1'. clearbody q'.
  rewrite H2, Nat.eqb_refl. cbn [negb].
  split; [done|]. split; [by destruct l2|]. split; [done|].
  unfold DigitalSignage.getCurrentMedia. rewrite Hq1', Hq2'.
  apply nth_error_None. lia.
Qed.

Lemma overlapping_refreshes_leave_index_outside_witness :
  let p := DigitalSignage.run (Some (Some [exMedia "a.mp4"]))
             ([DigitalSignage.Refresh; DigitalSignage.Refresh;
               DigitalSignage.RefreshAnswer 0
                 (Some (Some [exMedia "a.mp4"; exMedia "b.mp4"]))] ++
              repeat DigitalSignage.Ended 1 ++
              [DigitalSignage.RefreshAnswer 0 (Some (Some [exMedia "b.mp4"]))]) in
  DigitalSignage.mediaList p = [exMedia "b.mp4"] /\
  [exMedia "b.mp4"] <> [] /\
  DigitalSignage.currentIndex p = 1 /\
  DigitalSignage.getCurrentMedia p = None.
Proof.
  apply (overlapping_refreshes_leave_index_outside
           [exMedia "a.mp4"] [exMedia "a.mp4"; exMedia "b.mp4"] [exMedia "b.mp4"]).
  - discriminate.
  - simpl. lia.
  - reflexivity.
Defined.

(** ** The extension of a removed file, on the example *)

Lemma removals_have_media_extension_witness :
  supportedExts (ToLower (Ext "media/old.mp4")) = true.
Proof.
  apply (removals_have_media_extension
           (exServer (scanned exConfig (exDisk exOldEntries)))
           (exWorld exOldEntries exStore) (exDisk exOldEntries)
           "media/old.mp4" None).
  - reflexivity.
  - apply list_elem_of_In. vm_compute. auto 10.
Defined.

(* ===================================================================== *)
(** * Catching up with the listing *)
(* ===================================================================== *)

(** ** What the file operations keep in place *)

Lemma statOk_present d name :
  statOk d name <-> exists q, os.resolve d name = Some q /\ present d q.
Proof.
  unfold statOk, os.Stat, present. destruct (os.resolve d name) as [q|].
  - destruct (lookup q (tree d)) as [n|] eqn:Hl.
    + destruct n as [b|r ents|]; simpl; split.
      * intros _. exists q. split; [done|]. by eexists.
      * eauto.
      * intros _. exists q. split; [done|]. by eexists.
      * eauto.
      * by intros [? ?].
      * intros (q' & [= <-] & n & Hn & Hb). congruence.
    + split; [by intros [? ?]|]. intros (q' & [= <-] & n & Hn & _). congruence.
  - split; [by intros [? ?]|]. by intros (q' & ? & _).
Qed.

Lemma mkdirAll_dir p : forall n n',
  mkdirAll p n = Some n' -> isDirNode n' = true.
Proof.
  destruct p as [|c p]; intros n n' H; destruct n as [|r ents|]; try done.
  - by injection H as <-.
  - simpl in H. destruct (mkdirAll p _); [|done]. by injection H as <-.
Qed.



Lemma lookup_nil_dir q r : q <> [] -> lookup q (DirNode r []) = None.
Proof. by destruct q. Qed.








Lemma holds_present d q body : holds d q body -> present d q.
Proof. unfold holds, present. intros ->. by eexists. Qed.

(** ** The first loop leaves every listed key on the disk *)






Lemma syncObjects_cwd s objs st :
  cwd (disk (world (fold_left (syncObject s) objs st))) = cwd (disk (world st)).
Proof. by destruct (syncObjects_spec s objs st) as (e1 & _ & _ & _ & _ & _ & C1 & _). Qed.


(** ** The removals leave them there *)


Lemma removeLocals_cwd l w :
  cwd (disk (fold_left removeLocal l w)) = cwd (disk w).
Proof. by destruct (removeLocals_spec l w) as (evs & _ & _ & C & _). Qed.


(** ** The cycle after *)



(* ===================================================================== *)
(** * A disk kept in order stays so *)
(* ===================================================================== *)






(** ** Entries put and taken away *)








(** ** The changes the program makes *)






(** ** The calls of the program keep the disk in order *)











Lemma syncFromS3_cwd s w : cwd (disk (snd (syncFromS3 s w))) = cwd (disk w).
Proof.
  unfold syncFromS3. destruct (s3Client s); [|done].
  destruct (s3.ListObjectsV2 _ _) as [resp|e]; [|done].
  set (st0 := {| world := emit w (ListEv None) |}).
  pose proof (syncObjects_cwd s (s3.Contents resp) st0) as H1.
  set (st := fold_left (syncObject s) (s3.Contents resp) st0) in *.
  pose proof (removeLocals_cwd (localFilesToRemove st) (world st)) as H2.
  change (cwd (disk (world st0))) with (cwd (disk w)) in H1.
  destruct (0 <? syncCount st), (0 <? length _); simpl; congruence.
Qed.


(** ** Once caught up, the loop stays so *)





(* ===================================================================== *)
(** * [syncLoop] *)
(* ===================================================================== *)

(** ** After the first cycle *)



(** ** An installation in sync *)

Lemma periodicSync_in_sync s client resp (evs : list event) ticks : forall w,
  s3Client s = Some client ->
  listing s w = Ok resp ->
  NoDup (map Path (mediaList s)) ->
  (forall k, k ∈ keysIn resp ->
             exists info, os.Stat (disk w) (localPathOf s k) = Ok info) ->
  (forall m, m ∈ mediaList s ->
             exists k, k ∈ keysIn resp /\ localPathOf s k = Path m) ->
  evs = ListEv None :: map (fun k => StatEv k (localPathOf s k) true) (keysIn resp) ->
  periodicSync ticks s w =
    (s, {| disk := disk w;
           remote := remote w;
           trace := trace w ++ concat (repeat evs ticks) |}).
Proof.
  induction ticks as [|n IH]; intros w Hc Hl Hnd Hdisk Hinv ->.
  - simpl. rewrite app_nil_r. by destruct w.
  - cbn [periodicSync]. rewrite (cycle_in_sync s w client resp) by done.
    rewrite (IH _ Hc) by done. cbn [disk remote trace repeat concat].
    by rewrite <- app_assoc.
Qed.

(** When every listed key is on the disk and every path of the
    inventory is the local path of a listed key, the loop, however many
    ticks it receives and the store staying as it is, leaves the
    inventory and the disk as they are: each cycle only looks at the
    keys. *)
Theorem syncLoop_in_sync_is_idle s w client resp ticks :
  s3Client s = Some client ->
  listing s w = Ok resp ->
  NoDup (map Path (mediaList s)) ->
  (forall k, k ∈ keysIn resp ->
             exists info, os.Stat (disk w) (localPathOf s k) = Ok info) ->
  (forall m, m ∈ mediaList s ->
             exists k, k ∈ keysIn resp /\ localPathOf s k = Path m) ->
  fst (syncLoop ticks s w) = s /\
  disk (snd (syncLoop ticks s w)) = disk w /\
  trace (snd (syncLoop ticks s w)) =
    trace w ++
    concat (repeat (ListEv None ::
                      map (fun k => StatEv k (localPathOf s k) true) (keysIn resp))
                   (S ticks)).
Proof.
  intros Hc Hl Hnd Hdisk Hinv. unfold syncLoop.
  rewrite (cycle_in_sync s w client resp) by done.
  rewrite (periodicSync_in_sync s client resp _ ticks _ Hc) by done.
  cbn [fst snd disk trace repeat concat]. by rewrite <- app_assoc.
Qed.

Lemma syncLoop_in_sync_is_idle_witness :
  let s := exOldServer in
  let w := exWorld exOldEntries exOldStore in
  fst (syncLoop 2 s w) = s /\
  disk (snd (syncLoop 2 s w)) = disk w /\
  trace (snd (syncLoop 2 s w)) =
    [ListEv None; StatEv "old.mp4" "media/old.mp4" true;
     ListEv None; StatEv "old.mp4" "media/old.mp4" true;
     ListEv None; StatEv "old.mp4" "media/old.mp4" true].
Proof.
  apply (syncLoop_in_sync_is_idle exOldServer (exWorld exOldEntries exOldStore)
           {| s3.Region := "sa-east-1" |}
           {| s3.Contents := [{| s3.Key := Some "old.mp4" |}];
              s3.IsTruncated := false;
              s3.NextContinuationToken := None |} 2); try reflexivity.
  - repeat constructor. by intros H%elem_of_nil.
  - intros k Hk. apply list_elem_of_In in Hk. simpl in Hk.
    destruct Hk as [<-|[]]. eexists. vm_compute. reflexivity.
  - intros m Hm. apply list_elem_of_In in Hm. simpl in Hm.
    destruct Hm as [<-|[]]. exists "old.mp4". split; [|reflexivity].
    apply list_elem_of_In. simpl. auto.
Defined.

(* ===================================================================== *)
(** * A request that fails *)
(* ===================================================================== *)

(** ** [filepath.Dir] of a cleaned path *)

Lemma dirPart_noslash nm : hasSlash nm = false -> dirPart nm = "".
Proof. destruct nm as [|c r]; [done|]. cbn [dirPart]. by intros ->. Qed.

Lemma hasSlash_app pre nm : hasSlash (pre ++ "/" ++ nm) = true.
Proof.
  induction pre as [|c pre IH]; [done|].
  change (hasSlash (String c (pre ++ "/" ++ nm)) = true).
  cbn [hasSlash]. rewrite IH. apply orb_true_r.
Qed.

Lemma dirPart_app pre nm :
  hasSlash nm = false -> dirPart (pre ++ "/" ++ nm) = (pre ++ "/")%string.
Proof.
  intros Hnm. induction pre as [|c pre IH].
  - change (dirPart (String "/" nm) = "/"). cbn [dirPart hasSlash isSlash].
    simpl. by rewrite dirPart_noslash.
  - change (dirPart (String c (pre ++ "/" ++ nm)) = String c (pre ++ "/")).
    cbn [dirPart].
    change (hasSlash (String c (pre ++ "/" ++ nm)))
      with (hasSlash ((String c pre) ++ "/" ++ nm)).
    by rewrite hasSlash_app, IH.
Qed.

Lemma Clean_trailing pre : pre <> "" -> Clean (pre ++ "/") = Clean pre.
Proof.
  intros Hne. unfold Clean. rewrite rooted_app by done.
  change (pre ++ "/")%string with (pre ++ "/" ++ "")%string.
  rewrite splitSlash_app, cleanElems_app. done.
Qed.

(** The directory of a cleaned path that ends in a name is the path
    without that name. *)
Lemma Dir_render r elems nm :
  cleanList r elems -> isName nm = true ->
  Dir (render r (elems ++ [nm])) = render r elems.
Proof.
  intros Hc Hnm. pose proof Hnm as (_ & _ & _ & Hs)%isName_spec. unfold Dir.
  destruct elems as [|e es].
  - destruct r; cbn [app render String.concat].
    + change ("/" ++ nm)%string with ("" ++ "/" ++ nm)%string.
      by rewrite dirPart_app.
    + by rewrite dirPart_noslash.
  - assert (Hpre : render r ((e :: es) ++ [nm]) = (render r (e :: es) ++ "/" ++ nm)%string).
    { unfold render. rewrite concat_snoc by done.
      destruct r; [by rewrite append_assoc|]. by destruct es. }
    rewrite Hpre, dirPart_app by done.
    rewrite Clean_trailing by (by apply render_nonempty).
    by apply Clean_clean.
Qed.

Lemma resolve_Dir_Join d dir names nm q :
  dir <> "" -> Forall (fun x => isName x = true) names -> isName nm = true ->
  os.resolve d dir = Some q ->
  os.resolve d (Dir (Join dir (String.concat "/" (names ++ [nm])))) = Some (q ++ names).
Proof.
  intros Hd Hn Hnm Hq.
  assert (Hall : Forall (fun x => isName x = true) (names ++ [nm])).
  { apply Forall_app. split; [done|by constructor]. }
  assert (Hc : cleanList (rooted dir) (elemsOf dir ++ names)).
  { apply cleanList_app_names; [apply elemsOf_clean|done]. }
  rewrite Join_names by done.
  rewrite app_assoc, Dir_render by done.
  rewrite <- Join_names by done. by apply resolve_Join_names.
Qed.

(** ** What [os.MkdirAll] makes *)

(** What is there after [mkdirAll] was there before, or is on the way to
    the directory asked for. *)
Lemma mkdirAll_present_inv p : forall n n' q x,
  mkdirAll p n = Some n' ->
  lookup q n' = Some x -> x <> BadNode ->
  (exists x', lookup q n = Some x' /\ x' <> BadNode) \/ exists t, p = q ++ t.
Proof.
  induction p as [|c p IH]; intros n n' q x Hm Hq Hx.
  - left. destruct n; simpl in Hm; simplify_eq. eauto.
  - destruct n as [|r ents|]; try done. cbn [mkdirAll] in Hm.
    destruct (mkdirAll p _) as [child'|] eqn:Hm'; [|done].
    injection Hm as <-.
    destruct q as [|c2 q]; [right; by exists (c :: p)|].
    cbn [lookup] in *.
    destruct (decide (c2 = c)) as [->|Hc].
    + rewrite getEntry_putEntry_eq in Hq.
      destruct (IH _ _ _ _ Hm' Hq Hx) as [(x' & Hx' & Hb)|[t ->]].
      * destruct (getEntry c ents) as [child|]; [left; eauto|].
        destruct q as [|c3 q]; [right; by exists p|].
        by rewrite lookup_nil_dir in Hx'.
      * right. by exists t.
    + rewrite getEntry_putEntry_ne in Hq by done. left. eauto.
Qed.

(** ** The turn of a key whose request fails *)

(** The turn of the first loop for a key made of names that is not on
    the disk and whose request fails: the failure is logged, nothing is
    counted, the regular files of the disk are the ones there were, and
    [os.Stat] still fails for the local path after the turn, whatever
    directories [os.MkdirAll] made on the way. *)
Theorem failed_request_leaves_key_missing s st obj p names nm e err :
  let key := String.concat "/" (names ++ [nm]) in
  let localPath := localPathOf s key in
  s3.Key obj = Some key ->
  Forall (fun x => isName x = true) names -> isName nm = true ->
  os.resolve (disk (world st)) (MediaDir (config s)) = Some p ->
  os.Stat (disk (world st)) localPath = Err e ->
  s3.GetObject (remote (world st))
    {| s3.GetBucket := S3Bucket (config s); s3.GetKey := key |} = Err err ->
  let st' := syncObject s st obj in
  (exists err',
      trace (world st') =
        trace (world st) ++
        [StatEv key localPath false; DownloadEv key localPath (Some err')]) /\
  syncCount st' = syncCount st /\
  localFilesToRemove st' = localFilesToRemove st /\
  (exists e', os.Stat (disk (world st')) localPath = Err e') /\
  (forall q body, holds (disk (world st')) q body <-> holds (disk (world st)) q body).
Proof.
  intros key localPath Hk Hn Hnm Hp Hstat Hget st'.
  pose proof (resolve_nonempty _ _ _ Hp) as Hroot.
  assert (Hnames : Forall (fun x => isName x = true) (names ++ [nm])).
  { apply Forall_app. split; [done|by constructor]. }
  assert (Hq : os.resolve (disk (world st)) localPath = Some (p ++ names ++ [nm])).
  { by apply resolve_Join_names. }
  assert (Hdir : os.resolve (disk (world st)) (Dir localPath) = Some (p ++ names)).
  { by apply resolve_Dir_Join. }
  assert (Hmiss : ~ present (disk (world st)) (p ++ names ++ [nm])).
  { intros Hpr. assert (Hs : statOk (disk (world st)) localPath).
    { apply statOk_present. eauto. }
    destruct Hs as [info Hi]. congruence. }
  subst st'. unfold syncObject. rewrite Hk. fold (localPathOf s key). fold localPath.
  rewrite Hstat. unfold downloadFromS3. cbn [emit disk remote].
  unfold os.MkdirAll. rewrite Hdir.
  destruct (mkdirAll (p ++ names) (tree (disk (world st)))) as [t|] eqn:Hm;
    cbn [setDisk disk remote emit world trace syncCount localFilesToRemove].
  - rewrite Hget. cbn [world emit setDisk trace syncCount localFilesToRemove disk remote].
    split; [exists err; by rewrite <- app_assoc|]. split; [done|]. split; [done|].
    split.
    + destruct (os.Stat {| cwd := cwd (disk (world st)); tree := t |} localPath)
        as [info|e'] eqn:Hs; [|eauto].
      exfalso. assert (Hs' : statOk {| cwd := cwd (disk (world st)); tree := t |} localPath)
        by (by exists info).
      apply statOk_present in Hs' as (q & Hq' & x & Hx & Hb).
      rewrite (resolve_cwd _ (disk (world st))) in Hq' by done.
      assert (q = p ++ names ++ [nm]) as -> by congruence. cbn [tree] in Hx.
      destruct (mkdirAll_present_inv _ _ _ _ _ Hm Hx Hb) as [(x' & Hx' & Hb')|[t' Ht']].
      * apply Hmiss. by exists x'.
      * apply (f_equal length) in Ht'. rewrite !length_app in Ht'. simpl in Ht'. lia.
    + intros q body. unfold holds. cbn [tree]. split.
      * by apply mkdirAll_file_inv with (p := p ++ names).
      * by apply mkdirAll_keeps_file with (p := p ++ names).
  - split; [eexists; by rewrite <- app_assoc|]. split; [done|]. split; [done|].
    split; [eauto|done].
Qed.

Lemma failed_request_leaves_key_missing_witness :
  let s := exServer [] in
  let st := {| world := exWorld [] s3Down; localFilesToRemove := []; syncCount := 0 |} in
  let st' := syncObject s st {| s3.Key := Some "a/b.mp4" |} in
  (exists err',
      trace (world st') =
        trace (world st) ++
        [StatEv "a/b.mp4" (localPathOf s "a/b.mp4") false;
         DownloadEv "a/b.mp4" (localPathOf s "a/b.mp4") (Some err')]) /\
  syncCount st' = syncCount st /\
  localFilesToRemove st' = localFilesToRemove st /\
  (exists e', os.Stat (disk (world st')) (localPathOf s "a/b.mp4") = Err e') /\
  (forall q body, holds (disk (world st')) q body <-> holds (disk (world st)) q body).
Proof.
  apply (failed_request_leaves_key_missing (exServer [])
           {| world := exWorld [] s3Down; localFilesToRemove := []; syncCount := 0 |}
           {| s3.Key := Some "a/b.mp4" |} ["srv"; "media"] ["a"] "b.mp4"
           (PathError "stat" "media/a/b.mp4") (RequestError "GetObject"));
    try reflexivity.
  by repeat constructor.
Defined.
